(** * electron-vite: the bytecode protection plugin

    A shallow embedding of [src/plugins/bytecode.ts]: the chunk selector,
    the build hooks of [bytecodePlugin] (render-chunk, generate-bundle,
    write-bundle, close-bundle), the compiler client [compileToBytecode]
    and the runtime loader shipped as [bytecodeModuleLoaderCode].

    JavaScript strings are sequences of UTF-16 code units; a code unit is
    a number ([N]), a string a list of them.  Buffers are lists of bytes.
    What the plugin obtains from its host (the regular-expression engine,
    [node:path], babel, the compiler subprocess) is collected in the
    class [Host]; the bundler's module graph is a finite map. *)

From Stdlib Require Import ZArith NArith Lia Ascii String.
From Stdlib.Strings Require Import Byte.
From stdpp Require Import gmap strings list.

Set Default Proof Using "Type".

(** ** JavaScript strings *)

Abbreviation jsstring := (list N) (only parsing).
Abbreviation buffer := (list byte) (only parsing).

(** An ASCII literal as a JavaScript string. *)
Definition lit (s : string) : jsstring := N_of_ascii <$> list_ascii_of_string s.

(** The same, with a backquote standing for the double quote, which a
    literal of the embedding cannot hold. *)
Definition litq (s : string) : jsstring :=
  (λ c : N, if (c =? 96)%N then 34%N else c) <$> lit s.

Definition newline : N := 10%N.

(** [Array.prototype.join]. *)
Fixpoint join (sep : jsstring) (parts : list jsstring) : jsstring :=
  match parts with
  | [] => []
  | [p] => p
  | p :: ps => p ++ sep ++ join sep ps
  end.

(** [Array.prototype.includes] on strings. *)
Definition includes (l : list jsstring) (x : jsstring) : bool :=
  bool_decide (x ∈ l).

Fixpoint startsWith (s p : jsstring) : bool :=
  match p, s with
  | [], _ => true
  | c :: p', d :: s' => bool_decide (c = d) && startsWith s' p'
  | _ :: _, [] => false
  end.

(** [String.prototype.indexOf]: the first position at which [p] occurs. *)
Fixpoint indexOf (s p : jsstring) : option nat :=
  if startsWith s p then Some 0
  else match s with
       | [] => None
       | _ :: s' => S <$> indexOf s' p
       end.

(** [String.prototype.replace] with a string pattern: the first occurrence
    only.  The replacement is taken literally, which is what JavaScript
    does for a replacement without [$]; the one replacement the plugin
    passes, [requireBytecodeLoaderStr], has none. *)
Definition replace (s pattern replacement : jsstring) : jsstring :=
  match indexOf s pattern with
  | None => s
  | Some i => take i s ++ replacement ++ drop (i + length pattern) s
  end.

(** ** Errors and results *)

Inductive error :=
  | SyntaxError (source : jsstring)
  | EndOutOfBounds
  | ZeroLengthRange
  | SplitEditedChunk
  | TypeError
  | SpawnError (code : N).

Inductive result (A : Type) :=
  | Ok (a : A)
  | Throw (e : error).
Arguments Ok {A} a.
Arguments Throw {A} e.

Definition rbind {A B} (r : result A) (f : A → result B) : result B :=
  match r with
  | Ok a => f a
  | Throw e => Throw e
  end.

Notation "x ←r e1 ; e2" := (rbind e1 (λ x, e2))
  (at level 20, e1 at level 100, e2 at level 200, right associativity,
   only parsing).

(** ** vite's [normalizePath]

    [normalizePath(id) = path.posix.normalize(isWindows ? slash(id) : id)].
    [path.posix.normalize] drops empty and [.] segments, resolves [..]
    against the segment before it, and keeps a leading and a trailing
    separator. *)

Definition slash (p : jsstring) : jsstring :=
  (λ c : N, if (c =? 92)%N then 47%N else c) <$> p.

(** The segments between separators; never the empty list. *)
Fixpoint segments (p : jsstring) : list jsstring :=
  match p with
  | [] => [[]]
  | c :: p' =>
      if (c =? 47)%N then [] :: segments p'
      else match segments p' with
           | seg :: segs => (c :: seg) :: segs
           | [] => [[c]]
           end
  end.

Definition dot : jsstring := [46%N].
Definition dotdot : jsstring := [46%N; 46%N].

(** One step of [normalizeString]; [res] holds the segments kept so far,
    last one first. *)
Definition normalize_step (allowAboveRoot : bool) (res : list jsstring)
    (seg : jsstring) : list jsstring :=
  if bool_decide (seg = []) || bool_decide (seg = dot) then res
  else if bool_decide (seg = dotdot) then
    match res with
    | top :: res' =>
        if bool_decide (top = dotdot)
        then (if allowAboveRoot then dotdot :: res else res)
        else res'
    | [] => if allowAboveRoot then [dotdot] else []
    end
  else seg :: res.

Definition normalizeString (p : jsstring) (allowAboveRoot : bool) : jsstring :=
  join [47%N] (rev (foldl (normalize_step allowAboveRoot) [] (segments p))).

Definition posix_normalize (p : jsstring) : jsstring :=
  match p with
  | [] => dot
  | c :: _ =>
      let isAbsolute := (c =? 47)%N in
      let trailingSeparator := bool_decide (last p = Some 47%N) in
      let p' := normalizeString p (negb isAbsolute) in
      match p' with
      | [] => if isAbsolute then [47%N]
              else if trailingSeparator then [46%N; 47%N] else dot
      | _ =>
          let p'' := if trailingSeparator then p' ++ [47%N] else p' in
          if isAbsolute then 47%N :: p'' else p''
      end
  end.

Definition normalizePath (isWindows : bool) (id : jsstring) : jsstring :=
  posix_normalize (if isWindows then slash id else id).

(** ** The compiler subprocess

    What the child process does is a sequence of events delivered to the
    listeners that [compileToBytecode] installs. *)

Inductive event :=
  | StdoutData (chunk : buffer)
  | StdoutError
  | StdoutEnd
  | StderrData (chunk : buffer)
  | StderrError
  | ProcMessage
  | ProcError (err : error)
  | ProcExit (status : Z).

Inductive promise (A : Type) :=
  | Pending
  | Resolved (a : A)
  | Rejected (e : error).
Arguments Pending {A}.
Arguments Resolved {A} a.
Arguments Rejected {A} e.

(** A promise settles once: later calls of [resolve] and [reject] are
    ignored. *)
Definition resolve {A} (p : promise A) (a : A) : promise A :=
  match p with Pending => Resolved a | _ => p end.
Definition reject {A} (p : promise A) (e : error) : promise A :=
  match p with Pending => Rejected e | _ => p end.

(** The state of one call: the local [data], the promise, and the number
    of lines written to the console. *)
Record compile_state := {
  cs_data : buffer;
  cs_promise : promise buffer;
  cs_console : nat
}.

Definition compile_init : compile_state :=
  {| cs_data := []; cs_promise := Pending; cs_console := 0 |}.

Definition on_event (st : compile_state) (ev : event) : compile_state :=
  match ev with
  | StdoutData chunk =>
      {| cs_data := cs_data st ++ chunk; cs_promise := cs_promise st;
         cs_console := cs_console st |}
  | StdoutEnd =>
      {| cs_data := cs_data st; cs_promise := resolve (cs_promise st) (cs_data st);
         cs_console := cs_console st |}
  | StdoutError | StderrData _ | StderrError | ProcMessage =>
      {| cs_data := cs_data st; cs_promise := cs_promise st;
         cs_console := S (cs_console st) |}
  | ProcError err =>
      {| cs_data := cs_data st; cs_promise := reject (cs_promise st) err;
         cs_console := S (cs_console st) |}
  | ProcExit _ =>
      {| cs_data := cs_data st; cs_promise := resolve (cs_promise st) (cs_data st);
         cs_console := cs_console st |}
  end.

Definition run_events (st : compile_state) (evs : list event) : compile_state :=
  foldl on_event st evs.

(** ** The host *)

(** A compiled pattern, tried at one position of a text: the length of
    the match that starts there, if there is one. *)
Definition matcher : Type := jsstring → nat → option nat.

Class Host := {
  (** [new RegExp(source, 'g')]; [None] when the source is not a pattern. *)
  RegExp_new : jsstring → option matcher;
  path_resolve : jsstring → jsstring → jsstring;
  path_dirname : jsstring → jsstring;
  path_basename : jsstring → jsstring;
  path_relative : jsstring → jsstring → jsstring;
  (** [os.platform() === 'win32']. *)
  isWindows : bool;
  (** [babel.transform(code, ...).code], which may be null. *)
  babel_transform : jsstring → option jsstring;
  (** The events of the compiler process fed with a source text. *)
  subprocess : jsstring → list event
}.

Definition compileToBytecode `{Host} (code : jsstring) : compile_state :=
  run_events compile_init (subprocess code).

(** ** Global matching

    [RegExp.prototype.exec] on a global pattern: the matcher is tried at
    [lastIndex], [lastIndex + 1], ... up to the end of the text.  The
    result is the index and the matched text; [lastIndex] becomes the end
    of the match, or 0 when there is none. *)

Fixpoint exec_scan (m : matcher) (str : jsstring) (n i : nat) : option (nat * nat) :=
  match n with
  | 0 => None
  | S n' =>
      match m str i with
      | Some len => Some (i, len)
      | None => exec_scan m str n' (S i)
      end
  end.

Definition RegExp_exec (m : matcher) (str : jsstring) (lastIndex : nat)
    : option (nat * jsstring) * nat :=
  match exec_scan m str (S (length str) - lastIndex) lastIndex with
  | Some (i, len) => (Some (i, take len (drop i str)), i + len)
  | None => (None, 0)
  end.

(** [String.prototype.match] with a global pattern: every match, from
    [lastIndex = 0]; after an empty match [lastIndex] advances by one.
    [fuel] bounds the positions still to be tried. *)
Fixpoint match_loop (m : matcher) (str : jsstring) (fuel lastIndex : nat)
    : list (nat * jsstring) :=
  match fuel with
  | 0 => []
  | S fuel' =>
      match RegExp_exec m str lastIndex with
      | (Some (i, txt), e) =>
          (i, txt) :: match_loop m str fuel' (if bool_decide (txt = []) then S e else e)
      | (None, _) => []
      end
  end.

Definition String_match (m : matcher) (str : jsstring) : list (nat * jsstring) :=
  match_loop m str (S (length str)) 0.

(** ** MagicString

    The text-edit structure of the [magic-string] package: the original
    text cut into chunks, each with its replacement content.  The chunks
    are kept in text order ([next] pointers); [intro] and [outro] stay
    empty under [overwrite] with [contentOnly] and are left out. *)

Record Chunk := {
  c_start : nat;
  c_end : nat;
  c_original : jsstring;
  c_content : jsstring;
  c_edited : bool
}.

Record MagicString := {
  ms_original : jsstring;
  ms_chunks : list Chunk
}.

Definition MagicString_new (str : jsstring) : MagicString :=
  {| ms_original := str;
     ms_chunks := [ {| c_start := 0; c_end := length str; c_original := str;
                       c_content := str; c_edited := false |} ] |}.

Definition byStart (index : nat) (cs : list Chunk) : bool :=
  existsb (λ c, c_start c =? index) cs.
Definition byEnd (index : nat) (cs : list Chunk) : bool :=
  existsb (λ c, c_end c =? index) cs.

Definition contains (c : Chunk) (index : nat) : bool :=
  (c_start c <? index) && (index <? c_end c).

Definition chunk_edit (content : jsstring) (c : Chunk) : Chunk :=
  {| c_start := c_start c; c_end := c_end c; c_original := c_original c;
     c_content := content; c_edited := true |}.

(** [Chunk.split]: the two halves of a chunk cut at [index]. *)
Definition chunk_split (c : Chunk) (index : nat) : Chunk * Chunk :=
  let sliceIndex := index - c_start c in
  let originalBefore := take sliceIndex (c_original c) in
  let originalAfter := drop sliceIndex (c_original c) in
  ({| c_start := c_start c; c_end := index; c_original := originalBefore;
      c_content := if c_edited c then [] else originalBefore;
      c_edited := c_edited c |},
   {| c_start := index; c_end := c_end c; c_original := originalAfter;
      c_content := if c_edited c then [] else originalAfter;
      c_edited := c_edited c |}).

(** [_splitChunk] on the chunk that contains [index]. *)
Fixpoint split_chunks (index : nat) (cs : list Chunk) : result (list Chunk) :=
  match cs with
  | [] => Ok []
  | c :: cs' =>
      if contains c index then
        if c_edited c && negb (length (c_content c) =? 0) then Throw SplitEditedChunk
        else let '(c1, c2) := chunk_split c index in Ok (c1 :: c2 :: cs')
      else
        cs'' ←r split_chunks index cs'; Ok (c :: cs'')
  end.

Definition _split (index : nat) (cs : list Chunk) : result (list Chunk) :=
  if byStart index cs || byEnd index cs then Ok cs else split_chunks index cs.

(** The walk from [first] to [last] in [update]: every chunk after
    [first], up to the one that ends at [end_], gets empty content. *)
Fixpoint blank_to (end_ : nat) (cs : list Chunk) : result (list Chunk) :=
  match cs with
  | [] => Throw TypeError
  | c :: cs' =>
      if c_end c =? end_ then Ok (chunk_edit [] c :: cs')
      else cs'' ←r blank_to end_ cs'; Ok (chunk_edit [] c :: cs'')
  end.

Fixpoint edit_range (start end_ : nat) (content : jsstring) (cs : list Chunk)
    : result (list Chunk) :=
  match cs with
  | [] => Throw TypeError
  | c :: cs' =>
      if c_start c =? start then
        if c_end c =? end_ then Ok (chunk_edit content c :: cs')
        else cs'' ←r blank_to end_ cs'; Ok (chunk_edit content c :: cs'')
      else
        cs'' ←r edit_range start end_ content cs'; Ok (c :: cs'')
  end.

(** [overwrite(start, end, content, { contentOnly: true })].  The plugin
    calls it with [start <= end] only; a range that starts at no chunk
    (which needs [end < start]) is reported as a [TypeError]. *)
Definition overwrite (start end_ : nat) (content : jsstring) (s : MagicString)
    : result MagicString :=
  if length (ms_original s) <? end_ then Throw EndOutOfBounds
  else if start =? end_ then Throw ZeroLengthRange
  else
    cs1 ←r _split start (ms_chunks s);
    cs2 ←r _split end_ cs1;
    cs3 ←r edit_range start end_ content cs2;
    Ok {| ms_original := ms_original s; ms_chunks := cs3 |}.

Definition toString (s : MagicString) : jsstring :=
  concat (c_content <$> ms_chunks s).

(** ** Reference rewriting (writeBundle, the [bytecodeRE] loop) *)

(** The source of [bytecodeRE]: every compiled chunk's file name in a
    group, joined by [|]. *)
Definition bytecodeRE_source (bytecodeChunks : list jsstring) : jsstring :=
  join (lit "|") ((λ chunk, lit "(" ++ chunk ++ lit ")") <$> bytecodeChunks).

(** The [while ((match = bytecodeRE.exec(_code)))] loop.  [None]: the
    loop did not end within [fuel] iterations. *)
Fixpoint rewrite_loop (m : matcher) (_code : jsstring) (fuel lastIndex : nat)
    (s : MagicString) : option (result MagicString) :=
  match fuel with
  | 0 => None
  | S fuel' =>
      match RegExp_exec m _code lastIndex with
      | (None, _) => Some (Ok s)
      | (Some (index, chunkName), lastIndex') =>
          match overwrite index (index + length chunkName) (chunkName ++ lit "c") s with
          | Throw e => Some (Throw e)
          | Ok s' => rewrite_loop m _code fuel' lastIndex' s'
          end
      end
  end.

(** Lines 227-238 of the source: the text of a chunk with its references
    to compiled chunks renamed. *)
Definition rewriteReferences (m : matcher) (_code : jsstring)
    : option (result jsstring) :=
  match String_match m _code with
  | [] => Some (Ok _code)
  | _ :: _ =>
      match rewrite_loop m _code (S (S (length _code))) 0 (MagicString_new _code) with
      | Some (Ok s) => Some (Ok (toString s))
      | Some (Throw e) => Some (Throw e)
      | None => None
      end
  end.

(** ** Dependency propagation (writeBundle, the [idsToHandle] loop) *)

Record ModuleInfo := {
  isExternal : bool;
  importers : list jsstring;
  dynamicImporters : list jsstring
}.

(** A JavaScript [Set] of strings: its elements in insertion order. *)
Definition Set_add (s : list jsstring) (x : jsstring) : list jsstring :=
  if bool_decide (x ∈ s) then s else s ++ [x].

Definition Set_new (l : list jsstring) : list jsstring := foldl Set_add [] l.

(** What one round of the loop adds for [moduleId]. *)
Definition expand (graph : gmap (list N) ModuleInfo) (idsToHandle : list jsstring)
    (moduleId : jsstring) : list jsstring :=
  match graph !! moduleId with
  | Some moduleInfo =>
      if isExternal moduleInfo then idsToHandle
      else foldl Set_add (foldl Set_add idsToHandle (importers moduleInfo))
             (dynamicImporters moduleInfo)
  | None => idsToHandle
  end.

(** [for (const moduleId of idsToHandle)]: the iterator is at position [i]
    of the set, which grows while it is iterated.  The result is
    [hasBytecodeMoudle] and the set as the loop leaves it; [None]: the
    loop did not end within [fuel] rounds. *)
Fixpoint propagate_loop (graph : gmap (list N) ModuleInfo)
    (bytecodeChunks : list jsstring) (fuel : nat) (idsToHandle : list jsstring)
    (i : nat) : option (bool * list jsstring) :=
  match fuel with
  | 0 => None
  | S fuel' =>
      match idsToHandle !! i with
      | None => Some (false, idsToHandle)
      | Some moduleId =>
          if includes bytecodeChunks moduleId then Some (true, idsToHandle)
          else propagate_loop graph bytecodeChunks fuel'
                 (expand graph idsToHandle moduleId) (S i)
      end
  end.

(** Every id the loop can ever put into the set. *)
Definition graph_ids (graph : gmap (list N) ModuleInfo) : list jsstring :=
  concat ((λ kv, importers kv.2 ++ dynamicImporters kv.2) <$> map_to_list graph).

(** The closure the loop computes, as the specification words it: the
    direct imports, and the importers and dynamic importers of every
    non-external module already in it. *)
Inductive frontier (graph : gmap (list N) ModuleInfo) (seeds : list jsstring)
    : jsstring → Prop :=
  | frontier_seed id : id ∈ seeds → frontier graph seeds id
  | frontier_importer id info importerId :
      frontier graph seeds id →
      graph !! id = Some info →
      isExternal info = false →
      importerId ∈ importers info ++ dynamicImporters info →
      frontier graph seeds importerId.

(** ** The plugin *)

Inductive ChunkAlias :=
  | AliasString (alias : jsstring)
  | AliasArray (aliases : list jsstring).

Record BytecodeOptions := {
  opt_chunkAlias : option ChunkAlias;
  opt_transformArrowFunctions : option bool;
  opt_removeBundleJS : option bool
}.

Record ResolvedConfig := {
  cfg_plugins : list jsstring;
  cfg_root : jsstring;
  cfg_outDir : jsstring;
  cfg_chunkSizeWarningLimit : nat
}.

(** The variables the hooks close over. *)
Record Plugin := {
  _chunkAlias : list jsstring;
  transformArrowFunctions : bool;
  removeBundleJS : bool;
  bytecodeChunks : list jsstring;
  config : option ResolvedConfig;
  useInRenderer : bool;
  bytecodeFiles : list (jsstring * nat)
}.

Definition isBytecodeChunk (p : Plugin) (chunkName : jsstring) : bool :=
  let transformAllChunks := bool_decide (length (_chunkAlias p) = 0) in
  transformAllChunks || existsb (λ alias, bool_decide (alias = chunkName)) (_chunkAlias p).

Definition NODE_ENV_ELECTRON_VITE : jsstring := lit "NODE_ENV_ELECTRON_VITE".

(** [bytecodePlugin(options)]; [env] is [process.env]. *)
Definition bytecodePlugin (env : gmap (list N) (list N)) (options : BytecodeOptions)
    : option Plugin :=
  if bool_decide (env !! NODE_ENV_ELECTRON_VITE = Some (lit "production")) then
    let chunkAlias := default (AliasArray []) (opt_chunkAlias options) in
    Some {| _chunkAlias := match chunkAlias with
                           | AliasArray l => l
                           | AliasString s => [s]
                           end;
            transformArrowFunctions := default true (opt_transformArrowFunctions options);
            removeBundleJS := default true (opt_removeBundleJS options);
            bytecodeChunks := [];
            config := None;
            useInRenderer := false;
            bytecodeFiles := [] |}
  else None.

Definition requireBytecodeLoaderStr : jsstring :=
  litq "`use strict`;" ++ [newline] ++ litq "require(`./bytecode-loader.js`);".

Inductive log :=
  | LogWarn (msg : jsstring)
  | LogSummary (compiled : nat)
  | LogFile (outDir name : jsstring) (size : nat) (overLimit : bool).

Definition with_chunks (p : Plugin) (l : list jsstring) : Plugin :=
  {| _chunkAlias := _chunkAlias p; transformArrowFunctions := transformArrowFunctions p;
     removeBundleJS := removeBundleJS p; bytecodeChunks := l; config := config p;
     useInRenderer := useInRenderer p; bytecodeFiles := bytecodeFiles p |}.

Definition with_files (p : Plugin) (l : list (jsstring * nat)) : Plugin :=
  {| _chunkAlias := _chunkAlias p; transformArrowFunctions := transformArrowFunctions p;
     removeBundleJS := removeBundleJS p; bytecodeChunks := bytecodeChunks p;
     config := config p; useInRenderer := useInRenderer p; bytecodeFiles := l |}.

Definition renderer_preset : jsstring := lit "vite:electron-renderer-preset-config".

Definition configResolved (p : Plugin) (resolvedConfig : ResolvedConfig)
    : Plugin * list log :=
  let inRenderer :=
    existsb (λ name, bool_decide (name = renderer_preset)) (cfg_plugins resolvedConfig) in
  ({| _chunkAlias := _chunkAlias p; transformArrowFunctions := transformArrowFunctions p;
      removeBundleJS := removeBundleJS p; bytecodeChunks := bytecodeChunks p;
      config := Some resolvedConfig; useInRenderer := inRenderer;
      bytecodeFiles := bytecodeFiles p |},
   if inRenderer then [LogWarn (lit "bytecodePlugin is not support renderers")] else []).

Inductive item_type := TypeChunk | TypeAsset.

Record RenderedChunk := {
  rc_type : item_type;
  rc_name : jsstring;
  rc_fileName : jsstring
}.

Record OutputChunk := {
  oc_code : jsstring;
  oc_isEntry : bool;
  oc_imports : list jsstring;
  oc_dynamicImports : list jsstring
}.

Inductive OutputItem :=
  | ItemChunk (chunk : OutputChunk)
  | ItemAsset.

Record EmittedFile := {
  ef_name : jsstring;
  ef_fileName : jsstring;
  ef_source : jsstring
}.

Inductive FsOp :=
  | WriteFile (file : jsstring) (data : jsstring)
  | WriteBuffer (file : jsstring) (data : buffer)
  | RenameFile (oldPath newPath : jsstring)
  | UnlinkFile (file : jsstring).

(** How the work on one chunk of the bundle ends. *)
Inductive chunk_outcome :=
  | Done (ops : list FsOp) (files : list (jsstring * nat))
  | Failed (e : error)
  | Stalled.

(** The lines of the runtime loader, as the plugin emits them. *)
Definition bytecodeModuleLoaderCode : list jsstring := [
  litq "`use strict`;";
  litq "const fs = require(`fs`);";
  litq "const path = require(`path`);";
  litq "const vm = require(`vm`);";
  litq "const v8 = require(`v8`);";
  litq "const Module = require(`module`);";
  litq "v8.setFlagsFromString(`--no-lazy`);";
  litq "v8.setFlagsFromString(`--no-flush-bytecode`);";
  litq "const FLAG_HASH_OFFSET = 12;";
  litq "const SOURCE_HASH_OFFSET = 8;";
  litq "let dummyBytecode;";
  litq "function setFlagHashHeader(bytecodeBuffer) {";
  litq "  if (!dummyBytecode) {";
  litq "    const script = new vm.Script(``, {";
  litq "      produceCachedData: true";
  litq "    });";
  litq "    dummyBytecode = script.createCachedData();";
  litq "  }";
  litq "  dummyBytecode.slice(FLAG_HASH_OFFSET, FLAG_HASH_OFFSET + 4).copy(bytecodeBuffer, FLAG_HASH_OFFSET);";
  litq "};";
  litq "function getSourceHashHeader(bytecodeBuffer) {";
  litq "  return bytecodeBuffer.slice(SOURCE_HASH_OFFSET, SOURCE_HASH_OFFSET + 4);";
  litq "};";
  litq "function buffer2Number(buffer) {";
  litq "  let ret = 0;";
  litq "  ret |= buffer[3] << 24;";
  litq "  ret |= buffer[2] << 16;";
  litq "  ret |= buffer[1] << 8;";
  litq "  ret |= buffer[0];";
  litq "  return ret;";
  litq "};";
  litq "Module._extensions[`.jsc`] = function (module, filename) {";
  litq "  const bytecodeBuffer = fs.readFileSync(filename);";
  litq "  if (!Buffer.isBuffer(bytecodeBuffer)) {";
  litq "    throw new Error(`BytecodeBuffer must be a buffer object.`);";
  litq "  }";
  litq "  setFlagHashHeader(bytecodeBuffer);";
  litq "  const length = buffer2Number(getSourceHashHeader(bytecodeBuffer));";
  litq "  let dummyCode = ``;";
  litq "  if (length > 1) {";
  litq "    dummyCode = `\`` + `\u200b`.repeat(length - 2) + `\``;";
  litq "  }";
  litq "  const script = new vm.Script(dummyCode, {";
  litq "    filename: filename,";
  litq "    lineOffset: 0,";
  litq "    displayErrors: true,";
  litq "    cachedData: bytecodeBuffer";
  litq "  });";
  litq "  if (script.cachedDataRejected) {";
  litq "    throw new Error(`Invalid or incompatible cached data (cachedDataRejected)`);";
  litq "  }";
  litq "  const require = function (id) {";
  litq "    return module.require(id);";
  litq "  };";
  litq "  require.resolve = function (request, options) {";
  litq "    return Module._resolveFilename(request, module, false, options);";
  litq "  };";
  litq "  if (process.mainModule) {";
  litq "    require.main = process.mainModule;";
  litq "  }";
  litq "  require.extensions = Module._extensions;";
  litq "  require.cache = Module._cache;";
  litq "  const compiledWrapper = script.runInThisContext({";
  litq "    filename: filename,";
  litq "    lineOffset: 0,";
  litq "    columnOffset: 0,";
  litq "    displayErrors: true";
  litq "  });";
  litq "  const dirname = path.dirname(filename);";
  litq "  const args = [module.exports, require, module, filename, dirname, process, global];";
  litq "  return compiledWrapper.apply(module.exports, args);";
  litq "};"
].

Section Hooks.
Context `{Host}.

Definition _transform (code : jsstring) : jsstring :=
  default [] (babel_transform code).

Definition renderChunk (p : Plugin) (code : jsstring) (chunk : RenderedChunk)
    : Plugin * option jsstring :=
  if useInRenderer p then (p, None)
  else if match rc_type chunk with
          | TypeChunk => isBytecodeChunk p (rc_name chunk)
          | TypeAsset => false
          end
  then
    let p' := with_chunks p (bytecodeChunks p ++ [rc_fileName chunk]) in
    if transformArrowFunctions p then (p', Some (_transform code)) else (p', None)
  else (p, None).

Definition generateBundle (p : Plugin) : list EmittedFile :=
  if negb (useInRenderer p) && negb (length (bytecodeChunks p) =? 0) then
    [ {| ef_name := lit "Bytecode Loader File";
         ef_fileName := lit "bytecode-loader.js";
         ef_source := join [newline] bytecodeModuleLoaderCode ++ [newline] |} ]
  else [].

Definition keepBundle (chunkFileName : jsstring) : FsOp :=
  RenameFile chunkFileName
    (path_resolve (path_dirname chunkFileName) (lit "_" ++ path_basename chunkFileName)).

(** The stub written in place of a compiled entry chunk (line 248). *)
Definition entry_stub (name : jsstring) : jsstring :=
  requireBytecodeLoaderStr ++ [newline] ++ litq "require(`./"
    ++ normalizePath isWindows (name ++ lit "c") ++ litq "`);" ++ [newline].

(** Lines 260-274: the code of an entry chunk that is not compiled
    itself, after the loader requirement has been propagated to it. *)
Definition propagate (p : Plugin) (graph : gmap (list N) ModuleInfo) (fuel : nat)
    (chunk : OutputChunk) (_code : jsstring) : option jsstring :=
  match propagate_loop graph (bytecodeChunks p) fuel
          (Set_new (oc_imports chunk ++ oc_dynamicImports chunk)) 0 with
  | None => None
  | Some (hasBytecodeMoudle, _) =>
      Some (if hasBytecodeMoudle : bool
            then replace _code (litq "`use strict`;") requireBytecodeLoaderStr
            else _code)
  end.

(** The body of [bundles.map(async name => ...)] for one name. *)
Definition processChunk (p : Plugin) (graph : gmap (list N) ModuleInfo)
    (outDir : jsstring) (bytecodeRE : matcher) (fuel : nat)
    (name : jsstring) (item : OutputItem) : option chunk_outcome :=
  match item with
  | ItemAsset => Some (Done [] [])
  | ItemChunk chunk =>
      match rewriteReferences bytecodeRE (oc_code chunk) with
      | None => None
      | Some (Throw e) => Some (Failed e)
      | Some (Ok _code) =>
          let chunkFileName := path_resolve outDir name in
          if includes (bytecodeChunks p) name then
            match cs_promise (compileToBytecode _code) with
            | Pending => Some Stalled
            | Rejected e => Some (Failed e)
            | Resolved bytecodeBuffer =>
                let bytecodeFileName := path_resolve outDir (name ++ lit "c") in
                Some (Done
                  (WriteBuffer bytecodeFileName bytecodeBuffer ::
                   (if oc_isEntry chunk then
                      (if removeBundleJS p then [] else [keepBundle chunkFileName])
                      ++ [WriteFile chunkFileName (entry_stub name)]
                    else if removeBundleJS p then [UnlinkFile chunkFileName]
                    else [keepBundle chunkFileName]))
                  [(name ++ lit "c", length bytecodeBuffer)])
            end
          else if oc_isEntry chunk then
            match propagate p graph fuel chunk _code with
            | None => None
            | Some _code' => Some (Done [WriteFile chunkFileName _code'] [])
            end
          else Some (Done [WriteFile chunkFileName _code] [])
      end
  end.

Definition outcome_ops (o : chunk_outcome) : list FsOp :=
  match o with Done ops _ => ops | _ => [] end.
Definition outcome_files (o : chunk_outcome) : list (jsstring * nat) :=
  match o with Done _ files => files | _ => [] end.

(** [writeBundle(options, output)]: the plugin afterwards, and how the
    work on each chunk ended, in the order of [Object.keys(output)].
    The chunks are worked on concurrently; the file operations of one
    chunk happen in the order listed, those of different chunks in no
    fixed order.  [None]: out of [fuel]. *)
Definition writeBundle (p : Plugin) (graph : gmap (list N) ModuleInfo)
    (outDir : jsstring) (output : list (jsstring * OutputItem)) (fuel : nat)
    : option (Plugin * result (list (jsstring * chunk_outcome))) :=
  if useInRenderer p || (length (bytecodeChunks p) =? 0) then Some (p, Ok [])
  else
    match RegExp_new (bytecodeRE_source (bytecodeChunks p)) with
    | None =>
        Some (with_files p [], Throw (SyntaxError (bytecodeRE_source (bytecodeChunks p))))
    | Some bytecodeRE =>
        outcomes ← mapM (λ kv : jsstring * OutputItem,
                           o ← processChunk p graph outDir bytecodeRE fuel kv.1 kv.2;
                           Some (kv.1, o)) output;
        Some (with_files p (concat ((λ no, outcome_files no.2) <$> outcomes)),
              Ok outcomes)
    end.

(** Every file operation of a write-bundle run. *)
Definition fs_ops (r : result (list (jsstring * chunk_outcome))) : list FsOp :=
  match r with
  | Ok outcomes => concat ((λ no, outcome_ops no.2) <$> outcomes)
  | Throw _ => []
  end.

Definition writeBundle_ops (p : Plugin) (graph : gmap (list N) ModuleInfo)
    (outDir : jsstring) (output : list (jsstring * OutputItem)) (fuel : nat)
    : option (list FsOp) :=
  r ← writeBundle p graph outDir output fuel; Some (fs_ops r.2).

Definition closeBundle (p : Plugin) : result (Plugin * list log) :=
  if useInRenderer p then Ok (p, [])
  else
    match config p with
    | None => Throw TypeError
    | Some cfg =>
        let chunkLimit := cfg_chunkSizeWarningLimit cfg in
        let outDir :=
          normalizePath isWindows
            (path_relative (cfg_root cfg)
               (path_resolve (cfg_root cfg) (cfg_outDir cfg))) ++ lit "/" in
        Ok (with_files p [],
            LogSummary (length (bytecodeFiles p)) ::
            ((λ file : jsstring * nat,
                LogFile outDir file.1 file.2 (chunkLimit * 1024 <? file.2))
             <$> bytecodeFiles p))
    end.
End Hooks.

(** ** The runtime loader *)

Module Loader.

Definition FLAG_HASH_OFFSET : nat := 12.
Definition SOURCE_HASH_OFFSET : nat := 8.

(** [Buffer.prototype.slice(start, end)]. *)
Definition slice (buf : buffer) (start end_ : nat) : buffer :=
  take (end_ - start) (drop start buf).

(** [source.copy(target, targetStart)]: as many bytes of [source] as
    fit into [target] from [targetStart] on. *)
Definition copy (source target : buffer) (targetStart : nat) : buffer :=
  if length target <=? targetStart then target
  else
    let nb := length source `min` (length target - targetStart) in
    take targetStart target ++ take nb source ++ drop (targetStart + nb) target.

(** [setFlagHashHeader]: [dummyBytecode] is the loader's variable of
    that name, [reference] the cached data that compiling the empty
    script yields.  The result is the variable and the buffer
    afterwards. *)
Definition setFlagHashHeader (reference : buffer) (dummyBytecode : option buffer)
    (bytecodeBuffer : buffer) : option buffer * buffer :=
  let dummy := match dummyBytecode with
               | Some d => d
               | None => reference
               end in
  (Some dummy,
   copy (slice dummy FLAG_HASH_OFFSET (FLAG_HASH_OFFSET + 4)) bytecodeBuffer
     FLAG_HASH_OFFSET).

Definition getSourceHashHeader (bytecodeBuffer : buffer) : buffer :=
  slice bytecodeBuffer SOURCE_HASH_OFFSET (SOURCE_HASH_OFFSET + 4).

(** [buffer[i]] as an operand of a bit operation; a missing element is
    [undefined], which counts as 0. *)
Definition at_ (buf : buffer) (i : nat) : Z :=
  match buf !! i with
  | Some b => Z.of_N (Byte.to_N b)
  | None => 0
  end.

(** 32-bit signed integers, as the bit operators of JavaScript see
    their operands and results. *)
Definition ToInt32 (z : Z) : Z := ((z + 2 ^ 31) mod 2 ^ 32 - 2 ^ 31)%Z.
Definition shl (a n : Z) : Z := ToInt32 (Z.shiftl (ToInt32 a) (n mod 32)).
Definition bor (a b : Z) : Z := ToInt32 (Z.lor (ToInt32 a) (ToInt32 b)).

Definition buffer2Number (buf : buffer) : Z :=
  let ret := 0%Z in
  let ret := bor ret (shl (at_ buf 3) 24) in
  let ret := bor ret (shl (at_ buf 2) 16) in
  let ret := bor ret (shl (at_ buf 1) 8) in
  let ret := bor ret (at_ buf 0) in
  ret.

(** [String.prototype.repeat], for a count that is not negative. *)
Definition repeat (s : jsstring) (count : Z) : jsstring :=
  concat (replicate (Z.to_nat count) s).

Definition zero_width_space : N := 8203%N.

Definition dummyCode (length : Z) : jsstring :=
  if (1 <? length)%Z
  then [34%N] ++ repeat [zero_width_space] (length - 2) ++ [34%N]
  else [].

(** The [.jsc] handler up to the construction of the script: the
    variable [dummyBytecode] and the buffer afterwards, and the
    placeholder source. *)
Definition load (reference : buffer) (dummyBytecode : option buffer)
    (bytecodeBuffer : buffer) : option buffer * buffer * jsstring :=
  let '(dummy, patched) := setFlagHashHeader reference dummyBytecode bytecodeBuffer in
  let length := buffer2Number (getSourceHashHeader patched) in
  (dummy, patched, dummyCode length).

End Loader.

(** ** A host to run the plugin on

    A small engine for the patterns that chunk file names usually are:
    literal characters, [.], groups, alternatives and the star.  Other
    syntax characters are not in this fragment; the engine refuses them. *)

Module Demo.

Inductive regex :=
  | REmpty
  | RChar (c : N)
  | RAny
  | RSeq (a b : regex)
  | RAlt (a b : regex)
  | RStar (a : regex).

Definition syntax_character (c : N) : bool :=
  bool_decide (c ∈ lit "^$\.*+?()[]{}|").

(** Disjunction, Alternative and Term of the pattern grammar.  A group
    captures, but the plugin reads the whole match only. *)
Fixpoint parse_disjunction (fuel : nat) (s : jsstring) : option (regex * jsstring) :=
  match fuel with
  | 0 => None
  | S fuel' =>
      '(a, rest) ← parse_alternative fuel' s;
      match rest with
      | 124%N :: rest' =>
          '(b, rest'') ← parse_disjunction fuel' rest';
          Some (RAlt a b, rest'')
      | _ => Some (a, rest)
      end
  end
with parse_alternative (fuel : nat) (s : jsstring) : option (regex * jsstring) :=
  match fuel with
  | 0 => None
  | S fuel' =>
      match s with
      | [] => Some (REmpty, [])
      | c :: _ =>
          if (c =? 41)%N || (c =? 124)%N then Some (REmpty, s)
          else
            '(t, rest) ← parse_term fuel' s;
            '(a, rest') ← parse_alternative fuel' rest;
            Some (RSeq t a, rest')
      end
  end
with parse_term (fuel : nat) (s : jsstring) : option (regex * jsstring) :=
  match fuel with
  | 0 => None
  | S fuel' =>
      '(a, rest) ← match s with
                   | [] => None
                   | c :: s' =>
                       if (c =? 40)%N then
                         '(r, rest) ← parse_disjunction fuel' s';
                         match rest with
                         | 41%N :: rest' => Some (r, rest')
                         | _ => None
                         end
                       else if (c =? 46)%N then Some (RAny, s')
                       else if syntax_character c then None
                       else Some (RChar c, s')
                   end;
      match rest with
      | 42%N :: rest' => Some (RStar a, rest')
      | _ => Some (a, rest)
      end
  end.

Definition line_terminator (c : N) : bool :=
  bool_decide (c ∈ [10%N; 13%N; 8232%N; 8233%N]).

(** The backtracking matcher: [k] is the rest of the pattern, applied
    to the position reached; the result is the end of the match. *)
Fixpoint rmatch (r : regex) (str : jsstring) (i : nat) (k : nat → option nat)
    : option nat :=
  match r with
  | REmpty => k i
  | RChar c =>
      match str !! i with
      | Some d => if bool_decide (c = d) then k (S i) else None
      | None => None
      end
  | RAny =>
      match str !! i with
      | Some d => if line_terminator d then None else k (S i)
      | None => None
      end
  | RSeq a b => rmatch a str i (λ j, rmatch b str j k)
  | RAlt a b =>
      match rmatch a str i k with
      | Some e => Some e
      | None => rmatch b str i k
      end
  | RStar a =>
      (fix iterate (n i : nat) : option nat :=
         match n with
         | 0 => k i
         | S n' =>
             match rmatch a str i (λ j, if j =? i then None else iterate n' j) with
             | Some e => Some e
             | None => k i
             end
         end) (length str) i
  end.

Definition regexp (source : jsstring) : option matcher :=
  match parse_disjunction (4 * length source + 4) source with
  | Some (r, []) => Some (λ str i, e ← rmatch r str i Some; Some (e - i))
  | _ => None
  end.

(** [node:path] for POSIX paths without a trailing separator, in a
    process whose working directory is [/app]. *)
Definition resolve_path (dir name : jsstring) : jsstring :=
  if startsWith name (lit "/") then posix_normalize name
  else if startsWith dir (lit "/") then posix_normalize (dir ++ lit "/" ++ name)
  else posix_normalize (lit "/app/" ++ dir ++ lit "/" ++ name).

Definition basename (file : jsstring) : jsstring :=
  default [] (last (segments file)).

Definition dirname (file : jsstring) : jsstring :=
  join (lit "/") (removelast (segments file)).

Definition relative_path (from to : jsstring) : jsstring :=
  if startsWith to (from ++ lit "/") then drop (S (length from)) to else to.

(** A compiler process that answers with the code units of its input
    as bytes, in two pieces, and exits with status 0. *)
Definition compiler_process (code : jsstring) : list event :=
  let bytes := (λ c : N, default x00 (Byte.of_N (c mod 256)%N)) <$> code in
  [StdoutData (take 4 bytes); StderrData []; StdoutData (drop 4 bytes);
   StdoutEnd; ProcExit 0].

Definition host : Host :=
  {| RegExp_new := regexp;
     path_resolve := resolve_path;
     path_dirname := dirname;
     path_basename := basename;
     path_relative := relative_path;
     isWindows := false;
     babel_transform := Some;
     subprocess := compiler_process |}.

End Demo.

(** * Specification-side definitions and example inputs *)

(** The alias set an options object configures. *)
Definition alias_set (options : BytecodeOptions) : list jsstring :=
  match opt_chunkAlias options with
  | None => []
  | Some (AliasString alias) => [alias]
  | Some (AliasArray aliases) => aliases
  end.

Definition production_env : gmap (list N) (list N) :=
  {[ NODE_ENV_ELECTRON_VITE := lit "production" ]}.

Definition index_options : BytecodeOptions :=
  {| opt_chunkAlias := Some (AliasString (lit "index"));
     opt_transformArrowFunctions := None; opt_removeBundleJS := None |}.

Definition index_plugin : Plugin :=
  {| _chunkAlias := [lit "index"]; transformArrowFunctions := true;
     removeBundleJS := true; bytecodeChunks := []; config := None;
     useInRenderer := false; bytecodeFiles := [] |}.


(** The events that call [resolve]. *)
Definition settles (ev : event) : bool :=
  match ev with
  | StdoutEnd | ProcExit _ => true
  | _ => false
  end.

(** The events before the first one that calls [resolve]. *)
Fixpoint until_settled (evs : list event) : list event :=
  match evs with
  | [] => []
  | ev :: evs' => if settles ev then [] else ev :: until_settled evs'
  end.

(** The bytes the process wrote to its output stream. *)
Definition stdout_bytes (evs : list event) : buffer :=
  concat (omap (λ ev, match ev with StdoutData chunk => Some chunk | _ => None end) evs).

Definition on_stderr (ev : event) : bool :=
  match ev with
  | StderrData _ | StderrError => true
  | _ => false
  end.

(** The value of a byte of a buffer; 0 past its end. *)
Definition byte_value (buf : buffer) (i : nat) : Z :=
  from_option (λ b, Z.of_N (Byte.to_N b)) 0%Z (buf !! i).

(** Four bytes from [offset] on, little-endian. *)
Definition uint32_le (buf : buffer) (offset : nat) : Z :=
  (byte_value buf offset + 256 * byte_value buf (offset + 1)
   + 65536 * byte_value buf (offset + 2) + 16777216 * byte_value buf (offset + 3))%Z.

(** The two's-complement reading of 32 bits. *)
Definition signed32 (u : Z) : Z :=
  if (u <? 2147483648)%Z then u else (u - 4294967296)%Z.

Definition renderer_config : ResolvedConfig :=
  {| cfg_plugins := [lit "vite:react"; renderer_preset]; cfg_root := lit "/app";
     cfg_outDir := lit "out/renderer"; cfg_chunkSizeWarningLimit := 500 |}.

Definition reference_data : buffer := [x01; x02; x03; x04; x05; x06; x07; x08;
  x09; x0a; x0b; x0c; xa1; xa2; xa3; xa4; x11; x12].

Definition artifact_data : buffer := [xc0; xde; x00; x01; x00; x00; x00; x00;
  x05; x00; x00; x00; xff; xfe; xfd; xfc; x21; x22; x23].

(** The entry stub as the specification prints it, with the chunk's file
    name in the place of [<name>]. *)
Definition stub_template (name : jsstring) : jsstring :=
  litq "`use strict`;" ++ [newline]
  ++ litq "require(`./bytecode-loader.js`);" ++ [newline]
  ++ litq "require(`./" ++ name ++ litq "c`);" ++ [newline].

(** A path segment that [path.posix.normalize] keeps as it is. *)
Definition clean_segment (seg : jsstring) : Prop :=
  seg ≠ [] ∧ seg ≠ dot ∧ seg ≠ dotdot.

(** A file name that is a normalised relative path already. *)
Definition normalised_name (windows : bool) (name : jsstring) : Prop :=
  Forall clean_segment (segments name) ∧ (windows = true → 92%N ∉ name).

Definition nested_name : jsstring := lit "chunks//main.js".

Definition nested_plugin : Plugin :=
  {| _chunkAlias := []; transformArrowFunctions := true; removeBundleJS := true;
     bytecodeChunks := [nested_name]; config := None; useInRenderer := false;
     bytecodeFiles := [] |}.

Definition main_entry : OutputChunk :=
  {| oc_code := litq "`use strict`;" ++ [newline] ++ lit "void 0;";
     oc_isEntry := true; oc_imports := []; oc_dynamicImports := [] |}.

Definition main_plugin : Plugin :=
  {| _chunkAlias := []; transformArrowFunctions := true; removeBundleJS := false;
     bytecodeChunks := [lit "main.js"]; config := None; useInRenderer := false;
     bytecodeFiles := [] |}.

Definition main_js_re : matcher :=
  default (λ _ _, None) (Demo.regexp (bytecodeRE_source [lit "main.js"])).

(** What [expand] adds for a module: its importers and dynamic
    importers, when it is in the graph and not external. *)
Definition reverse_edge (graph : gmap (list N) ModuleInfo)
    (moduleId importerId : jsstring) : Prop :=
  ∃ info, graph !! moduleId = Some info ∧ isExternal info = false
          ∧ importerId ∈ importers info ++ dynamicImporters info.

(** A module graph with a cycle: [a] is imported by [b] and, dynamically,
    by [c]; [b] is imported by [a]; [c] is external. *)
Definition cyclic_graph : gmap (list N) ModuleInfo :=
  {[ lit "a" := {| isExternal := false; importers := [lit "b"];
                   dynamicImporters := [lit "c"] |};
     lit "b" := {| isExternal := false; importers := [lit "a"; lit "b"];
                   dynamicImporters := [] |};
     lit "c" := {| isExternal := true; importers := [lit "main.js"];
                   dynamicImporters := [] |} ]}.

Definition app_entry : OutputChunk :=
  {| oc_code := litq "`use strict`;" ++ [newline] ++ lit "run();";
     oc_isEntry := true; oc_imports := [lit "a"]; oc_dynamicImports := [lit "a"; lit "d"] |}.

Definition c_plugin : Plugin :=
  {| _chunkAlias := []; transformArrowFunctions := true; removeBundleJS := true;
     bytecodeChunks := [lit "c"]; config := None; useInRenderer := false;
     bytecodeFiles := [] |}.

(** The matches of a global match that end at or before position [p]. *)
Definition matches_before (ms : list (nat * jsstring)) (p : nat) : nat :=
  length (List.filter (λ mt : nat * jsstring, mt.1 + length mt.2 <=? p) ms).

(** Matches as [exec] yields them one after the other from position [e]
    of [code]: each one a non-empty piece of the text, none starting
    before the previous one ends. *)
Fixpoint chain (code : jsstring) (e : nat) (ms : list (nat * jsstring)) : Prop :=
  match ms with
  | [] => True
  | (i, txt) :: ms' =>
      e ≤ i ∧ txt ≠ [] ∧ i + length txt ≤ length code
      ∧ take (length txt) (drop i code) = txt
      ∧ chain code (i + length txt) ms'
  end.

(** The text from position [e] on, with [c] put after every match. *)
Fixpoint rebuild (code : jsstring) (e : nat) (ms : list (nat * jsstring)) : jsstring :=
  match ms with
  | [] => drop e code
  | (i, txt) :: ms' =>
      take (i - e) (drop e code) ++ txt ++ lit "c" ++ rebuild code (i + length txt) ms'
  end.

(** The overwrites of the rewriting loop, for a list of matches. *)
Fixpoint apply_matches (ms : list (nat * jsstring)) (s : MagicString)
    : result MagicString :=
  match ms with
  | [] => Ok s
  | (i, txt) :: ms' =>
      s' ←r overwrite i (i + length txt) (txt ++ lit "c") s;
      apply_matches ms' s'
  end.

(** The untouched rest of the text, from [e] on, as a chunk. *)
Definition tail_chunk (code : jsstring) (e : nat) : Chunk :=
  {| c_start := e; c_end := length code; c_original := drop e code;
     c_content := drop e code; c_edited := false |}.

(** The untouched text between [e] and [i], as a chunk. *)
Definition piece (code : jsstring) (e i : nat) : Chunk :=
  {| c_start := e; c_end := i; c_original := take (i - e) (drop e code);
     c_content := take (i - e) (drop e code); c_edited := false |}.

(** A chunk that lies before position [e]. *)
Definition chunk_before (e : nat) (c : Chunk) : Prop :=
  c_start c < c_end c ∧ c_end c ≤ e.

Definition index_js_re : matcher :=
  default (λ _ _, None) (Demo.regexp (bytecodeRE_source [lit "index.js"; lit "ab"])).

Definition importing_code : jsstring :=
  lit "require('./index.js'); abindex_js".

(** The build of the specification's example: the alias [index]; the
    entry chunk [index.js] imports [utils.js]. *)
Definition main_config : ResolvedConfig :=
  {| cfg_plugins := [lit "vite:electron-main-preset-config"; lit "vite:bytecode"];
     cfg_root := lit "/app"; cfg_outDir := lit "out/main";
     cfg_chunkSizeWarningLimit := 500 |}.

Definition index_code : jsstring :=
  litq "`use strict`;" ++ [newline] ++ litq "const u = require(`./utils.js`);".

Definition utils_code : jsstring :=
  litq "`use strict`;" ++ [newline] ++ lit "exports.id = x => x;".

Definition index_rendered : RenderedChunk :=
  {| rc_type := TypeChunk; rc_name := lit "index"; rc_fileName := lit "index.js" |}.

Definition utils_rendered : RenderedChunk :=
  {| rc_type := TypeChunk; rc_name := lit "utils"; rc_fileName := lit "utils.js" |}.

Definition index_output : list (jsstring * OutputItem) :=
  [(lit "index.js",
    ItemChunk {| oc_code := index_code; oc_isEntry := true;
                 oc_imports := [lit "utils.js"]; oc_dynamicImports := [] |});
   (lit "utils.js",
    ItemChunk {| oc_code := utils_code; oc_isEntry := false;
                 oc_imports := []; oc_dynamicImports := [] |});
   (lit "bytecode-loader.js", ItemAsset)].

(** The plugin after the two chunks have been rendered. *)
Definition index_rendered_plugin : Plugin :=
  {| _chunkAlias := [lit "index"]; transformArrowFunctions := true;
     removeBundleJS := true; bytecodeChunks := [lit "index.js"];
     config := Some main_config; useInRenderer := false; bytecodeFiles := [] |}.

(** * The preset plugins and the commands

    [src/plugins/electron.ts] (the preset plugins for tsup, esbuild and
    vite), [src/build.ts] and [src/server.ts].  What they ask of the
    Electron installation, the project and [node:path] is the class
    [Electron]. *)

Record PackageData := {
  pkg_type : option jsstring
}.

Class Electron := {
  process_cwd : jsstring;
  (** [path.resolve(...paths)] and [path.isAbsolute]. *)
  path_resolve_all : list jsstring → jsstring;
  path_isAbsolute : jsstring → bool;
  fs_existsSync : jsstring → bool;
  (** [os.platform() === 'win32'], for [normalizePath]. *)
  on_windows : bool;
  builtinModules : list jsstring;
  getElectronNodeTarget : jsstring;
  getElectronChromeTarget : jsstring;
  getElectronMajorVersion : Z;
  supportESM : bool;
  (** [loadPackageData()], null when there is no package file. *)
  loadPackageData : option PackageData
}.

(** A string as a condition: the empty string is false. *)
Definition truthy (s : jsstring) : bool := negb (bool_decide (s = [])).

(** [a || b] on an optional string. *)
Definition or_else (a : option jsstring) (b : jsstring) : jsstring :=
  match a with
  | Some s => if truthy s then s else b
  | None => b
  end.

Record ElectronPluginOptions := {
  epo_root : option jsstring
}.

Inductive Format := Iife | Cjs | Esm.

(** [string | string[]]. *)
Inductive Target :=
  | TargetString (t : jsstring)
  | TargetArray (ts : list jsstring).

(** A target as a condition; [None] is undefined (or, in a vite
    configuration, false).  An array is true even when it is empty. *)
Definition target_truthy (t : option Target) : bool :=
  match t with
  | None => false
  | Some (TargetString s) => truthy s
  | Some (TargetArray _) => true
  end.

(** The options of esbuild that the preset plugins read and write. *)
Record EsbuildOptions := {
  eo_absWorkingDir : option jsstring;
  eo_target : option Target;
  eo_format : option Format;
  eo_bundle : option bool;
  eo_external : option (list jsstring);
  eo_inject : option (list jsstring);
  eo_jsx : option jsstring
}.

Definition cjs_shim_20_11 : jsstring := lit "electron-vite-tsup/cjs-shim-20_11.mjs".
Definition cjs_shim : jsstring := lit "electron-vite-tsup/cjs-shim.mjs".

(** [findInput] is called with the default scope only. *)
Definition renderer_scope : jsstring := lit "renderer".

Inductive renderer_log :=
  | WarnBase
  | WarnNoIndexHtml.

Inductive config_error :=
  | TargetRequired
  | TargetInvalid
  | InputRequired.

(** [rollupOptions.input]: [string | string[] | { [name]: string }]. *)
Inductive InputOption :=
  | InputString (file : jsstring)
  | InputArray (files : list jsstring)
  | InputObject (entries : list (jsstring * jsstring)).

Definition input_truthy (input : option InputOption) : bool :=
  match input with
  | None => false
  | Some (InputString s) => truthy s
  | Some _ => true
  end.

(** [string | string[]]. *)
Inductive EnvPrefix :=
  | PrefixString (p : jsstring)
  | PrefixArray (ps : list jsstring).

(** The user's vite configuration, as far as the preset reads it. *)
Record UserConfig := {
  uc_base : option jsstring;
  uc_mode : option jsstring;
  uc_root : option jsstring;
  uc_build_outDir : option jsstring;
  uc_envDir : option jsstring;
  uc_envPrefix : option EnvPrefix
}.

(** [buildConfig], which replaces the user's [build]. *)
Record BuildConfig := {
  bc_outDir : jsstring;
  bc_target : jsstring;
  bc_modulePreload_polyfill : bool;
  bc_input : jsstring;
  bc_reportCompressedSize : bool;
  bc_minify : bool;
  bc_emptyOutDir : bool
}.

(** The configuration as the hook leaves it. *)
Record PresetConfig := {
  pc_base : option jsstring;
  pc_mode : option jsstring;
  pc_root : jsstring;
  pc_build : BuildConfig;
  pc_envDir : jsstring;
  pc_envPrefix : EnvPrefix
}.

(** The resolved configuration, as far as the check reads it. *)
Record RendererResolved := {
  rr_base : jsstring;
  rr_target : option Target;
  rr_input : option InputOption
}.

Definition is_digit (c : N) : bool := (48 <=? c)%N && (c <=? 57)%N.

(** [/^es((202\d{1})|next)$/.test(t)]. *)
Definition es_target (t : jsstring) : bool :=
  match t with
  | 101%N :: 115%N :: rest =>
      bool_decide (rest = lit "next")
      || match rest with
         | [50%N; 48%N; 50%N; d] => is_digit d
         | _ => false
         end
  | _ => false
  end.

(** The test under [targets.some]: a target that is refused. *)
Definition bad_target (t : jsstring) : bool :=
  negb (startsWith t (lit "chrome")) && negb (es_target t).

(** [configResolved] of [vite:electron-renderer-resolved-config]: the
    warnings logged, and the error thrown if there is one. *)
Definition renderer_configResolved (config : RendererResolved)
    : list renderer_log * option config_error :=
  let warnings :=
    if negb (bool_decide (rr_base config = lit "./"))
       && negb (bool_decide (rr_base config = lit "/"))
    then [WarnBase] else [] in
  if negb (target_truthy (rr_target config)) then (warnings, Some TargetRequired)
  else
    let targets := match rr_target config with
                   | Some (TargetArray ts) => ts
                   | Some (TargetString t) => [t]
                   | None => []
                   end in
    if existsb bad_target targets then (warnings, Some TargetInvalid)
    else if negb (input_truthy (rr_input config))
    then (warnings ++ [WarnNoIndexHtml], Some InputRequired)
    else (warnings, None).

Section Presets.
Context `{Electron}.

(** [_options?.root || process.cwd()]. *)
Definition preset_root (_options : option ElectronPluginOptions) : jsstring :=
  or_else (_options ≫= epo_root) process_cwd.

Definition findInput (root : jsstring) : jsstring :=
  let rendererDir :=
    path_resolve_all [root; lit "src"; renderer_scope; lit "index.html"] in
  if fs_existsSync rendererDir then rendererDir else [].

(** The format taken from the package file. *)
Definition package_format : Format :=
  let pkg := default {| pkg_type := Some (lit "commonjs") |} loadPackageData in
  if bool_decide (pkg_type pkg = Some (lit "module")) && supportESM then Esm else Cjs.

Definition electron_externals : list jsstring :=
  lit "electron" :: flat_map (λ m, [m; lit "node:" ++ m]) builtinModules.

Definition electron_shim : jsstring :=
  if (30 <=? getElectronMajorVersion)%Z then cjs_shim_20_11 else cjs_shim.

(** [esbuildOptions] of [tsup:electron-main-preset-config]. *)
Definition main_esbuildOptions (_options : option ElectronPluginOptions)
    (options : EsbuildOptions) : EsbuildOptions :=
  let root := preset_root _options in
  let target := if target_truthy (eo_target options) then eo_target options
                else Some (TargetString getElectronNodeTarget) in
  let format := match eo_format options with
                | Some f => Some f
                | None => Some package_format
                end in
  let bundle := match eo_bundle options with
                | Some b => Some b
                | None => Some true
                end in
  let external := default [] (eo_external options) in
  let inject := default [] (eo_inject options) in
  {| eo_absWorkingDir := Some root;
     eo_target := target;
     eo_format := format;
     eo_bundle := bundle;
     eo_external := Some (external ++ electron_externals);
     eo_inject := Some (inject ++ [electron_shim]);
     eo_jsx := eo_jsx options |}.

(** [esbuildOptions] of [tsup:electron-preload-preset-config]. *)
Definition preload_esbuildOptions (_options : option ElectronPluginOptions)
    (options : EsbuildOptions) : EsbuildOptions :=
  let root := preset_root _options in
  let target := if target_truthy (eo_target options) then eo_target options
                else Some (TargetString getElectronNodeTarget) in
  let format := match eo_format options with
                | Some f => Some f
                | None => Some package_format
                end in
  let bundle := match eo_bundle options with
                | Some b => Some b
                | None => Some true
                end in
  let external := default [] (eo_external options) in
  {| eo_absWorkingDir := Some root;
     eo_target := target;
     eo_format := format;
     eo_bundle := bundle;
     eo_external := Some (external ++ electron_externals);
     eo_inject := match format with
                  | Some Esm => Some (default [] (eo_inject options) ++ [electron_shim])
                  | _ => eo_inject options
                  end;
     eo_jsx := eo_jsx options |}.

(** [esbuildOptions] of [tsup:electron-renderer-preset-config]. *)
Definition renderer_esbuildOptions (_options : option ElectronPluginOptions)
    (options : EsbuildOptions) : EsbuildOptions :=
  {| eo_absWorkingDir := Some (preset_root _options);
     eo_target := eo_target options;
     eo_format := eo_format options;
     eo_bundle := eo_bundle options;
     eo_external := eo_external options;
     eo_inject := eo_inject options;
     eo_jsx := match eo_jsx options with
               | Some j => Some j
               | None => Some (lit "automatic")
               end |}.

(** The local function [emptyOutDir] of the [config] hook. *)
Definition emptyOutDir (root : jsstring) (config : UserConfig) : bool :=
  match uc_build_outDir config with
  | Some outDir =>
      if truthy outDir then
        let outDir := if path_isAbsolute outDir then outDir
                      else path_resolve_all [root; outDir] in
        let resolvedRoot := normalizePath on_windows (path_resolve_all [root]) in
        startsWith (normalizePath on_windows outDir) (resolvedRoot ++ lit "/")
      else true
  | None => true
  end.

(** [config] of [vite:electron-renderer-preset-config]; [env] is
    [process.env]. *)
Definition renderer_config_hook (options : option ElectronPluginOptions)
    (env : gmap (list N) (list N)) (config : UserConfig) : PresetConfig :=
  let root := preset_root options in
  {| pc_base :=
       if bool_decide (uc_mode config = Some (lit "production"))
          || bool_decide (env !! NODE_ENV_ELECTRON_VITE = Some (lit "production"))
       then Some (lit "./") else uc_base config;
     pc_mode := uc_mode config;
     pc_root := or_else (uc_root config) (lit "./src/renderer");
     pc_build :=
       {| bc_outDir := path_resolve_all [root; lit "out"; lit "renderer"];
          bc_target := getElectronChromeTarget;
          bc_modulePreload_polyfill := false;
          bc_input := findInput root;
          bc_reportCompressedSize := false;
          bc_minify := false;
          bc_emptyOutDir := emptyOutDir root config |};
     pc_envDir := or_else (uc_envDir config) (path_resolve_all [root]);
     pc_envPrefix :=
       match uc_envPrefix config with
       | Some (PrefixString p) =>
           if truthy p then PrefixString p
           else PrefixArray [lit "RENDERER_VITE_"; lit "VITE_"]
       | Some (PrefixArray ps) => PrefixArray ps
       | None => PrefixArray [lit "RENDERER_VITE_"; lit "VITE_"]
       end |}.

End Presets.

(** ** [doBuild] (server.ts)

    What tsup does with the options it is given is a sequence of events:
    calls of [options.onSuccess], and the promise of [build(options)]
    being fulfilled or rejected. *)

Inductive tsup_event :=
  | OnSuccess
  | BuildFulfilled
  | BuildRejected (e : error).

Record doBuild_state := {
  firstBundle : bool;
  db_promise : promise unit;
  db_watchHook : nat;
  db_errorHook : list error
}.

Definition doBuild_init : doBuild_state :=
  {| firstBundle := true; db_promise := Pending; db_watchHook := 0; db_errorHook := [] |}.

(** [watch] is [options.watch] as a condition.  Without it [doBuild]
    installs no [onSuccess]. *)
Definition doBuild_event (watch : bool) (st : doBuild_state) (ev : tsup_event)
    : doBuild_state :=
  match ev with
  | OnSuccess =>
      if watch then
        if firstBundle st then
          {| firstBundle := false; db_promise := resolve (db_promise st) ();
             db_watchHook := db_watchHook st; db_errorHook := db_errorHook st |}
        else
          {| firstBundle := firstBundle st; db_promise := db_promise st;
             db_watchHook := S (db_watchHook st); db_errorHook := db_errorHook st |}
      else st
  | BuildFulfilled =>
      if watch then st
      else {| firstBundle := firstBundle st; db_promise := resolve (db_promise st) ();
              db_watchHook := db_watchHook st; db_errorHook := db_errorHook st |}
  | BuildRejected e =>
      {| firstBundle := firstBundle st; db_promise := db_promise st;
         db_watchHook := db_watchHook st; db_errorHook := db_errorHook st ++ [e] |}
  end.

Definition doBuild (watch : bool) (evs : list tsup_event) : doBuild_state :=
  foldl (doBuild_event watch) doBuild_init evs.

(** ** [build] (build.ts) and the first statement of [createServer] *)

(** [options.watch]: [boolean | string | (string | boolean)[]]. *)
Inductive WatchOption :=
  | WatchBool (b : bool)
  | WatchString (s : jsstring)
  | WatchArray (l : list (jsstring + bool)).

Definition watch_truthy (w : option WatchOption) : bool :=
  match w with
  | None => false
  | Some (WatchBool b) => b
  | Some (WatchString s) => truthy s
  | Some (WatchArray _) => true
  end.

Section Build.
(** The options of tsup other than [watch]. *)
Variable Other : Type.

Record TsupOptions := {
  to_watch : option WatchOption;
  to_other : Other
}.

(** [config.config] of the resolved configuration; the renderer entry
    has its tsup options under [build]. *)
Record ElectronViteConfig := {
  evc_main : option TsupOptions;
  evc_preload : option TsupOptions;
  evc_renderer : option (option TsupOptions)
}.

(** [if (c.watch) c.watch = undefined]. *)
Definition clear_watch (c : TsupOptions) : TsupOptions :=
  if watch_truthy (to_watch c)
  then {| to_watch := None; to_other := to_other c |}
  else c.

(** The configurations [build] has to hand to tsup, in this order. *)
Definition build_plan (config : option ElectronViteConfig) : list TsupOptions :=
  match config with
  | None => []
  | Some c =>
      match evc_main c with Some m => [clear_watch m] | None => [] end
      ++ match evc_preload c with Some p => [clear_watch p] | None => [] end
      ++ match evc_renderer c with
         | Some (Some r) => [clear_watch r]
         | _ => []
         end
  end.

(** The calls of [tsupBuild] one after the other; a call that fails
    ends the run with its error.  The result is the configurations
    built, and the error if there is one. *)
Fixpoint run_builds (tsupBuild : TsupOptions → option error) (plan : list TsupOptions)
    : list TsupOptions * option error :=
  match plan with
  | [] => ([], None)
  | c :: plan' =>
      match tsupBuild c with
      | Some e => ([c], Some e)
      | None => let '(built, r) := run_builds tsupBuild plan' in (c :: built, r)
      end
  end.

(** [build(inlineConfig)]: [process.env] afterwards, the calls of
    [tsupBuild], and the error that rejects the promise if there is one.
    [config] is what [resolveConfig] yields under that environment. *)
Definition build (env : gmap (list N) (list N))
    (resolveConfig : gmap (list N) (list N) → option ElectronViteConfig)
    (tsupBuild : TsupOptions → option error)
    : gmap (list N) (list N) * (list TsupOptions * option error) :=
  let env' := <[NODE_ENV_ELECTRON_VITE := lit "production"]> env in
  (env', run_builds tsupBuild (build_plan (resolveConfig env'))).
End Build.

Arguments to_watch {Other} _.
Arguments to_other {Other} _.
Arguments clear_watch {Other} _.
Arguments build_plan {Other} _.
Arguments run_builds {Other} _ _.
Arguments build {Other} _ _ _.

(** Line 13 of server.ts: [process.env] as [createServer] sets it before
    it resolves the configuration. *)
Definition createServer_env (env : gmap (list N) (list N)) : gmap (list N) (list N) :=
  <[NODE_ENV_ELECTRON_VITE := lit "development"]> env.

(** ** Example inputs for the presets and the commands *)

(** The chunks of a build passed through [renderChunk] one by one. *)
Definition render_all `{Host} (p : Plugin) (chunks : list (jsstring * RenderedChunk))
    : Plugin :=
  foldl (λ p cc, (renderChunk p cc.1 cc.2).1) p chunks.

(** A chunk that [renderChunk] selects. *)
Definition selected (p : Plugin) (chunk : RenderedChunk) : bool :=
  match rc_type chunk with
  | TypeChunk => isBytecodeChunk p (rc_name chunk)
  | TypeAsset => false
  end.

(** Electron 31 in a project of type [module] under [/app], where
    [/app/src/renderer/index.html] exists. *)
Definition demo_electron : Electron :=
  {| process_cwd := lit "/app";
     path_resolve_all := λ paths, Demo.resolve_path [] (join (lit "/") paths);
     path_isAbsolute := λ p, startsWith p (lit "/");
     fs_existsSync := λ p, bool_decide (p = lit "/app/src/renderer/index.html");
     on_windows := false;
     builtinModules := [lit "fs"; lit "path"];
     getElectronNodeTarget := lit "node20.14";
     getElectronChromeTarget := lit "chrome126";
     getElectronMajorVersion := 31;
     supportESM := true;
     loadPackageData := Some {| pkg_type := Some (lit "module") |} |}.

Definition empty_esbuild : EsbuildOptions :=
  {| eo_absWorkingDir := None; eo_target := None; eo_format := None;
     eo_bundle := None; eo_external := Some [lit "sqlite3"]; eo_inject := None;
     eo_jsx := None |}.

Definition empty_user_config : UserConfig :=
  {| uc_base := None; uc_mode := None; uc_root := None; uc_build_outDir := None;
     uc_envDir := None; uc_envPrefix := None |}.

(** An event that neither resolves nor rejects. *)
Definition quiet (ev : event) : Prop :=
  settles ev = false ∧ ∀ err, ev ≠ ProcError err.

(** A host whose compiler writes a diagnostic line and then fails. *)
Definition failing_host : Host :=
  {| RegExp_new := Demo.regexp;
     path_resolve := Demo.resolve_path;
     path_dirname := Demo.dirname;
     path_basename := Demo.basename;
     path_relative := Demo.relative_path;
     isWindows := false;
     babel_transform := Some;
     subprocess := λ _, [StderrData [x21]; ProcError (SpawnError 2); ProcExit 1] |}.


(** How the work on the chunks of the example build ends. *)
Definition index_outcomes : list (jsstring * chunk_outcome) :=
  [(lit "index.js",
    Done [WriteBuffer (lit "/app/out/main/index.jsc")
            (default x00 ∘ Byte.of_N <$> index_code);
          WriteFile (lit "/app/out/main/index.js") (stub_template (lit "index.js"))]
         [(lit "index.jsc", 46)]);
   (lit "utils.js", Done [WriteFile (lit "/app/out/main/utils.js") utils_code] []);
   (lit "bytecode-loader.js", Done [] [])].

(** A bytecode buffer whose source-hash field has its top bit set. *)
Definition module_artifact : buffer := [xc0; xde; x00; x01; x00; x00; x00; x00;
  x05; x00; x00; x80; xff; xfe; xfd; xfc; x21; x22; x23].

(** An entry in ES module format, without a strict-mode prologue, that
    imports the compiled chunk [c]. *)
Definition esm_entry : OutputChunk :=
  {| oc_code := lit "import './c';"; oc_isEntry := true;
     oc_imports := [lit "c"]; oc_dynamicImports := [] |}.

(** A resolved renderer configuration that kept what the preset set. *)
Definition resolved_demo : RendererResolved :=
  {| rr_base := lit "./";
     rr_target := Some (TargetString (lit "chrome126"));
     rr_input := Some (InputString (lit "/app/src/renderer/index.html")) |}.

(** The targets of a resolved configuration, as the check lists them. *)
Definition targets_of (t : option Target) : list jsstring :=
  match t with
  | Some (TargetArray ts) => ts
  | Some (TargetString t) => [t]
  | None => []
  end.

(** Counting the events of a run of tsup. *)
Definition is_success (ev : tsup_event) : bool :=
  match ev with OnSuccess => true | _ => false end.

Definition is_fulfilled (ev : tsup_event) : bool :=
  match ev with BuildFulfilled => true | _ => false end.

Definition rejections (evs : list tsup_event) : list error :=
  omap (λ ev, match ev with BuildRejected e => Some e | _ => None end) evs.

(** A renderer target that the check lets through, in words. *)
Definition supported_target (t : jsstring) : Prop :=
  startsWith t (lit "chrome") = true
  ∨ t = lit "esnext"
  ∨ ∃ d, is_digit d = true ∧ t = lit "es202" ++ [d].

(** A project with a main and a renderer part, both set to watch. *)
Definition watching_config : ElectronViteConfig nat :=
  {| evc_main := Some {| to_watch := Some (WatchBool true); to_other := 1 |};
     evc_preload := None;
     evc_renderer := Some (Some {| to_watch := Some (WatchArray []); to_other := 3 |}) |}.

(** A tsup whose renderer build fails. *)
Definition renderer_fails (c : TsupOptions nat) : option error :=
  if bool_decide (to_other c = 3) then Some TypeError else None.

(** ** [createServer] (server.ts)

    [createServer] runs from one [await] to the next; in between, and
    after it has returned, the watchers of tsup call the hooks it gave to
    [doBuild].  The model is a machine over what happens: the events of
    the two tsup runs, the dev server of vite being created, and its
    [listen()] having ended. *)

Inductive part := Main | Preload.

Inductive serve_action :=
  | CallDoBuild (p : part)
  | LogBuilt (p : part)
  | LogRebuilt (p : part)
  | LogSeparator
  | LogWaiting
  | RemoveAllListeners
  | KillElectron
  | StartElectron
  | LogRestart
  | LogReload
  | SendFullReload
  | LogError (e : error)
  | WarnSkipped
  | ViteCreateServer
  | ServerListen
  | SetRendererUrl (url : jsstring)
  | LogServerRunning (clear : bool)
  | PrintUrls
  | LogStart.

Inductive serve_error :=
  | HttpServerNotAvailable
  | ViteFailure (e : error).

(** Where [createServer] is: at one of its [await]s, or at its end with
    the error it threw if there is one. *)
Inductive stage :=
  | AwaitMain
  | AwaitPreload
  | AwaitVite
  | AwaitListen
  | Finished (r : option serve_error).

(** The dev server as [createServer] reads it: [host] is
    [resolveHostname(conf.host)], [port] the port as it prints. *)
Record ViteDevServer := {
  vs_httpServer : bool;
  vs_https : bool;
  vs_host : jsstring;
  vs_port : jsstring;
  vs_hasWarned : bool
}.

Inductive serve_event :=
  | MainEv (ev : tsup_event)
  | PreloadEv (ev : tsup_event)
  | ViteCreated (r : error + ViteDevServer)
  | Listened (r : option error).

(** The variables [ps] and [server] (whether they are defined), the two
    calls of [doBuild] once they are made, and what has been done. *)
Record serve_state := {
  ss_stage : stage;
  ss_main : option doBuild_state;
  ss_preload : option doBuild_state;
  ss_ps : bool;
  ss_server : option ViteDevServer;
  ss_trace : list serve_action
}.

Definition emit (acts : list serve_action) (st : serve_state) : serve_state :=
  {| ss_stage := ss_stage st; ss_main := ss_main st; ss_preload := ss_preload st;
     ss_ps := ss_ps st; ss_server := ss_server st; ss_trace := ss_trace st ++ acts |}.

Definition set_stage (s : stage) (st : serve_state) : serve_state :=
  {| ss_stage := s; ss_main := ss_main st; ss_preload := ss_preload st;
     ss_ps := ss_ps st; ss_server := ss_server st; ss_trace := ss_trace st |}.

Definition set_main (db : doBuild_state) (st : serve_state) : serve_state :=
  {| ss_stage := ss_stage st; ss_main := Some db; ss_preload := ss_preload st;
     ss_ps := ss_ps st; ss_server := ss_server st; ss_trace := ss_trace st |}.

Definition set_preload (db : doBuild_state) (st : serve_state) : serve_state :=
  {| ss_stage := ss_stage st; ss_main := ss_main st; ss_preload := Some db;
     ss_ps := ss_ps st; ss_server := ss_server st; ss_trace := ss_trace st |}.

Definition set_server (server : ViteDevServer) (st : serve_state) : serve_state :=
  {| ss_stage := ss_stage st; ss_main := ss_main st; ss_preload := ss_preload st;
     ss_ps := ss_ps st; ss_server := Some server; ss_trace := ss_trace st |}.

(** [ps = startElectron(...)]. *)
Definition startElectron (st : serve_state) : serve_state :=
  {| ss_stage := ss_stage st; ss_main := ss_main st; ss_preload := ss_preload st;
     ss_ps := true; ss_server := ss_server st;
     ss_trace := ss_trace st ++ [StartElectron] |}.

(** The hooks of lines 21-23, 27-40 and 50-58. *)
Definition errorHook (e : error) (st : serve_state) : serve_state :=
  emit [LogError e] st.

Definition main_watchHook (st : serve_state) : serve_state :=
  let st := emit [LogRebuilt Main] st in
  if ss_ps st
  then emit [LogRestart]
         (startElectron (emit [LogWaiting; RemoveAllListeners; KillElectron] st))
  else st.

Definition preload_watchHook (st : serve_state) : serve_state :=
  let st := emit [LogRebuilt Preload] st in
  match ss_server st with
  | Some _ => emit [LogReload; SendFullReload] st
  | None => st
  end.

Definition renderer_url (server : ViteDevServer) : jsstring :=
  (if vs_https server then lit "https:" else lit "http:")
  ++ lit "//" ++ vs_host server ++ lit ":" ++ vs_port server.

Definition is_pending {A} (p : promise A) : bool :=
  match p with Pending => true | _ => false end.

Section Serve.
Context {Other : Type}.
Variable config : ElectronViteConfig Other.
Variable rendererOnly : bool.

(** Lines 101-103. *)
Definition serve_finish (st : serve_state) : serve_state :=
  set_stage (Finished None) (emit [LogStart] (startElectron st)).

(** Lines 65-74. *)
Definition serve_renderer (st : serve_state) : serve_state :=
  let st := if rendererOnly then emit [WarnSkipped] st else st in
  match evc_renderer Other config with
  | Some _ => set_stage AwaitVite (emit [LogSeparator; ViteCreateServer] st)
  | None => serve_finish st
  end.

(** Lines 46-60, up to the [await]. *)
Definition serve_preload (st : serve_state) : serve_state :=
  match evc_preload Other config with
  | Some _ =>
      if rendererOnly then serve_renderer st
      else set_stage AwaitPreload
             (set_preload doBuild_init (emit [LogSeparator; CallDoBuild Preload] st))
  | None => serve_renderer st
  end.

(** Lines 25-42, up to the [await]. *)
Definition serve_main (st : serve_state) : serve_state :=
  match evc_main Other config with
  | Some _ =>
      if rendererOnly then serve_preload st
      else set_stage AwaitMain (set_main doBuild_init (emit [CallDoBuild Main] st))
  | None => serve_preload st
  end.

Definition serve_init : serve_state :=
  serve_main {| ss_stage := AwaitMain; ss_main := None; ss_preload := None;
                ss_ps := false; ss_server := None; ss_trace := [] |}.

(** One event of a tsup run: what [doBuild] does with it, the hook it
    calls, and [createServer] going on when the promise it awaits is
    resolved by it. *)
Definition tsup_step (p : part) (watch : bool) (db : doBuild_state) (ev : tsup_event)
    (st : serve_state) : serve_state :=
  let db' := doBuild_event watch db ev in
  let st := match p with Main => set_main db' st | Preload => set_preload db' st end in
  let st := match ev with
            | BuildRejected e => errorHook e st
            | _ => st
            end in
  let st := if db_watchHook db <? db_watchHook db'
            then match p with
                 | Main => main_watchHook st
                 | Preload => preload_watchHook st
                 end
            else st in
  if is_pending (db_promise db) && negb (is_pending (db_promise db'))
  then match p, ss_stage st with
       | Main, AwaitMain => serve_preload (emit [LogBuilt Main] st)
       | Preload, AwaitPreload => serve_renderer (emit [LogBuilt Preload] st)
       | _, _ => st
       end
  else st.

Definition serve_step (st : serve_state) (ev : serve_event) : serve_state :=
  match ev with
  | MainEv ev =>
      match ss_main st, evc_main Other config with
      | Some db, Some m => tsup_step Main (watch_truthy (to_watch m)) db ev st
      | _, _ => st
      end
  | PreloadEv ev =>
      match ss_preload st, evc_preload Other config with
      | Some db, Some p => tsup_step Preload (watch_truthy (to_watch p)) db ev st
      | _, _ => st
      end
  | ViteCreated r =>
      match ss_stage st with
      | AwaitVite =>
          match r with
          | inl e => set_stage (Finished (Some (ViteFailure e))) st
          | inr server =>
              let st := set_server server st in
              if negb (vs_httpServer server)
              then set_stage (Finished (Some HttpServerNotAvailable)) st
              else set_stage AwaitListen (emit [ServerListen] st)
          end
      | _ => st
      end
  | Listened r =>
      match ss_stage st, ss_server st with
      | AwaitListen, Some server =>
          match r with
          | Some e => set_stage (Finished (Some (ViteFailure e))) st
          | None =>
              serve_finish
                (emit [SetRendererUrl (renderer_url server);
                       LogServerRunning (negb (vs_hasWarned server) && negb rendererOnly);
                       PrintUrls] st)
          end
      | _, _ => st
      end
  end.

(** [createServer(inlineConfig, options)] after the events [evs], for a
    configuration that has a [config]. *)
Definition createServer (evs : list serve_event) : serve_state :=
  foldl serve_step serve_init evs.

End Serve.

Arguments serve_finish st : clear implicits.
Arguments createServer {Other} _ _ _.
Arguments serve_step {Other} _ _ _ _.
Arguments serve_init {Other} _ _.

(** How often an action occurs in a trace. *)
Definition occurrences (a : serve_action → bool) (trace : list serve_action) : nat :=
  length (List.filter a trace).

Definition is_start (a : serve_action) : bool :=
  match a with StartElectron => true | _ => false end.
Definition is_kill (a : serve_action) : bool :=
  match a with KillElectron => true | _ => false end.

(** A project with all three parts; the main part is built once, the
    preload part is watched. *)
Definition dev_config : ElectronViteConfig nat :=
  {| evc_main := Some {| to_watch := None; to_other := 1 |};
     evc_preload := Some {| to_watch := Some (WatchBool true); to_other := 2 |};
     evc_renderer := Some None |}.

Definition dev_server : ViteDevServer :=
  {| vs_httpServer := true; vs_https := false; vs_host := lit "localhost";
     vs_port := lit "5173"; vs_hasWarned := false |}.
(** * Properties *)

(** Settles one comparison on [nat] that the goal tests, from the
    arithmetic of the context. *)
Ltac nat_cmp :=
  match goal with
  | |- context [?a <? ?b] =>
      first [ replace (a <? b) with true by (symmetry; apply Nat.ltb_lt; lia)
            | replace (a <? b) with false by (symmetry; apply Nat.ltb_ge; lia) ]
  | |- context [?a <=? ?b] =>
      first [ replace (a <=? b) with true by (symmetry; apply Nat.leb_le; lia)
            | replace (a <=? b) with false by (symmetry; apply Nat.leb_gt; lia) ]
  | |- context [?a =? ?b] =>
      first [ replace (a =? b) with true by (symmetry; apply Nat.eqb_eq; lia)
            | replace (a =? b) with false by (symmetry; apply Nat.eqb_neq; lia) ]
  end.

(** ** The chunk selector *)

Lemma existsb_eq_elem_of (l : list jsstring) (x : jsstring) :
  existsb (λ y, bool_decide (y = x)) l = true ↔ x ∈ l.
Proof.
  induction l as [|y l IH]; simpl.
  - split; [discriminate | by intros ?%elem_of_nil].
  - rewrite orb_true_iff, IH, bool_decide_eq_true, elem_of_cons.
    split; intros [?|?]; subst; auto.
Qed.

Lemma isBytecodeChunk_spec (p : Plugin) (chunkName : jsstring) :
  isBytecodeChunk p chunkName = true ↔
  _chunkAlias p = [] ∨ chunkName ∈ _chunkAlias p.
Proof.
  unfold isBytecodeChunk.
  rewrite orb_true_iff, bool_decide_eq_true, existsb_eq_elem_of, length_zero_iff_nil.
  done.
Qed.

Lemma bytecodePlugin_alias env options p :
  bytecodePlugin env options = Some p → _chunkAlias p = alias_set options.
Proof.
  unfold bytecodePlugin, alias_set. case_bool_decide; [|done].
  intros [= <-]. simpl. by destruct (opt_chunkAlias options) as [[?|?]|].
Qed.

(** C4.  For the plugin that [bytecodePlugin] builds from any options, a
    chunk name is selected exactly when the configured alias set is empty
    or the name is one of the aliases. *)
Theorem chunk_selected_iff env options p (chunkName : jsstring) :
  bytecodePlugin env options = Some p →
  isBytecodeChunk p chunkName = true ↔
  alias_set options = [] ∨ chunkName ∈ alias_set options.
Proof.
  intros Hp. rewrite isBytecodeChunk_spec, (bytecodePlugin_alias _ _ _ Hp). done.
Qed.

Lemma chunk_selected_iff_witness :
  isBytecodeChunk index_plugin (lit "index") = true ↔
  alias_set index_options = [] ∨ lit "index" ∈ alias_set index_options.
Proof.
  apply (chunk_selected_iff production_env index_options index_plugin (lit "index")).
  reflexivity.
Defined.

(** ** The production guard *)

(** C9.  Whatever the options, [bytecodePlugin] returns null when
    [NODE_ENV_ELECTRON_VITE] is not exactly [production]. *)
Theorem bytecodePlugin_inert env options :
  env !! NODE_ENV_ELECTRON_VITE ≠ Some (lit "production") →
  bytecodePlugin env options = None.
Proof.
  intros Henv. unfold bytecodePlugin. by rewrite bool_decide_eq_false_2.
Qed.

Lemma bytecodePlugin_inert_witness :
  bytecodePlugin {[ NODE_ENV_ELECTRON_VITE := lit "development" ]} index_options = None.
Proof.
  apply bytecodePlugin_inert. vm_compute. discriminate.
Defined.

Lemma bytecodePlugin_production env options :
  env !! NODE_ENV_ELECTRON_VITE = Some (lit "production") →
  is_Some (bytecodePlugin env options).
Proof.
  intros Henv. unfold bytecodePlugin. rewrite bool_decide_eq_true_2; eauto.
Qed.

(** ** The compiler client *)

Lemma run_events_settled st evs :
  cs_promise st ≠ Pending → cs_promise (run_events st evs) = cs_promise st.
Proof.
  revert st. induction evs as [|ev evs IH]; intros st Hst; [done|].
  unfold run_events in *. simpl. rewrite IH.
  - destruct ev; simpl; try done; by destruct (cs_promise st).
  - destruct ev; simpl; try done; by destruct (cs_promise st).
Qed.

Lemma until_settled_app_settled evs ev rest :
  settles ev = true → until_settled (evs ++ ev :: rest) = until_settled evs.
Proof.
  intros Hev. induction evs as [|e evs IH]; simpl.
  - by rewrite Hev.
  - destruct (settles e); [done|]. by rewrite IH.
Qed.

Lemma run_events_pending evs : ∀ st,
  cs_promise st = Pending →
  (∀ err, ProcError err ∉ until_settled evs) →
  if existsb settles evs
  then cs_promise (run_events st evs) = Resolved (cs_data st ++ stdout_bytes (until_settled evs))
  else cs_promise (run_events st evs) = Pending
       ∧ cs_data (run_events st evs) = cs_data st ++ stdout_bytes evs.
Proof.
  induction evs as [|ev evs IH]; intros st Hst Herr.
  - simpl. unfold stdout_bytes. simpl. by rewrite app_nil_r.
  - change (run_events st (ev :: evs)) with (run_events (on_event st ev) evs).
    destruct (settles ev) eqn:Hev.
    + simpl. rewrite Hev. simpl.
      rewrite run_events_settled.
      * destruct ev; try discriminate; simpl; rewrite Hst; simpl;
          unfold stdout_bytes; simpl; by rewrite app_nil_r.
      * destruct ev; try discriminate; simpl; by rewrite Hst.
    + simpl in *. rewrite Hev in *. simpl.
      assert (Hnot : ∀ err, ev ≠ ProcError err).
      { intros err ->. apply (Herr err), list_elem_of_here. }
      assert (Hrest : ∀ err, ProcError err ∉ until_settled evs).
      { intros err Hin. apply (Herr err). by apply list_elem_of_further. }
      assert (Hpend : cs_promise (on_event st ev) = Pending).
      { destruct ev; try discriminate; simpl; try done. by destruct (Hnot err). }
      specialize (IH (on_event st ev) Hpend Hrest).
      assert (Hdata : cs_data (on_event st ev) ++ stdout_bytes (until_settled evs)
                      = cs_data st ++ stdout_bytes (ev :: until_settled evs)
                      ∧ cs_data (on_event st ev) ++ stdout_bytes evs
                      = cs_data st ++ stdout_bytes (ev :: evs)).
      { destruct ev; simpl; unfold stdout_bytes; simpl; by rewrite <- ?app_assoc. }
      destruct Hdata as [Hd1 Hd2].
      destruct (existsb settles evs).
      * by rewrite IH, Hd1.
      * destruct IH as [-> ->]. by rewrite Hd2.
Qed.

Lemma run_events_rejected evs : ∀ st err,
  cs_promise st = Pending →
  cs_promise (run_events st evs) = Rejected err →
  ProcError err ∈ until_settled evs.
Proof.
  induction evs as [|ev evs IH]; intros st err Hst Hrej.
  - simpl in Hrej. congruence.
  - change (run_events st (ev :: evs)) with (run_events (on_event st ev) evs) in Hrej.
    destruct (cs_promise (on_event st ev)) eqn:Hev.
    + assert (settles ev = false) as Hs.
      { destruct ev; simpl in *; try done; rewrite Hst in Hev; discriminate. }
      simpl. rewrite Hs. apply list_elem_of_further. by apply (IH _ _ Hev).
    + rewrite run_events_settled in Hrej by congruence. congruence.
    + rewrite run_events_settled in Hrej by congruence.
      assert (e = err) as -> by congruence.
      destruct ev; simpl in *; rewrite ?Hst in Hev; simpl in Hev; try discriminate.
      injection Hev as ->. apply list_elem_of_here.
Qed.

Lemma run_events_stderr evs : ∀ st1 st2,
  cs_data st1 = cs_data st2 → cs_promise st1 = cs_promise st2 →
  cs_data (run_events st1 (List.filter (λ ev, negb (on_stderr ev)) evs))
  = cs_data (run_events st2 evs)
  ∧ cs_promise (run_events st1 (List.filter (λ ev, negb (on_stderr ev)) evs))
  = cs_promise (run_events st2 evs).
Proof.
  induction evs as [|ev evs IH]; intros st1 st2 Hd Hp; [done|].
  change (run_events st2 (ev :: evs)) with (run_events (on_event st2 ev) evs).
  simpl. destruct (on_stderr ev) eqn:Hev; simpl.
  - apply IH; destruct ev; try discriminate; done.
  - change (run_events st1 (ev :: ?l)) with (run_events (on_event st1 ev) l).
    apply IH; destruct ev; simpl; congruence.
Qed.

(** C3.  For every source text: when the compiler process exits, with
    whatever status, and has reported no error before, the promise is
    resolved with the bytes read from its output stream up to the first
    of end-of-stream and exit; the promise is rejected only with an error
    event of the process that came before either; and the events of the
    diagnostic stream change neither the buffer nor the promise. *)
Theorem compileToBytecode_settles `{Host} (code : jsstring) :
  (∀ evs status rest,
     subprocess code = evs ++ ProcExit status :: rest →
     (∀ err, ProcError err ∉ evs) →
     cs_promise (compileToBytecode code) = Resolved (stdout_bytes (until_settled evs)))
  ∧ (∀ err, cs_promise (compileToBytecode code) = Rejected err →
       ProcError err ∈ until_settled (subprocess code))
  ∧ cs_promise (run_events compile_init
                  (List.filter (λ ev, negb (on_stderr ev)) (subprocess code)))
    = cs_promise (compileToBytecode code).
Proof.
  unfold compileToBytecode. split; [|split].
  - intros evs status rest -> Herr.
    pose proof (run_events_pending (evs ++ ProcExit status :: rest) compile_init eq_refl) as Hrun.
    rewrite until_settled_app_settled in Hrun by done.
    replace (existsb settles (evs ++ ProcExit status :: rest)) with true in Hrun.
    + apply Hrun. intros err Hin. apply (Herr err).
      clear -Hin. induction evs as [|e evs IH]; simpl in Hin.
      * by apply elem_of_nil in Hin.
      * destruct (settles e); [by apply elem_of_nil in Hin|].
        apply elem_of_cons in Hin as [->|Hin]; [apply list_elem_of_here|].
        apply list_elem_of_further; auto.
    + symmetry. rewrite existsb_app. simpl. apply orb_true_r.
  - intros err. by apply run_events_rejected.
  - by apply run_events_stderr.
Qed.

Lemma compileToBytecode_settles_witness :
  cs_promise (@compileToBytecode Demo.host (lit "void 0;"))
  = Resolved (stdout_bytes (until_settled
      [StdoutData [x76; x6f; x69; x64]; StderrData []; StdoutData [x20; x30; x3b];
       StdoutEnd])).
Proof.
  apply (proj1 (@compileToBytecode_settles Demo.host (lit "void 0;")) _ 0%Z []).
  - reflexivity.
  - intros err Hin. repeat (apply elem_of_cons in Hin as [Hin|Hin]; [discriminate|]).
    by apply elem_of_nil in Hin.
Defined.

(** A process that cannot be started: the first event is its error, and
    the promise is rejected with it. *)
Lemma compileToBytecode_spawn_failure `{Host} (code : jsstring) err rest :
  subprocess code = ProcError err :: rest →
  cs_promise (compileToBytecode code) = Rejected err.
Proof.
  unfold compileToBytecode. intros ->.
  change (run_events compile_init (ProcError err :: rest))
    with (run_events (on_event compile_init (ProcError err)) rest).
  by rewrite run_events_settled.
Qed.

(** ** The loader: the flag-hash patch *)

Lemma copy_length source target targetStart :
  length (Loader.copy source target targetStart) = length target.
Proof.
  unfold Loader.copy. destruct (length target <=? targetStart) eqn:Hle; [done|].
  apply Nat.leb_gt in Hle.
  rewrite !length_app, !length_take, length_drop. lia.
Qed.

Lemma copy_lookup_before source target targetStart i :
  i < targetStart → Loader.copy source target targetStart !! i = target !! i.
Proof.
  intros Hi. unfold Loader.copy.
  destruct (length target <=? targetStart) eqn:Hle; [done|].
  apply Nat.leb_gt in Hle.
  rewrite lookup_app_l by (rewrite length_take; lia).
  by rewrite lookup_take_lt.
Qed.

Lemma copy_lookup_after source target targetStart i :
  targetStart + length source ≤ i →
  Loader.copy source target targetStart !! i = target !! i.
Proof.
  intros Hi. unfold Loader.copy.
  destruct (length target <=? targetStart) eqn:Hle; [done|].
  apply Nat.leb_gt in Hle.
  set (nb := length source `min` (length target - targetStart)).
  assert (length (take targetStart target) = targetStart) as Hl1
    by (rewrite length_take; lia).
  assert (length (take nb source) = nb) as Hl2
    by (rewrite length_take; unfold nb; lia).
  rewrite lookup_app_r by lia. rewrite lookup_app_r by lia.
  rewrite lookup_drop, Hl1, Hl2. f_equal. unfold nb. lia.
Qed.

Lemma copy_lookup_inside source target targetStart i :
  targetStart ≤ i < targetStart + length source → i < length target →
  Loader.copy source target targetStart !! i = source !! (i - targetStart).
Proof.
  intros Hi Hlen. unfold Loader.copy.
  destruct (length target <=? targetStart) eqn:Hle.
  { apply Nat.leb_le in Hle. lia. }
  set (nb := length source `min` (length target - targetStart)).
  assert (length (take targetStart target) = targetStart) as Hl1
    by (rewrite length_take; lia).
  rewrite lookup_app_r by lia. rewrite Hl1.
  rewrite lookup_app_l by (rewrite length_take; unfold nb; lia).
  apply lookup_take_lt. unfold nb. lia.
Qed.

Lemma slice_lookup (buf : buffer) start end_ k :
  k < end_ - start → Loader.slice buf start end_ !! k = buf !! (start + k).
Proof.
  intros Hk. unfold Loader.slice. by rewrite lookup_take_lt, lookup_drop.
Qed.

Lemma slice_length (buf : buffer) start end_ :
  length (Loader.slice buf start end_) = (end_ - start) `min` (length buf - start).
Proof. unfold Loader.slice. by rewrite length_take, length_drop. Qed.

(** The patch leaves everything outside offsets 12..15 alone, whatever
    the two buffers are. *)
Lemma setFlagHashHeader_frame reference dummyBytecode (bytecodeBuffer : buffer) i :
  ¬ (12 ≤ i < 16) →
  (Loader.setFlagHashHeader reference dummyBytecode bytecodeBuffer).2 !! i
  = bytecodeBuffer !! i.
Proof.
  intros Hi. unfold Loader.setFlagHashHeader, Loader.FLAG_HASH_OFFSET. simpl.
  destruct (decide (i < 12)).
  - by apply copy_lookup_before.
  - apply copy_lookup_after. rewrite slice_length. lia.
Qed.

(** C6.  The loader's variable [dummyBytecode] is either not yet set or
    holds the reference compilation of the empty script.  For a buffer
    and a reference of at least 16 bytes, after [setFlagHashHeader] the
    variable holds the reference, the bytes of the buffer at offsets
    12..15 are those of the reference, every other byte of the buffer is
    as before, and so is its length. *)
Theorem setFlagHashHeader_patch reference dummyBytecode (bytecodeBuffer : buffer) :
  dummyBytecode = None ∨ dummyBytecode = Some reference →
  16 ≤ length reference →
  16 ≤ length bytecodeBuffer →
  (Loader.setFlagHashHeader reference dummyBytecode bytecodeBuffer).1 = Some reference
  ∧ length (Loader.setFlagHashHeader reference dummyBytecode bytecodeBuffer).2
    = length bytecodeBuffer
  ∧ (∀ i, 12 ≤ i < 16 →
       (Loader.setFlagHashHeader reference dummyBytecode bytecodeBuffer).2 !! i
       = reference !! i)
  ∧ (∀ i, ¬ (12 ≤ i < 16) →
       (Loader.setFlagHashHeader reference dummyBytecode bytecodeBuffer).2 !! i
       = bytecodeBuffer !! i).
Proof.
  intros Hdummy Href Hbuf. split; [|split; [|split]].
  - by destruct Hdummy as [-> | ->].
  - apply copy_length.
  - intros i Hi.
    assert ((Loader.setFlagHashHeader reference dummyBytecode bytecodeBuffer).2
            = Loader.copy (Loader.slice reference 12 16) bytecodeBuffer 12) as ->
      by (by destruct Hdummy as [-> | ->]).
    rewrite copy_lookup_inside by (rewrite ?slice_length; lia).
    rewrite slice_lookup by lia. f_equal. lia.
  - intros i Hi. by apply setFlagHashHeader_frame.
Qed.

Lemma setFlagHashHeader_patch_witness :
  (Loader.setFlagHashHeader reference_data None artifact_data).1 = Some reference_data
  ∧ length (Loader.setFlagHashHeader reference_data None artifact_data).2
    = length artifact_data
  ∧ (∀ i, 12 ≤ i < 16 →
       (Loader.setFlagHashHeader reference_data None artifact_data).2 !! i
       = reference_data !! i)
  ∧ (∀ i, ¬ (12 ≤ i < 16) →
       (Loader.setFlagHashHeader reference_data None artifact_data).2 !! i
       = artifact_data !! i).
Proof.
  apply (setFlagHashHeader_patch reference_data None artifact_data).
  - by left.
  - simpl. lia.
  - simpl. lia.
Defined.

(** ** The loader: the placeholder source *)

Section Int32.
Local Open Scope Z_scope.

Lemma ToInt32_mod z : Loader.ToInt32 z mod 2 ^ 32 = z mod 2 ^ 32.
Proof. unfold Loader.ToInt32. Z.div_mod_to_equations. lia. Qed.

Lemma ToInt32_congr a b : a mod 2 ^ 32 = b mod 2 ^ 32 → Loader.ToInt32 a = Loader.ToInt32 b.
Proof. unfold Loader.ToInt32. intros. Z.div_mod_to_equations. lia. Qed.

Lemma ToInt32_idemp a : Loader.ToInt32 (Loader.ToInt32 a) = Loader.ToInt32 a.
Proof. apply ToInt32_congr, ToInt32_mod. Qed.

Lemma ToInt32_signed32 u : 0 ≤ u < 2 ^ 32 → Loader.ToInt32 u = signed32 u.
Proof.
  intros Hu. unfold Loader.ToInt32, signed32.
  destruct (Z.ltb_spec u 2147483648); Z.div_mod_to_equations; lia.
Qed.

Lemma lor_mod a b n : 0 ≤ n → Z.lor a b mod 2 ^ n = Z.lor (a mod 2 ^ n) (b mod 2 ^ n).
Proof. intros. rewrite <- !Z.land_ones by done. apply Z.land_lor_distr_l. Qed.

Lemma ToInt32_lor_congr a a' b b' :
  Loader.ToInt32 a = Loader.ToInt32 a' → Loader.ToInt32 b = Loader.ToInt32 b' →
  Loader.ToInt32 (Z.lor a b) = Loader.ToInt32 (Z.lor a' b').
Proof.
  intros Ha Hb. apply ToInt32_congr. rewrite !lor_mod by lia.
  rewrite <- (ToInt32_mod a), <- (ToInt32_mod b), Ha, Hb, !ToInt32_mod. done.
Qed.

Lemma bor_ToInt32 a b : Loader.bor a b = Loader.ToInt32 (Z.lor a b).
Proof.
  unfold Loader.bor. apply ToInt32_lor_congr; apply ToInt32_idemp.
Qed.

Lemma shl_ToInt32 a n : 0 ≤ n < 32 → Loader.shl a n = Loader.ToInt32 (a * 2 ^ n).
Proof.
  intros Hn. unfold Loader.shl. rewrite (Z.mod_small n 32) by lia.
  rewrite Z.shiftl_mul_pow2 by lia. apply ToInt32_congr.
  rewrite Z.mul_mod, ToInt32_mod, <- Z.mul_mod by lia. done.
Qed.

Lemma land_disjoint a b n : 0 ≤ n → 0 ≤ a < 2 ^ n → Z.land a (b * 2 ^ n) = 0.
Proof.
  intros Hn Ha. apply Z.bits_inj'; intros i Hi. rewrite Z.land_spec, Z.bits_0.
  destruct (Z.lt_ge_cases i n).
  - rewrite Z.mul_pow2_bits_low by lia. apply andb_false_r.
  - destruct (Z.eq_dec a 0) as [->|]; [by rewrite Z.bits_0|].
    rewrite (Z.bits_above_log2 a i); [done|lia|].
    apply Z.lt_le_trans with n; [|done]. apply Z.log2_lt_pow2; lia.
Qed.

Lemma lor_add_disjoint a b n :
  0 ≤ n → 0 ≤ a < 2 ^ n → Z.lor a (b * 2 ^ n) = a + b * 2 ^ n.
Proof.
  intros Hn Ha. pose proof (land_disjoint a b n Hn Ha).
  rewrite <- Z.lxor_lor, <- Z.add_nocarry_lxor; done.
Qed.

Lemma at_range (buf : buffer) i : 0 ≤ Loader.at_ buf i < 256.
Proof.
  unfold Loader.at_. destruct (buf !! i) as [b|]; [|lia].
  pose proof (Byte.to_N_bounded b). lia.
Qed.

(** The shifts and ors of [buffer2Number] assemble the four bytes into
    a little-endian number, read as a signed one. *)
Lemma buffer2Number_le (buf : buffer) :
  Loader.buffer2Number buf
  = signed32 (Loader.at_ buf 0 + 256 * Loader.at_ buf 1
              + 65536 * Loader.at_ buf 2 + 16777216 * Loader.at_ buf 3).
Proof.
  unfold Loader.buffer2Number.
  pose proof (at_range buf 0). pose proof (at_range buf 1).
  pose proof (at_range buf 2). pose proof (at_range buf 3).
  rewrite <- ToInt32_signed32 by lia.
  rewrite !bor_ToInt32, !shl_ToInt32 by lia.
  trans (Loader.ToInt32 (Z.lor (Z.lor (Z.lor (Z.lor 0 (Loader.at_ buf 3 * 2 ^ 24))
           (Loader.at_ buf 2 * 2 ^ 16)) (Loader.at_ buf 1 * 2 ^ 8)) (Loader.at_ buf 0))).
  { repeat first [rewrite ToInt32_idemp | apply ToInt32_lor_congr]; reflexivity. }
  f_equal. rewrite Z.lor_0_l.
  assert (E24 : 2 ^ 24 = 16777216) by reflexivity.
  assert (E16 : 2 ^ 16 = 65536) by reflexivity.
  assert (E8 : 2 ^ 8 = 256) by reflexivity.
  rewrite (Z.lor_comm (Loader.at_ buf 3 * _)),
    (lor_add_disjoint _ (Loader.at_ buf 3) 24) by lia.
  replace (Loader.at_ buf 2 * 2 ^ 16 + Loader.at_ buf 3 * 2 ^ 24)
    with ((Loader.at_ buf 2 + Loader.at_ buf 3 * 256) * 2 ^ 16) by lia.
  rewrite (Z.lor_comm _ (Loader.at_ buf 1 * _)),
    (lor_add_disjoint (Loader.at_ buf 1 * _) _ 16) by lia.
  replace (Loader.at_ buf 1 * 2 ^ 8 + (Loader.at_ buf 2 + Loader.at_ buf 3 * 256) * 2 ^ 16)
    with ((Loader.at_ buf 1 + (Loader.at_ buf 2 + Loader.at_ buf 3 * 256) * 256) * 2 ^ 8)
    by lia.
  rewrite Z.lor_comm, lor_add_disjoint by lia. lia.
Qed.
End Int32.

Lemma source_hash_at reference dummyBytecode (bytecodeBuffer : buffer) k :
  k < 4 →
  Loader.at_ (Loader.getSourceHashHeader
                (Loader.setFlagHashHeader reference dummyBytecode bytecodeBuffer).2) k
  = byte_value bytecodeBuffer (8 + k).
Proof.
  intros Hk. unfold Loader.at_, byte_value, Loader.getSourceHashHeader,
    Loader.SOURCE_HASH_OFFSET.
  rewrite slice_lookup by lia.
  rewrite setFlagHashHeader_frame by lia.
  by destruct (bytecodeBuffer !! (8 + k)).
Qed.

Lemma dummyCode_length (L : Z) :
  Z.of_nat (length (Loader.dummyCode L)) = (if (1 <? L)%Z then L else 0)%Z.
Proof.
  unfold Loader.dummyCode, Loader.repeat. destruct (Z.ltb_spec 1 L); [|done].
  rewrite !length_app, length_concat. simpl.
  replace (list_sum _) with (Z.to_nat (L - 2)); [lia|].
  generalize (Z.to_nat (L - 2)). intros n. induction n as [|n IH]; simpl; [done|].
  by rewrite <- IH.
Qed.

(** C7.  For every buffer the loader is given: the number it reads from
    the buffer it has patched is the little-endian integer (32 bits,
    two's complement) in bytes 8..11 of the buffer as it was; and the
    placeholder it builds from that number [L] is a double quote, [L - 2]
    zero-width spaces and a double quote, [L] code units in all, when
    [1 < L], and the empty string otherwise. *)
Theorem placeholder_length reference dummyBytecode (bytecodeBuffer : buffer) :
  let L := signed32 (uint32_le bytecodeBuffer 8) in
  let patched := (Loader.load reference dummyBytecode bytecodeBuffer).1.2 in
  let code := (Loader.load reference dummyBytecode bytecodeBuffer).2 in
  Loader.buffer2Number (Loader.getSourceHashHeader patched) = L
  ∧ code = (if (1 <? L)%Z
            then [34%N] ++ replicate (Z.to_nat (L - 2)) Loader.zero_width_space ++ [34%N]
            else [])
  ∧ Z.of_nat (length code) = (if (1 <? L)%Z then L else 0)%Z.
Proof.
  intros L patched code.
  assert (HL : Loader.buffer2Number (Loader.getSourceHashHeader
                 (Loader.setFlagHashHeader reference dummyBytecode bytecodeBuffer).2) = L).
  { rewrite buffer2Number_le, !source_hash_at by lia. reflexivity. }
  assert (Hcode : code = Loader.dummyCode L).
  { unfold code, Loader.load.
    destruct (Loader.setFlagHashHeader reference dummyBytecode bytecodeBuffer)
      as [d p] eqn:Hset.
    simpl in *. by rewrite HL. }
  split; [|split].
  - unfold patched, Loader.load.
    destruct (Loader.setFlagHashHeader reference dummyBytecode bytecodeBuffer)
      as [d p] eqn:Hset. exact HL.
  - rewrite Hcode. unfold Loader.dummyCode, Loader.repeat.
    destruct (1 <? L)%Z; [|done]. do 2 f_equal.
    generalize (Z.to_nat (L - 2)). intros n. induction n as [|n IH]; simpl; [done|].
    by rewrite IH.
  - rewrite Hcode. apply dummyCode_length.
Qed.

(** ** Renderer builds *)

Lemma configResolved_renderer (p : Plugin) (resolvedConfig : ResolvedConfig) :
  renderer_preset ∈ cfg_plugins resolvedConfig →
  useInRenderer (configResolved p resolvedConfig).1 = true.
Proof.
  intros Hin. unfold configResolved. simpl. by apply existsb_eq_elem_of.
Qed.

(** C8.  When the resolved configuration has the renderer preset among
    its plugins, config resolution logs exactly one warning, and with the
    plugin as it is afterwards every hook leaves the bundle alone:
    [renderChunk] returns null for every chunk, [generateBundle] emits
    nothing, [writeBundle] works on no chunk and does no file operation,
    [closeBundle] logs nothing, and none of them changes the plugin's
    state. *)
Theorem renderer_hooks_inert `{Host} (p0 : Plugin) (resolvedConfig : ResolvedConfig) :
  renderer_preset ∈ cfg_plugins resolvedConfig →
  let p := (configResolved p0 resolvedConfig).1 in
  (configResolved p0 resolvedConfig).2
    = [LogWarn (lit "bytecodePlugin is not support renderers")]
  ∧ (∀ code chunk, renderChunk p code chunk = (p, None))
  ∧ generateBundle p = []
  ∧ (∀ graph outDir output fuel,
       writeBundle p graph outDir output fuel = Some (p, Ok [])
       ∧ writeBundle_ops p graph outDir output fuel = Some [])
  ∧ closeBundle p = Ok (p, []).
Proof.
  intros Hin p.
  pose proof (configResolved_renderer p0 resolvedConfig Hin) as Huse.
  fold p in Huse. split; [|split; [|split; [|split]]].
  - unfold configResolved. simpl.
    by rewrite (proj2 (existsb_eq_elem_of _ _) Hin).
  - intros code chunk. unfold renderChunk. by rewrite Huse.
  - unfold generateBundle. by rewrite Huse.
  - intros graph outDir output fuel. unfold writeBundle_ops, writeBundle.
    by rewrite Huse.
  - unfold closeBundle. by rewrite Huse.
Qed.

Lemma renderer_hooks_inert_witness :
  let p := (configResolved index_plugin renderer_config).1 in
  (configResolved index_plugin renderer_config).2
    = [LogWarn (lit "bytecodePlugin is not support renderers")]
  ∧ (∀ code chunk, @renderChunk Demo.host p code chunk = (p, None))
  ∧ @generateBundle p = []
  ∧ (∀ graph outDir output fuel,
       @writeBundle Demo.host p graph outDir output fuel = Some (p, Ok [])
       ∧ @writeBundle_ops Demo.host p graph outDir output fuel = Some [])
  ∧ @closeBundle Demo.host p = Ok (p, []).
Proof.
  apply (@renderer_hooks_inert Demo.host index_plugin renderer_config).
  vm_compute. apply list_elem_of_further, list_elem_of_here.
Defined.

(** ** The entry stub *)

Lemma segments_cons_inv (p : jsstring) : ∃ seg segs, segments p = seg :: segs.
Proof.
  induction p as [|c p (seg & segs & IH)]; simpl; [by eauto|].
  destruct (c =? 47)%N; [by eauto|]. rewrite IH. by eauto.
Qed.

Lemma join_cons (sep p : jsstring) (q : jsstring) (ps : list jsstring) :
  join sep (p :: q :: ps) = p ++ sep ++ join sep (q :: ps).
Proof. done. Qed.

Lemma join_segments (p : jsstring) : join [47%N] (segments p) = p.
Proof.
  induction p as [|c p IH]; [done|]. simpl.
  destruct (segments_cons_inv p) as (seg & segs & Hp). rewrite Hp in *.
  destruct (c =? 47)%N eqn:Hc.
  - apply N.eqb_eq in Hc as ->. rewrite join_cons, IH. done.
  - destruct segs as [|seg' segs].
    + simpl in *. by rewrite IH.
    + rewrite join_cons in *. by rewrite <- IH.
Qed.

Lemma normalize_step_clean allowAboveRoot res seg :
  clean_segment seg → normalize_step allowAboveRoot res seg = seg :: res.
Proof.
  intros (H1 & H2 & H3). unfold normalize_step.
  by rewrite !bool_decide_eq_false_2.
Qed.

Lemma normalize_fold_clean allowAboveRoot segs : ∀ res,
  Forall clean_segment segs →
  foldl (normalize_step allowAboveRoot) res segs = rev segs ++ res.
Proof.
  induction segs as [|seg segs IH]; intros res Hclean; [done|].
  apply Forall_cons in Hclean as [Hseg Hsegs]. simpl.
  rewrite normalize_step_clean, IH by done. by rewrite <- app_assoc.
Qed.

Lemma segments_nonempty_text (c : N) (p : jsstring) : segments (c :: p) ≠ [[]].
Proof.
  simpl. destruct (segments_cons_inv p) as (seg & segs & ->).
  by destruct (c =? 47)%N.
Qed.

Lemma segments_trailing (p : jsstring) :
  last p = Some 47%N → last (segments p) = Some [].
Proof.
  induction p as [|c p IH]; [done|]. intros Hlast.
  destruct p as [|d p].
  - simpl in *. injection Hlast as ->. done.
  - change (last (c :: d :: p)) with (last (d :: p)) in Hlast.
    specialize (IH Hlast).
    pose proof (segments_nonempty_text d p) as Hne.
    change (segments (c :: d :: p))
      with (if (c =? 47)%N then [] :: segments (d :: p)
            else match segments (d :: p) with
                 | seg :: segs => (c :: seg) :: segs
                 | [] => [[c]]
                 end).
    destruct (segments (d :: p)) as [|seg [|seg' segs]]; [done| |].
    + simpl in IH. injection IH as ->. done.
    + by destruct (c =? 47)%N.
Qed.

(** [path.posix.normalize] is the identity on a path whose segments are
    all clean. *)
Lemma posix_normalize_clean (p : jsstring) :
  Forall clean_segment (segments p) → posix_normalize p = p.
Proof.
  intros Hclean. destruct p as [|c p]; [by inversion Hclean as [|?? []]|].
  assert (Hnorm : ∀ a, normalizeString (c :: p) a = c :: p).
  { intros a. unfold normalizeString.
    rewrite normalize_fold_clean, app_nil_r, rev_involutive by done.
    apply join_segments. }
  assert (Habs : (c =? 47)%N = false).
  { destruct (N.eqb_spec c 47) as [->|]; [|done].
    simpl in Hclean. by inversion Hclean as [|?? []]. }
  assert (Htrail : bool_decide (last (c :: p) = Some 47%N) = false).
  { apply bool_decide_eq_false_2. intros Hlast%segments_trailing.
    apply last_Some in Hlast as [segs Hsegs]. rewrite Hsegs in Hclean.
    apply Forall_app in Hclean as [_ Hlast]. by inversion Hlast as [|?? []]. }
  unfold posix_normalize. rewrite Hnorm, Habs, Htrail. done.
Qed.

Lemma segments_snoc (p : jsstring) (c : N) :
  (c =? 47)%N = false →
  ∃ init seg, segments p = init ++ [seg] ∧ segments (p ++ [c]) = init ++ [seg ++ [c]].
Proof.
  intros Hc. induction p as [|d p (init & seg & Hp & Hpc)].
  - exists [], []. simpl. by rewrite Hc.
  - simpl. rewrite Hp, Hpc. destruct (d =? 47)%N.
    + by exists ([] :: init), seg.
    + destruct init as [|seg0 init]; simpl.
      * by exists [], (d :: seg).
      * by exists ((d :: seg0) :: init), seg.
Qed.

Lemma clean_segment_snoc (seg : jsstring) : clean_segment (seg ++ lit "c").
Proof.
  unfold clean_segment, dot, dotdot. change (lit "c") with [99%N].
  destruct seg as [|a [|b [|c seg]]]; simpl; repeat split; by intros [=].
Qed.

Lemma slash_id (p : jsstring) : 92%N ∉ p → slash p = p.
Proof.
  induction p as [|c p IH]; [done|].
  intros [Hc Hp]%not_elem_of_cons. unfold slash in *. rewrite fmap_cons, IH by done.
  destruct (N.eqb_spec c 92); [congruence|done].
Qed.

Lemma normalizePath_normalised windows (name : jsstring) :
  normalised_name windows name →
  normalizePath windows (name ++ lit "c") = name ++ lit "c".
Proof.
  intros [Hclean Hwin]. unfold normalizePath.
  assert ((if windows then slash (name ++ lit "c") else name ++ lit "c")
          = name ++ lit "c") as ->.
  { destruct windows; [|done]. apply slash_id.
    rewrite elem_of_app. intros [?|Hc]; [by apply Hwin|].
    apply list_elem_of_singleton in Hc. discriminate. }
  apply posix_normalize_clean.
  destruct (segments_snoc name 99%N eq_refl) as (init & seg & Hn & Hnc).
  change [99%N] with (lit "c") in Hnc. rewrite Hnc.
  rewrite Hn in Hclean. apply Forall_app in Hclean as [Hinit _].
  apply Forall_app. split; [done|].
  apply Forall_cons. split; [apply clean_segment_snoc|done].
Qed.

Lemma entry_stub_unfold `{Host} (name : jsstring) :
  entry_stub name
  = litq "`use strict`;" ++ [newline]
    ++ litq "require(`./bytecode-loader.js`);" ++ [newline]
    ++ litq "require(`./" ++ normalizePath isWindows (name ++ lit "c")
    ++ litq "`);" ++ [newline].
Proof.
  unfold entry_stub, requireBytecodeLoaderStr. by rewrite <- !app_assoc.
Qed.

Lemma stub_template_unfold (name : jsstring) :
  stub_template name
  = litq "`use strict`;" ++ [newline]
    ++ litq "require(`./bytecode-loader.js`);" ++ [newline]
    ++ litq "require(`./" ++ (name ++ lit "c") ++ litq "`);" ++ [newline].
Proof.
  unfold stub_template. rewrite <- !app_assoc. do 6 f_equal.
Qed.

(** C5, as the code has it.  For an entry chunk that is among the
    compiled chunks, once its references are rewritten and its bytecode
    is there, the files written are the bytecode under the chunk's name
    plus [c], the renamed bundle if it is kept, and last, under the
    chunk's own name, the stub: the template with
    [normalizePath(name + 'c')] in the place of [<name>c].  For a file
    name that is a normalised relative path already (no empty, [.] or
    [..] segment; no backslash on Windows) that stub is the template with
    the file name itself. *)
Theorem entry_stub_written `{Host} (p : Plugin) graph outDir bytecodeRE fuel
    (name : jsstring) (chunk : OutputChunk) (_code : jsstring)
    (bytecodeBuffer : buffer) :
  oc_isEntry chunk = true →
  name ∈ bytecodeChunks p →
  rewriteReferences bytecodeRE (oc_code chunk) = Some (Ok _code) →
  cs_promise (compileToBytecode _code) = Resolved bytecodeBuffer →
  let stub :=
    litq "`use strict`;" ++ [newline]
    ++ litq "require(`./bytecode-loader.js`);" ++ [newline]
    ++ litq "require(`./" ++ normalizePath isWindows (name ++ lit "c")
    ++ litq "`);" ++ [newline] in
  processChunk p graph outDir bytecodeRE fuel name (ItemChunk chunk)
  = Some (Done
            (WriteBuffer (path_resolve outDir (name ++ lit "c")) bytecodeBuffer
             :: (if removeBundleJS p then [] else [keepBundle (path_resolve outDir name)])
             ++ [WriteFile (path_resolve outDir name) stub])
            [(name ++ lit "c", length bytecodeBuffer)])
  ∧ (normalised_name isWindows name → stub = stub_template name).
Proof.
  intros Hentry Hin Hrewrite Hcompile stub. split.
  - unfold processChunk. rewrite Hrewrite. unfold includes.
    rewrite bool_decide_eq_true_2 by done.
    rewrite Hcompile, Hentry, entry_stub_unfold. done.
  - intros Hname. unfold stub.
    by rewrite stub_template_unfold, normalizePath_normalised.
Qed.

Lemma entry_stub_written_witness :
  let stub :=
    litq "`use strict`;" ++ [newline]
    ++ litq "require(`./bytecode-loader.js`);" ++ [newline]
    ++ litq "require(`./" ++ normalizePath false (lit "main.js" ++ lit "c")
    ++ litq "`);" ++ [newline] in
  @processChunk Demo.host main_plugin ∅ (lit "out") main_js_re 0 (lit "main.js")
    (ItemChunk main_entry)
  = Some (Done
            (WriteBuffer (Demo.resolve_path (lit "out") (lit "main.js" ++ lit "c"))
               (default x00 ∘ Byte.of_N <$> oc_code main_entry)
             :: (if removeBundleJS main_plugin then []
                 else [@keepBundle Demo.host (Demo.resolve_path (lit "out") (lit "main.js"))])
             ++ [WriteFile (Demo.resolve_path (lit "out") (lit "main.js")) stub])
            [(lit "main.js" ++ lit "c", length (default x00 ∘ Byte.of_N <$> oc_code main_entry))])
  ∧ (normalised_name false (lit "main.js") → stub = stub_template (lit "main.js")).
Proof.
  apply (@entry_stub_written Demo.host main_plugin ∅ (lit "out") main_js_re 0
           (lit "main.js") main_entry (oc_code main_entry)).
  - reflexivity.
  - apply list_elem_of_here.
  - vm_compute. reflexivity.
  - vm_compute. reflexivity.
Defined.

(** The files of the witness: the bundle is kept as [_main.js]. *)
Example entry_stub_main_js :
  @processChunk Demo.host main_plugin ∅ (lit "out") main_js_re 0 (lit "main.js")
    (ItemChunk main_entry)
  = Some (Done
            [WriteBuffer (lit "/app/out/main.jsc")
               (default x00 ∘ Byte.of_N <$> oc_code main_entry);
             RenameFile (lit "/app/out/main.js") (lit "/app/out/_main.js");
             WriteFile (lit "/app/out/main.js") (stub_template (lit "main.js"))]
            [(lit "main.jsc", 21)]).
Proof. by vm_compute. Qed.

(** C5, as the specification has it, fails: the file name
    [chunks//main.js] is written into the stub as [chunks/main.jsc]. *)
Lemma entry_stub_not_template :
  @writeBundle Demo.host nested_plugin ∅ (lit "out")
    [(nested_name, ItemChunk main_entry)] 0
  = Some (with_files nested_plugin [(lit "chunks//main.jsc", 21)],
          Ok [(nested_name,
               Done [WriteBuffer (lit "/app/out/chunks/main.jsc")
                       (default x00 ∘ Byte.of_N
                          <$> litq "`use strict`;" ++ [newline] ++ lit "void 0;");
                     WriteFile (lit "/app/out/chunks/main.js")
                       (litq "`use strict`;" ++ [newline]
                        ++ litq "require(`./bytecode-loader.js`);" ++ [newline]
                        ++ litq "require(`./chunks/main.jsc`);" ++ [newline])]
                    [(lit "chunks//main.jsc", 21)])])
  ∧ litq "`use strict`;" ++ [newline]
    ++ litq "require(`./bytecode-loader.js`);" ++ [newline]
    ++ litq "require(`./chunks/main.jsc`);" ++ [newline]
    ≠ stub_template nested_name.
Proof.
  split; [by vm_compute|]. vm_compute. discriminate.
Qed.

(** ** Dependency propagation *)

Lemma elem_of_concat {A} (x : A) (ls : list (list A)) :
  x ∈ concat ls ↔ ∃ l, x ∈ l ∧ l ∈ ls.
Proof.
  induction ls as [|l ls IH]; simpl.
  - split; [by intros ?%elem_of_nil|]. by intros (l & _ & ?%elem_of_nil).
  - rewrite elem_of_app, IH. split.
    + intros [?|(l' & ? & ?)].
      * exists l. split; [done|apply list_elem_of_here].
      * exists l'. split; [done|by apply list_elem_of_further].
    + intros (l' & ? & [->|?]%elem_of_cons); [by left|right; eauto].
Qed.

Section Propagation.
Variable graph : gmap (list N) ModuleInfo.
Variable compiled : list jsstring.

Lemma Set_add_elem (s : list jsstring) (x y : jsstring) :
  y ∈ Set_add s x ↔ y ∈ s ∨ y = x.
Proof.
  unfold Set_add. case_bool_decide as Hx.
  - split; [by left|]. by intros [?| ->].
  - rewrite elem_of_app, list_elem_of_singleton. done.
Qed.

Lemma Set_add_NoDup (s : list jsstring) (x : jsstring) :
  NoDup s → NoDup (Set_add s x).
Proof.
  intros Hs. unfold Set_add. case_bool_decide as Hx; [done|].
  apply NoDup_app. split; [done|]. split; [|apply NoDup_singleton].
  intros y Hy ->%list_elem_of_singleton. done.
Qed.

Lemma Set_add_prefix (s : list jsstring) (x : jsstring) : s `prefix_of` Set_add s x.
Proof.
  unfold Set_add. case_bool_decide; [done|]. by apply prefix_app_r.
Qed.

Lemma Set_add_all_elem (l s : list jsstring) (y : jsstring) :
  y ∈ foldl Set_add s l ↔ y ∈ s ∨ y ∈ l.
Proof.
  revert s. induction l as [|x l IH]; intros s; simpl.
  - rewrite elem_of_nil. tauto.
  - rewrite IH, Set_add_elem, elem_of_cons. tauto.
Qed.

Lemma Set_add_all_NoDup (l s : list jsstring) : NoDup s → NoDup (foldl Set_add s l).
Proof.
  revert s. induction l as [|x l IH]; intros s Hs; simpl; [done|].
  by apply IH, Set_add_NoDup.
Qed.

Lemma Set_add_all_prefix (l s : list jsstring) : s `prefix_of` foldl Set_add s l.
Proof.
  revert s. induction l as [|x l IH]; intros s; simpl; [done|].
  etrans; [apply Set_add_prefix | apply IH].
Qed.

Lemma Set_new_elem (l : list jsstring) (y : jsstring) : y ∈ Set_new l ↔ y ∈ l.
Proof. unfold Set_new. rewrite Set_add_all_elem, elem_of_nil. tauto. Qed.

Lemma Set_new_NoDup (l : list jsstring) : NoDup (Set_new l).
Proof. apply Set_add_all_NoDup, NoDup_nil_2. Qed.

Lemma expand_elem (ids : list jsstring) (moduleId y : jsstring) :
  y ∈ expand graph ids moduleId ↔ y ∈ ids ∨ reverse_edge graph moduleId y.
Proof.
  unfold expand, reverse_edge.
  destruct (graph !! moduleId) as [info|] eqn:Hinfo.
  - destruct (isExternal info) eqn:Hext.
    + split; [by left|]. intros [?|(info' & [= <-] & ? & ?)]; [done|congruence].
    + rewrite !Set_add_all_elem. split.
      * intros [[?|?]|?]; [by left|right; exists info; rewrite elem_of_app; tauto..].
      * intros [?|(info' & [= <-] & _ & [?|?]%elem_of_app)]; tauto.
  - split; [by left|]. by intros [?|(info' & [=] & _)].
Qed.

Lemma expand_NoDup (ids : list jsstring) (moduleId : jsstring) :
  NoDup ids → NoDup (expand graph ids moduleId).
Proof.
  intros Hids. unfold expand. destruct (graph !! moduleId) as [info|]; [|done].
  destruct (isExternal info); [done|]. by do 2 apply Set_add_all_NoDup.
Qed.

Lemma expand_prefix (ids : list jsstring) (moduleId : jsstring) :
  ids `prefix_of` expand graph ids moduleId.
Proof.
  unfold expand. destruct (graph !! moduleId) as [info|]; [|done].
  destruct (isExternal info); [done|].
  etrans; apply Set_add_all_prefix.
Qed.

Lemma reverse_edge_graph_ids (moduleId importerId : jsstring) :
  reverse_edge graph moduleId importerId → importerId ∈ graph_ids graph.
Proof.
  intros (info & Hinfo & _ & Hin). unfold graph_ids.
  apply elem_of_concat. exists (importers info ++ dynamicImporters info).
  split; [done|]. apply list_elem_of_fmap. exists (moduleId, info).
  split; [done|]. by apply elem_of_map_to_list.
Qed.

(** The loop ends: the set has no duplicates and stays within the ids
    of the seeds and of the graph, so the iterator reaches its end
    before the fuel does. *)
Lemma propagate_loop_ends (universe : list jsstring) : ∀ fuel ids i,
  NoDup ids →
  (∀ id, id ∈ ids → id ∈ universe) →
  (∀ id, id ∈ graph_ids graph → id ∈ universe) →
  i ≤ length ids →
  length universe < fuel + i →
  ∃ found ids',
    propagate_loop graph compiled fuel ids i = Some (found, ids')
    ∧ NoDup ids' ∧ (∀ id, id ∈ ids' → id ∈ universe) ∧ ids `prefix_of` ids'.
Proof.
  induction fuel as [|fuel IH]; intros ids i Hnd Hsub Hgraph Hi Hfuel.
  - pose proof (submseteq_length _ _ (NoDup_submseteq _ _ Hnd Hsub)) as Hlen.
    exfalso. lia.
  - simpl. destruct (ids !! i) as [moduleId|] eqn:Hm; [|by eauto 10].
    destruct (includes compiled moduleId); [by eauto 10|].
    destruct (IH (expand graph ids moduleId) (S i)) as (found & ids' & Hrun & ? & ? & Hpre).
    + by apply expand_NoDup.
    + intros id [?|Hedge]%expand_elem; [by auto|].
      by apply Hgraph, (reverse_edge_graph_ids moduleId).
    + done.
    + apply lookup_lt_Some in Hm.
      pose proof (prefix_length _ _ (expand_prefix ids moduleId)). lia.
    + lia.
    + exists found, ids'. repeat split; try done.
      etrans; [apply expand_prefix | done].
Qed.
(** What the loop decides: every id it holds is in the frontier of the
    seeds; when it finds a compiled chunk, that id is in the frontier;
    when it finds none, it holds the whole frontier and no id in it is
    a compiled chunk. *)
Lemma propagate_loop_decides (seeds : list jsstring) : ∀ fuel ids i found ids',
  propagate_loop graph compiled fuel ids i = Some (found, ids') →
  (∀ id, id ∈ ids → frontier graph seeds id) →
  (∀ id, id ∈ seeds → id ∈ ids) →
  (∀ j m, j < i → ids !! j = Some m →
     (m ∉ compiled) ∧ (∀ x, reverse_edge graph m x → x ∈ ids)) →
  (∀ id, id ∈ ids' → frontier graph seeds id)
  ∧ if found then ∃ id, id ∈ ids' ∧ id ∈ compiled
    else ∀ id, frontier graph seeds id → id ∈ ids' ∧ id ∉ compiled.
Proof.
  induction fuel as [|fuel IH]; intros ids i found ids' Hrun Hsound Hseeds Hdone;
    [done|].
  simpl in Hrun. destruct (ids !! i) as [moduleId|] eqn:Hm.
  - assert (moduleId ∈ ids) as Hin by (by eapply list_elem_of_lookup_2).
    unfold includes in Hrun. case_bool_decide as Hc.
    + injection Hrun as <- <-. split; [done|]. by exists moduleId.
    + apply IH in Hrun; [done|..].
      * intros id [?|Hedge]%expand_elem; [by auto|].
        destruct Hedge as (info & ? & ? & ?).
        by apply (frontier_importer graph seeds moduleId info); auto.
      * intros id ?. apply expand_elem. auto.
      * intros j m Hj Hjm.
        pose proof (expand_prefix ids moduleId) as Hpre.
        pose proof (lookup_lt_Some _ _ _ Hm) as Hlen.
        destruct (decide (j = i)) as [->|Hne].
        -- rewrite (prefix_lookup_Some _ _ _ _ Hm Hpre) in Hjm.
           injection Hjm as <-. split; [done|].
           intros x ?. apply expand_elem. auto.
        -- rewrite <- (prefix_lookup_lt ids) in Hjm by (done || lia).
           destruct (Hdone j m) as [? Hclosed]; [lia|done|]. split; [done|].
           intros x ?. apply expand_elem. auto.
  - injection Hrun as <- <-. split; [done|].
    apply lookup_ge_None in Hm.
    assert (Hall : ∀ m, m ∈ ids → (m ∉ compiled) ∧ (∀ x, reverse_edge graph m x → x ∈ ids)).
    { intros m (j & Hj)%list_elem_of_lookup_1. apply (Hdone j); [|done].
      apply lookup_lt_Some in Hj. lia. }
    assert (Hcover : ∀ id, frontier graph seeds id → id ∈ ids).
    { intros id Hid. induction Hid as [id Hid|id info importerId _ IHid Hinfo Hext Himp].
      - by apply Hseeds.
      - apply (Hall id IHid). by exists info. }
    intros id Hid. split; [by apply Hcover|]. by apply Hall, Hcover.
Qed.
End Propagation.

(** C10.  For every module graph (a finite map), every list of compiled
    chunks and every list of direct imports, the loop over the growing
    set ends within as many rounds as there are seed ids and importer ids
    in the graph, plus one: it returns; the set it leaves has no id
    twice, and every id in it is a seed or an importer recorded in the
    graph. *)
Theorem propagation_terminates (graph : gmap (list N) ModuleInfo)
    (compiled seeds : list jsstring) (fuel : nat) :
  length (seeds ++ graph_ids graph) < fuel →
  ∃ found ids,
    propagate_loop graph compiled fuel (Set_new seeds) 0 = Some (found, ids)
    ∧ NoDup ids
    ∧ (∀ id, id ∈ ids → id ∈ seeds ∨ id ∈ graph_ids graph)
    ∧ length ids ≤ length (seeds ++ graph_ids graph).
Proof.
  intros Hfuel.
  destruct (propagate_loop_ends graph compiled (seeds ++ graph_ids graph)
              fuel (Set_new seeds) 0)
    as (found & ids & Hrun & Hnd & Hsub & _).
  - apply Set_new_NoDup.
  - intros id Hid. apply (proj1 (Set_new_elem seeds id)) in Hid. apply elem_of_app. by left.
  - intros id ?. apply elem_of_app. by right.
  - lia.
  - lia.
  - exists found, ids. repeat split; try done.
    + intros id ?. by apply elem_of_app, Hsub.
    + by apply submseteq_length, NoDup_submseteq.
Qed.

Lemma propagation_terminates_witness :
  ∃ found ids,
    propagate_loop cyclic_graph [lit "c"] 10 (Set_new [lit "a"; lit "a"; lit "d"]) 0
    = Some (found, ids)
    ∧ NoDup ids
    ∧ (∀ id, id ∈ ids → id ∈ [lit "a"; lit "a"; lit "d"] ∨ id ∈ graph_ids cyclic_graph)
    ∧ length ids ≤ length ([lit "a"; lit "a"; lit "d"] ++ graph_ids cyclic_graph).
Proof.
  apply (propagation_terminates cyclic_graph [lit "c"] [lit "a"; lit "a"; lit "d"] 10).
  vm_compute. lia.
Defined.

Lemma startsWith_app (p rest : jsstring) : startsWith (p ++ rest) p = true.
Proof.
  induction p as [|c p IH]; simpl; [by destruct rest|].
  by rewrite bool_decide_eq_true_2, IH.
Qed.

Lemma indexOf_startsWith (s p : jsstring) :
  startsWith s p = true → indexOf s p = Some 0.
Proof. destruct s; simpl; by intros ->. Qed.

Lemma replace_prefix (p rest replacement : jsstring) :
  replace (p ++ rest) p replacement = replacement ++ rest.
Proof.
  unfold replace. rewrite indexOf_startsWith by apply startsWith_app.
  simpl. by rewrite drop_app_length.
Qed.

(** The propagation stage in its place: what [writeBundle] does with an
    entry chunk that is not among the compiled chunks. *)
Lemma processChunk_entry_not_compiled `{Host} (p : Plugin) graph outDir bytecodeRE fuel
    (name : jsstring) (chunk : OutputChunk) (_code : jsstring) :
  oc_isEntry chunk = true →
  name ∉ bytecodeChunks p →
  rewriteReferences bytecodeRE (oc_code chunk) = Some (Ok _code) →
  processChunk p graph outDir bytecodeRE fuel name (ItemChunk chunk)
  = (_code' ← propagate p graph fuel chunk _code;
     Some (Done [WriteFile (path_resolve outDir name) _code'] [])).
Proof.
  intros Hentry Hout Hrewrite. unfold processChunk. rewrite Hrewrite. unfold includes.
  rewrite bool_decide_eq_false_2 by done. rewrite Hentry.
  by destruct (propagate p graph fuel chunk _code).
Qed.

(** C2.  For an entry chunk that is not compiled itself, and fuel beyond
    the ids the graph and the chunk's imports hold: the loop returns, and
    its flag is set exactly when the frontier of the chunk's static and
    dynamic imports (closed under the importers and dynamic importers of
    its non-external modules) holds a compiled chunk's id.  With the flag
    set the code written is the chunk's code with the first
    ["use strict";] replaced by [requireBytecodeLoaderStr], which for a
    code that starts with that prologue is the loader prologue followed
    by the rest; with the flag unset it is the chunk's code unchanged. *)
Theorem propagate_marks (p : Plugin) (graph : gmap (list N) ModuleInfo) (fuel : nat)
    (chunk : OutputChunk) (_code : jsstring) :
  let seeds := oc_imports chunk ++ oc_dynamicImports chunk in
  length (seeds ++ graph_ids graph) < fuel →
  ∃ found ids,
    propagate_loop graph (bytecodeChunks p) fuel (Set_new seeds) 0 = Some (found, ids)
    ∧ (found = true ↔ ∃ id, frontier graph seeds id ∧ id ∈ bytecodeChunks p)
    ∧ (∀ id, id ∈ ids → frontier graph seeds id)
    ∧ propagate p graph fuel chunk _code
      = Some (if found
              then replace _code (litq "`use strict`;") requireBytecodeLoaderStr
              else _code)
    ∧ (∀ rest, replace (litq "`use strict`;" ++ rest) (litq "`use strict`;")
                 requireBytecodeLoaderStr
               = litq "`use strict`;" ++ [newline]
                 ++ litq "require(`./bytecode-loader.js`);" ++ rest).
Proof.
  intros seeds Hfuel.
  destruct (propagate_loop_ends graph (bytecodeChunks p) (seeds ++ graph_ids graph)
              fuel (Set_new seeds) 0)
    as (found & ids & Hrun & _).
  { apply Set_new_NoDup. }
  { intros id Hid. apply (proj1 (Set_new_elem seeds id)) in Hid. apply elem_of_app. by left. }
  { intros id ?. apply elem_of_app. by right. }
  { lia. }
  { lia. }
  exists found, ids. split; [done|].
  destruct (propagate_loop_decides graph (bytecodeChunks p) seeds fuel
              (Set_new seeds) 0 found ids Hrun) as [Hsound Hdec].
  { intros id Hid. apply (proj1 (Set_new_elem seeds id)) in Hid. by apply frontier_seed. }
  { intros id ?. by apply Set_new_elem. }
  { intros j m Hj. lia. }
  split; [|split; [done|split]].
  - destruct found.
    + split; [|done]. intros _. destruct Hdec as (id & ? & ?). exists id. auto.
    + split; [done|]. intros (id & Hid & Hc). by destruct (Hdec id Hid).
  - unfold propagate. fold seeds. by rewrite Hrun.
  - intros rest. rewrite replace_prefix. unfold requireBytecodeLoaderStr.
    by rewrite <- !app_assoc.
Qed.

Lemma propagate_marks_witness :
  ∃ found ids,
    propagate_loop cyclic_graph (bytecodeChunks c_plugin) 10
      (Set_new (oc_imports app_entry ++ oc_dynamicImports app_entry)) 0
    = Some (found, ids)
    ∧ (found = true ↔
       ∃ id, frontier cyclic_graph (oc_imports app_entry ++ oc_dynamicImports app_entry) id
             ∧ id ∈ bytecodeChunks c_plugin)
    ∧ (∀ id, id ∈ ids →
         frontier cyclic_graph (oc_imports app_entry ++ oc_dynamicImports app_entry) id)
    ∧ propagate c_plugin cyclic_graph 10 app_entry (oc_code app_entry)
      = Some (if found
              then replace (oc_code app_entry) (litq "`use strict`;") requireBytecodeLoaderStr
              else oc_code app_entry)
    ∧ (∀ rest, replace (litq "`use strict`;" ++ rest) (litq "`use strict`;")
                 requireBytecodeLoaderStr
               = litq "`use strict`;" ++ [newline]
                 ++ litq "require(`./bytecode-loader.js`);" ++ rest).
Proof.
  apply (propagate_marks c_plugin cyclic_graph 10 app_entry (oc_code app_entry)).
  vm_compute. lia.
Defined.

(** The run behind the two witnesses: the set grows from [a; d] to
    [a; d; b; c], and [c] is a compiled chunk. *)
Example propagate_cyclic_run :
  propagate_loop cyclic_graph [lit "c"] 10 (Set_new [lit "a"; lit "a"; lit "d"]) 0
  = Some (true, [lit "a"; lit "d"; lit "b"; lit "c"])
  ∧ propagate c_plugin cyclic_graph 10 app_entry (oc_code app_entry)
    = Some (litq "`use strict`;" ++ [newline]
            ++ litq "require(`./bytecode-loader.js`);" ++ [newline] ++ lit "run();").
Proof. by vm_compute. Qed.

(** ** Reference rewriting *)

Lemma exec_scan_Some (m : matcher) (str : jsstring) : ∀ n i j len,
  exec_scan m str n i = Some (j, len) → i ≤ j < i + n ∧ m str j = Some len.
Proof.
  induction n as [|n IH]; intros i j len Hscan; [done|]. simpl in Hscan.
  destruct (m str i) as [len'|] eqn:Hm.
  - injection Hscan as <- <-. split; [lia|done].
  - apply IH in Hscan as [? ?]. split; [lia|done].
Qed.

Lemma RegExp_exec_Some (m : matcher) (str : jsstring) lastIndex i txt e :
  RegExp_exec m str lastIndex = (Some (i, txt), e) →
  lastIndex ≤ i ∧ i + length txt ≤ length str ∧ i + length txt ≤ e
  ∧ take (length txt) (drop i str) = txt
  ∧ (txt ≠ [] → lastIndex < e).
Proof.
  unfold RegExp_exec.
  destruct (exec_scan m str (S (length str) - lastIndex) lastIndex) as [[j len]|] eqn:Hscan;
    [|done].
  intros [= <- <- <-]. apply exec_scan_Some in Hscan as [Hj _].
  assert (length (take len (drop j str)) = len `min` (length str - j)) as Hlen
    by (by rewrite length_take, length_drop).
  repeat split; try lia.
  - rewrite Hlen. destruct (decide (len ≤ length str - j)).
    + f_equal. lia.
    + rewrite !take_ge by (rewrite length_drop; lia). done.
  - intros Hne. destruct len; [by rewrite take_0 in Hne|lia].
Qed.

Lemma RegExp_exec_None (m : matcher) (str : jsstring) lastIndex :
  length str < lastIndex → RegExp_exec m str lastIndex = (None, 0).
Proof.
  intros Hlen. unfold RegExp_exec.
  by replace (S (length str) - lastIndex) with 0 by lia.
Qed.

Lemma chain_weaken (code : jsstring) e e' ms : e' ≤ e → chain code e ms → chain code e' ms.
Proof. destruct ms as [|[i txt] ms]; simpl; [done|]. intros ? (? & ?). split; [lia|done]. Qed.

(** The matches of a global match form a chain, when none is empty. *)
Lemma match_loop_chain (m : matcher) (code : jsstring) : ∀ fuel lastIndex,
  Forall (λ mt : nat * jsstring, mt.2 ≠ []) (match_loop m code fuel lastIndex) →
  chain code lastIndex (match_loop m code fuel lastIndex).
Proof.
  induction fuel as [|fuel IH]; intros lastIndex Hne; [done|]. simpl in *.
  destruct (RegExp_exec m code lastIndex) as [[[i txt]|] e] eqn:Hexec; [|done].
  apply Forall_cons in Hne as [Htxt Hne]. simpl in Htxt.
  rewrite bool_decide_eq_false_2 in * by done.
  apply RegExp_exec_Some in Hexec as (? & ? & ? & ? & ?).
  simpl. repeat split; try done.
  apply chain_weaken with e; [done|]. by apply IH.
Qed.

(** With no empty match, the rewriting loop performs the overwrites of
    the global match, one per match, and ends. *)
Lemma rewrite_loop_matches (m : matcher) (code : jsstring) : ∀ fuel lastIndex s,
  S (length code) - lastIndex ≤ fuel →
  Forall (λ mt : nat * jsstring, mt.2 ≠ []) (match_loop m code fuel lastIndex) →
  rewrite_loop m code (S fuel) lastIndex s
  = Some (apply_matches (match_loop m code fuel lastIndex) s).
Proof.
  induction fuel as [|fuel IH]; intros lastIndex s Hfuel Hne.
  - simpl. rewrite RegExp_exec_None by lia. done.
  - change (rewrite_loop m code (S (S fuel)) lastIndex s)
      with (match RegExp_exec m code lastIndex with
            | (None, _) => Some (Ok s)
            | (Some (index, chunkName), lastIndex') =>
                match overwrite index (index + length chunkName) (chunkName ++ lit "c") s with
                | Throw e => Some (Throw e)
                | Ok s' => rewrite_loop m code (S fuel) lastIndex' s'
                end
            end).
    simpl in *.
    destruct (RegExp_exec m code lastIndex) as [[[i txt]|] e] eqn:Hexec; [|done].
    apply Forall_cons in Hne as [Htxt Hne]. simpl in Htxt.
    rewrite bool_decide_eq_false_2 in * by done.
    apply RegExp_exec_Some in Hexec as (? & ? & ? & ? & Hlt).
    specialize (Hlt Htxt). simpl.
    destruct (overwrite i (i + length txt) (txt ++ lit "c") s) as [s'|err]; [|done].
    simpl. apply IH; [lia|done].
Qed.

Section Overwrite.
Variable code : jsstring.

Lemma byStart_before e idx done :
  Forall (chunk_before e) done → e ≤ idx → byStart idx done = false.
Proof.
  intros Hdone Hidx. unfold byStart. induction Hdone as [|c done [? ?] _ IH]; [done|].
  simpl. rewrite IH. by nat_cmp.
Qed.

Lemma byEnd_before e idx done :
  Forall (chunk_before e) done → e < idx → byEnd idx done = false.
Proof.
  intros Hdone Hidx. unfold byEnd. induction Hdone as [|c done [? ?] _ IH]; [done|].
  simpl. rewrite IH. by nat_cmp.
Qed.

Lemma split_chunks_before e idx done l :
  Forall (chunk_before e) done → e ≤ idx →
  split_chunks idx (done ++ l) = (cs ←r split_chunks idx l; Ok (done ++ cs)).
Proof.
  intros Hdone Hidx. induction Hdone as [|c done [? ?] _ IH]; simpl.
  - by destruct (split_chunks idx l).
  - unfold contains. repeat nat_cmp. simpl.
    rewrite IH. by destruct (split_chunks idx l).
Qed.

Lemma edit_range_before e start end_ content done l :
  Forall (chunk_before e) done → e ≤ start →
  edit_range start end_ content (done ++ l)
  = (cs ←r edit_range start end_ content l; Ok (done ++ cs)).
Proof.
  intros Hdone Hidx. induction Hdone as [|c done [? ?] _ IH]; simpl.
  - by destruct (edit_range start end_ content l).
  - nat_cmp.
    rewrite IH. by destruct (edit_range start end_ content l).
Qed.

Lemma _split_tail_start e done :
  _split e (done ++ [tail_chunk code e]) = Ok (done ++ [tail_chunk code e]).
Proof.
  unfold _split, byStart. rewrite existsb_app. simpl.
  by rewrite Nat.eqb_refl, orb_true_r.
Qed.

Lemma _split_tail e idx done :
  Forall (chunk_before e) done → e < idx → idx ≤ length code →
  _split idx (done ++ [tail_chunk code e])
  = Ok (done ++ (if idx <? length code
                 then [piece code e idx; tail_chunk code idx]
                 else [tail_chunk code e])).
Proof.
  intros Hdone He Hidx. unfold _split.
  assert (byStart idx (done ++ [tail_chunk code e]) = false) as ->.
  { unfold byStart. rewrite existsb_app. fold (byStart idx done).
    rewrite (byStart_before e) by (done || lia). simpl.
    by nat_cmp. }
  assert (byEnd idx (done ++ [tail_chunk code e]) = negb (idx <? length code)) as ->.
  { unfold byEnd. rewrite existsb_app. fold (byEnd idx done).
    rewrite (byEnd_before e) by (done || lia). simpl.
    destruct (Nat.ltb_spec idx (length code)), (Nat.eqb_spec (length code) idx);
      simpl; (done || lia). }
  destruct (Nat.ltb_spec idx (length code)) as [Hlt|Hge]; [|done]. simpl.
  rewrite (split_chunks_before e) by (done || lia). simpl.
  unfold contains. simpl.
  nat_cmp.
  nat_cmp.
  simpl. unfold piece, tail_chunk. rewrite drop_drop.
  by replace (e + (idx - e)) with idx by lia.
Qed.

(** One overwrite of the loop, on a text edited up to position [e]. *)
Lemma overwrite_tail e i len content done :
  Forall (chunk_before e) done → e ≤ i → 0 < len → i + len ≤ length code →
  ∃ done',
    overwrite i (i + len) content
      {| ms_original := code; ms_chunks := done ++ [tail_chunk code e] |}
    = Ok {| ms_original := code;
            ms_chunks := done' ++ (if i + len <? length code
                                   then [tail_chunk code (i + len)] else []) |}
    ∧ Forall (chunk_before (i + len)) done'
    ∧ concat (c_content <$> done')
      = concat (c_content <$> done) ++ take (i - e) (drop e code) ++ content.
Proof.
  intros Hdone He Hlen Hn.
  set (done1 := done ++ (if e <? i then [piece code e i] else [])).
  assert (Hdone1 : Forall (chunk_before i) done1).
  { apply Forall_app. split.
    - eapply Forall_impl; [done|]. intros c [? ?]. split; lia.
    - destruct (Nat.ltb_spec e i); [|done].
      apply Forall_singleton. split; simpl; lia. }
  assert (Hsplit1 : _split i (done ++ [tail_chunk code e]) = Ok (done1 ++ [tail_chunk code i])).
  { unfold done1. destruct (Nat.ltb_spec e i).
    - rewrite _split_tail by (done || lia).
      nat_cmp.
      by rewrite <- app_assoc.
    - replace i with e by lia. by rewrite _split_tail_start, app_nil_r. }
  unfold overwrite. simpl.
  nat_cmp.
  nat_cmp.
  rewrite Hsplit1. simpl.
  rewrite (_split_tail i (i + len) done1) by (done || lia). simpl.
  rewrite (edit_range_before i) by (done || lia).
  destruct (Nat.ltb_spec (i + len) (length code)) as [Hlt|Hge].
  - exists (done1 ++ [chunk_edit content (piece code i (i + len))]).
    simpl. rewrite !Nat.eqb_refl. simpl. rewrite <- app_assoc. split; [done|]. split.
    + apply Forall_app. split.
      * eapply Forall_impl; [done|]. intros c [? ?]. split; lia.
      * apply Forall_singleton. split; simpl; lia.
    + unfold done1. rewrite !fmap_app, !concat_app. simpl.
      rewrite app_nil_r, <- app_assoc. f_equal.
      destruct (Nat.ltb_spec e i); simpl; [by rewrite app_nil_r|].
      by replace (i - e) with 0 by lia.
  - exists (done1 ++ [chunk_edit content (tail_chunk code i)]).
    simpl. rewrite Nat.eqb_refl.
    nat_cmp.
    simpl. rewrite app_nil_r. split; [done|]. split.
    + apply Forall_app. split.
      * eapply Forall_impl; [done|]. intros c [? ?]. split; lia.
      * apply Forall_singleton. split; simpl; lia.
    + unfold done1. rewrite !fmap_app, !concat_app. simpl.
      rewrite app_nil_r, <- app_assoc. f_equal.
      destruct (Nat.ltb_spec e i); simpl; [by rewrite app_nil_r|].
      by replace (i - e) with 0 by lia.
Qed.

(** All the overwrites of a chain of matches, and the text they leave. *)
Lemma apply_matches_chain : ∀ ms e done,
  chain code e ms → Forall (chunk_before e) done →
  ∃ s',
    apply_matches ms
      {| ms_original := code;
         ms_chunks := done ++ (if e <? length code then [tail_chunk code e] else []) |}
    = Ok s'
    ∧ toString s' = concat (c_content <$> done) ++ rebuild code e ms.
Proof.
  induction ms as [|[i txt] ms IH]; intros e done Hchain Hdone.
  - eexists. split; [done|]. unfold toString. simpl.
    rewrite fmap_app, concat_app. f_equal.
    destruct (Nat.ltb_spec e (length code)); simpl; [by rewrite app_nil_r|].
    by rewrite drop_ge.
  - destruct Hchain as (He & Htxt & Hn & _ & Hchain).
    assert (0 < length txt) by (destruct txt; [done|simpl; lia]).
    nat_cmp.
    destruct (overwrite_tail e i (length txt) (txt ++ lit "c") done)
      as (done' & Hover & Hdone' & Hcontent); try done.
    destruct (IH _ _ Hchain Hdone') as (s' & Happly & Hstr).
    exists s'. simpl. rewrite Hover. simpl. split; [done|].
    rewrite Hstr, Hcontent. by rewrite <- !app_assoc.
Qed.
End Overwrite.

Section Rebuild.
Variable code : jsstring.

Lemma rebuild_length : ∀ ms e,
  chain code e ms → length (rebuild code e ms) = length code - e + length ms.
Proof.
  induction ms as [|[i txt] ms IH]; intros e Hchain.
  - simpl. rewrite length_drop. lia.
  - destruct Hchain as (He & _ & Hn & _ & Hchain).
    change (rebuild code e ((i, txt) :: ms))
      with (take (i - e) (drop e code) ++ txt ++ [99%N]
            ++ rebuild code (i + length txt) ms).
    rewrite !length_app, length_take, length_drop, (IH _ Hchain). simpl. lia.
Qed.

Lemma matches_before_early : ∀ ms e p,
  chain code e ms → p < e → matches_before ms p = 0.
Proof.
  unfold matches_before.
  induction ms as [|[i txt] ms IH]; intros e p Hchain Hp; [done|].
  destruct Hchain as (He & _ & _ & _ & Hchain). simpl.
  nat_cmp.
  apply (IH (i + length txt)); [done|lia].
Qed.

(** Every code unit of the text is in the rebuilt text, moved right by
    one place for every match that ends at or before it. *)
Lemma rebuild_lookup : ∀ ms e p c,
  chain code e ms → e ≤ p → code !! p = Some c →
  rebuild code e ms !! (p - e + matches_before ms p) = Some c.
Proof.
  induction ms as [|[i txt] ms IH]; intros e p c Hchain Hp Hc.
  - simpl. rewrite lookup_drop. unfold matches_before. simpl.
    by replace (e + (p - e + 0)) with p by lia.
  - destruct Hchain as (He & Htxt & Hn & Htake & Hchain).
    assert (Hlen : length (take (i - e) (drop e code)) = i - e)
      by (rewrite length_take, length_drop; lia).
    change (rebuild code e ((i, txt) :: ms))
      with (take (i - e) (drop e code) ++ txt ++ lit "c"
            ++ rebuild code (i + length txt) ms).
    destruct (decide (p < i + length txt)) as [Hin|Hout].
    + assert (matches_before ((i, txt) :: ms) p = 0) as ->.
      { unfold matches_before. simpl.
        nat_cmp.
        by apply (matches_before_early ms (i + length txt)). }
      rewrite Nat.add_0_r. destruct (decide (p < i)).
      * rewrite lookup_app_l by lia. rewrite lookup_take_lt, lookup_drop by lia.
        by replace (e + (p - e)) with p by lia.
      * rewrite lookup_app_r by lia. rewrite Hlen, lookup_app_l by lia.
        rewrite <- Htake, lookup_take_lt, lookup_drop by lia.
        by replace (i + (p - e - (i - e))) with p by lia.
    + assert (matches_before ((i, txt) :: ms) p = S (matches_before ms p)) as ->.
      { unfold matches_before. simpl.
        by nat_cmp. }
      rewrite lookup_app_r by lia. rewrite Hlen, lookup_app_r by lia.
      change (lit "c") with [99%N]. simpl.
      replace (p - e + S (matches_before ms p) - (i - e) - length txt)
        with (S (p - (i + length txt) + matches_before ms p)) by lia.
      simpl. apply IH; [done|lia|done].
Qed.

(** The code unit after the [k]-th match in the rebuilt text is [c]. *)
Lemma rebuild_lookup_c : ∀ ms e k i txt,
  chain code e ms → ms !! k = Some (i, txt) →
  rebuild code e ms !! (i + length txt - e + k) = Some 99%N.
Proof.
  induction ms as [|[i0 txt0] ms IH]; intros e k i txt Hchain Hk; [done|].
  destruct Hchain as (He & Htxt & Hn & Htake & Hchain).
  assert (Hlen : length (take (i0 - e) (drop e code)) = i0 - e)
    by (rewrite length_take, length_drop; lia).
  change (rebuild code e ((i0, txt0) :: ms))
    with (take (i0 - e) (drop e code) ++ txt0 ++ [99%N]
          ++ rebuild code (i0 + length txt0) ms).
  destruct k as [|k].
  - injection Hk as <- <-.
    rewrite lookup_app_r by lia. rewrite Hlen, lookup_app_r by lia.
    by replace (i0 + length txt0 - e + 0 - (i0 - e) - length txt0) with 0 by lia.
  - simpl in Hk.
    assert (i0 + length txt0 ≤ i).
    { clear IH. revert Hchain Hk. generalize (i0 + length txt0). revert k.
      induction ms as [|[i1 txt1] ms IHms]; intros k e' Hchain Hk; [done|].
      destruct Hchain as (? & _ & _ & _ & Hchain). destruct k as [|k].
      - injection Hk as <- <-. done.
      - simpl in Hk. specialize (IHms _ _ Hchain Hk). lia. }
    rewrite lookup_app_r by lia. rewrite Hlen, lookup_app_r by lia.
    replace (i + length txt - e + S k - (i0 - e) - length txt0)
      with (S (i + length txt - (i0 + length txt0) + k)) by lia.
    simpl. by apply IH.
Qed.
End Rebuild.

Lemma overwrite_Ok_nonempty start len content s s' :
  overwrite start (start + len) content s = Ok s' → 0 < len.
Proof.
  unfold overwrite. destruct (length (ms_original s) <? start + len); [done|].
  destruct (Nat.eqb_spec start (start + len)); [done|]. lia.
Qed.

(** The rewriting loop always ends: an empty match makes [overwrite]
    throw, any other match moves [lastIndex] on. *)
Lemma rewrite_loop_ends (m : matcher) (code : jsstring) : ∀ fuel lastIndex s,
  S (length code) - lastIndex < fuel →
  rewrite_loop m code fuel lastIndex s ≠ None.
Proof.
  induction fuel as [|fuel IH]; intros lastIndex s Hfuel; [lia|]. simpl.
  destruct (RegExp_exec m code lastIndex) as [[[i txt]|] e] eqn:Hexec; [|done].
  destruct (overwrite i (i + length txt) (txt ++ lit "c") s) as [s'|err] eqn:Hover; [|done].
  apply overwrite_Ok_nonempty in Hover.
  apply RegExp_exec_Some in Hexec as (? & ? & ? & ? & Hlt).
  apply IH. assert (lastIndex < e) by (apply Hlt; intros ->; simpl in Hover; lia). lia.
Qed.

Lemma rewriteReferences_ends (m : matcher) (code : jsstring) :
  rewriteReferences m code ≠ None.
Proof.
  unfold rewriteReferences. destruct (String_match m code); [done|].
  pose proof (rewrite_loop_ends m code (S (S (length code))) 0 (MagicString_new code)) as Hends.
  destruct (rewrite_loop m code (S (S (length code))) 0 (MagicString_new code))
    as [[?|?]|]; [done..|]. exfalso. apply Hends; [lia|done].
Qed.

(** The text that reference rewriting yields, when no match is empty. *)
Lemma rewriteReferences_rebuild (m : matcher) (code : jsstring) :
  Forall (λ mt : nat * jsstring, mt.2 ≠ []) (String_match m code) →
  chain code 0 (String_match m code)
  ∧ rewriteReferences m code = Some (Ok (rebuild code 0 (String_match m code))).
Proof.
  intros Hne. pose proof (match_loop_chain m code _ 0 Hne) as Hchain.
  fold (String_match m code) in Hchain. split; [done|].
  unfold rewriteReferences.
  destruct (String_match m code) as [|[i txt] ms] eqn:Hms; [done|].
  rewrite rewrite_loop_matches by (done || lia || by rewrite <- Hms in Hne).
  fold (String_match m code). rewrite Hms.
  destruct (apply_matches_chain code ((i, txt) :: ms) 0 []) as (s' & Happly & Hstr);
    [done|done|].
  assert (0 < length code) as Hpos.
  { destruct Hchain as (_ & Htxt & Hn & _). destruct txt; [done|simpl in Hn; lia]. }
  replace (0 <? length code) with true in Happly by (symmetry; by apply Nat.ltb_lt).
  change ([] ++ [tail_chunk code 0]) with (ms_chunks (MagicString_new code)) in Happly.
  change {| ms_original := code; ms_chunks := ms_chunks (MagicString_new code) |}
    with (MagicString_new code) in Happly.
  rewrite Happly, Hstr. done.
Qed.

(** C1, as the code has it.  For every text and every non-empty list of
    compiled chunk names whose combined pattern compiles and has no empty
    match in the text: reference rewriting yields a text that is longer
    than the input by the number of matches; every code unit of the input
    is in it, moved right by one place for each match that ends at or
    before it; and the place after each match holds a [c]. *)
Theorem rewrite_length_additive `{Host} (bytecodeChunks : list jsstring)
    (bytecodeRE : matcher) (_code : jsstring) :
  bytecodeChunks ≠ [] →
  RegExp_new (bytecodeRE_source bytecodeChunks) = Some bytecodeRE →
  Forall (λ mt : nat * jsstring, mt.2 ≠ []) (String_match bytecodeRE _code) →
  ∃ out,
    rewriteReferences bytecodeRE _code = Some (Ok out)
    ∧ length out = length _code + length (String_match bytecodeRE _code)
    ∧ (∀ p c, _code !! p = Some c →
         out !! (p + matches_before (String_match bytecodeRE _code) p) = Some c)
    ∧ (∀ k i txt, String_match bytecodeRE _code !! k = Some (i, txt) →
         out !! (i + length txt + k) = Some 99%N).
Proof.
  intros _ _ Hne.
  destruct (rewriteReferences_rebuild bytecodeRE _code Hne) as [Hchain Hrun].
  exists (rebuild _code 0 (String_match bytecodeRE _code)).
  split; [done|]. split; [|split].
  - rewrite rebuild_length by done. lia.
  - intros p c Hp.
    pose proof (rebuild_lookup _code _ 0 p c Hchain (Nat.le_0_l p) Hp) as Hlook.
    by rewrite Nat.sub_0_r in Hlook.
  - intros k i txt Hk.
    pose proof (rebuild_lookup_c _code _ 0 k i txt Hchain Hk) as Hlook.
    by rewrite Nat.sub_0_r in Hlook.
Qed.

Lemma rewrite_length_additive_witness :
  ∃ out,
    rewriteReferences index_js_re importing_code = Some (Ok out)
    ∧ length out = length importing_code + length (String_match index_js_re importing_code)
    ∧ (∀ p c, importing_code !! p = Some c →
         out !! (p + matches_before (String_match index_js_re importing_code) p) = Some c)
    ∧ (∀ k i txt, String_match index_js_re importing_code !! k = Some (i, txt) →
         out !! (i + length txt + k) = Some 99%N).
Proof.
  apply (@rewrite_length_additive Demo.host [lit "index.js"; lit "ab"]
           index_js_re importing_code).
  - discriminate.
  - vm_compute. reflexivity.
  - vm_compute. repeat constructor; discriminate.
Defined.

(** The run behind the witness: the dot of [index.js] matches any
    character, and the first alternative that matches wins. *)
Example rewrite_importing_code :
  String_match index_js_re importing_code
  = [(11, lit "index.js"); (23, lit "ab"); (25, lit "index_js")]
  ∧ rewriteReferences index_js_re importing_code
    = Some (Ok (lit "require('./index.jsc'); abcindex_jsc")).
Proof. by vm_compute. Qed.

(** C1, as the specification has it, fails: the chunk name [a*] gives a
    pattern, the star of [a] in a group, that matches the empty string
    twice in [b]; the first overwrite is of a zero-length range, which
    [MagicString] refuses, and no text is produced. *)
Lemma rewrite_empty_match_throws :
  (m ← Demo.regexp (bytecodeRE_source [lit "a*"]);
   Some (String_match m (lit "b"), rewriteReferences m (lit "b")))
  = Some ([(0, []); (1, [])], Some (Throw ZeroLengthRange)).
Proof. by vm_compute. Qed.

(** ** A build from end to end *)

(** The example of the specification, run on the demonstration host:
    only [index.js] is selected; it is compiled to [index.jsc] and
    replaced by the stub; [utils.js] is written as it was; the report
    lists one file. *)
Example index_build :
  bytecodePlugin production_env index_options = Some index_plugin
  ∧ configResolved index_plugin main_config
    = ({| _chunkAlias := [lit "index"]; transformArrowFunctions := true;
          removeBundleJS := true; bytecodeChunks := []; config := Some main_config;
          useInRenderer := false; bytecodeFiles := [] |}, [])
  ∧ @renderChunk Demo.host (configResolved index_plugin main_config).1
      index_code index_rendered
    = (index_rendered_plugin, Some index_code)
  ∧ @renderChunk Demo.host index_rendered_plugin utils_code utils_rendered
    = (index_rendered_plugin, None)
  ∧ ef_fileName <$> generateBundle index_rendered_plugin = [lit "bytecode-loader.js"]
  ∧ @writeBundle Demo.host index_rendered_plugin ∅ (lit "out/main") index_output 1
    = Some (with_files index_rendered_plugin [(lit "index.jsc", 46)],
            Ok [(lit "index.js",
                 Done [WriteBuffer (lit "/app/out/main/index.jsc")
                         (default x00 ∘ Byte.of_N <$> index_code);
                       WriteFile (lit "/app/out/main/index.js")
                         (stub_template (lit "index.js"))]
                      [(lit "index.jsc", 46)]);
                (lit "utils.js",
                 Done [WriteFile (lit "/app/out/main/utils.js") utils_code] []);
                (lit "bytecode-loader.js", Done [] [])])
  ∧ @closeBundle Demo.host (with_files index_rendered_plugin [(lit "index.jsc", 46)])
    = Ok (index_rendered_plugin,
          [LogSummary 1; LogFile (lit "out/main/") (lit "index.jsc") 46 false]).
Proof. by vm_compute. Qed.


(** * Further properties of the bytecode plugin *)

(** ** The compiler client: how the promise settles *)

Lemma run_events_app st evs1 evs2 :
  run_events st (evs1 ++ evs2) = run_events (run_events st evs1) evs2.
Proof. unfold run_events. apply foldl_app. Qed.

Lemma on_event_quiet st ev :
  cs_promise st = Pending →
  cs_promise (on_event st ev) = Pending ↔ quiet ev.
Proof.
  intros Hst. unfold quiet. destruct ev; simpl; rewrite ?Hst; simpl;
    (split; [intros ?; try discriminate; by split | intros [? Herr]; try done]).
  by destruct (Herr err).
Qed.

Lemma run_events_pending_iff evs : ∀ st,
  cs_promise st = Pending →
  cs_promise (run_events st evs) = Pending ↔ ∀ ev, ev ∈ evs → quiet ev.
Proof.
  induction evs as [|ev evs IH]; intros st Hst.
  - split; [by intros _ ev ?%elem_of_nil|done].
  - change (run_events st (ev :: evs)) with (run_events (on_event st ev) evs).
    destruct (cs_promise (on_event st ev)) eqn:Hev.
    + rewrite (IH _ Hev). apply (on_event_quiet st ev Hst) in Hev. split.
      * intros Hevs e [->|?]%elem_of_cons; auto.
      * intros Hevs e ?. apply Hevs. by apply list_elem_of_further.
    + rewrite run_events_settled by congruence. rewrite Hev. split; [done|].
      intros Hevs. pose proof (Hevs ev (list_elem_of_here _ _)) as Hq.
      apply (on_event_quiet st ev Hst) in Hq. congruence.
    + rewrite run_events_settled by congruence. rewrite Hev. split; [done|].
      intros Hevs. pose proof (Hevs ev (list_elem_of_here _ _)) as Hq.
      apply (on_event_quiet st ev Hst) in Hq. congruence.
Qed.

(** X1.  The promise of [compileToBytecode] settles once: when it is
    resolved or rejected after some events of the compiler process, no
    event that follows changes it. *)
Theorem compile_settles_once `{Host} (code : jsstring) (pre post : list event) :
  subprocess code = pre ++ post →
  cs_promise (run_events compile_init pre) ≠ Pending →
  cs_promise (compileToBytecode code) = cs_promise (run_events compile_init pre).
Proof.
  intros Hevs Hpre. unfold compileToBytecode.
  by rewrite Hevs, run_events_app, run_events_settled.
Qed.

Lemma compile_settles_once_witness :
  cs_promise (@compileToBytecode Demo.host (lit "void 0;"))
  = cs_promise (run_events compile_init
      [StdoutData [x76; x6f; x69; x64]; StderrData []; StdoutData [x20; x30; x3b];
       StdoutEnd]).
Proof.
  apply (@compile_settles_once Demo.host (lit "void 0;") _ [ProcExit 0]).
  - reflexivity.
  - discriminate.
Defined.

(** X2.  The promise of [compileToBytecode] stays pending exactly when
    the compiler process never ends its output, never exits and never
    reports an error: there is no timeout. *)
Theorem compile_pending_iff `{Host} (code : jsstring) :
  cs_promise (compileToBytecode code) = Pending ↔
  ∀ ev, ev ∈ subprocess code → settles ev = false ∧ ∀ err, ev ≠ ProcError err.
Proof. unfold compileToBytecode. by apply run_events_pending_iff. Qed.

(** X3.  When the first event of the compiler process that is an end of
    output, an exit or an error is an error, the promise is rejected with
    that error, whatever follows. *)
Theorem compile_rejects_first_error `{Host} (code : jsstring) pre err rest :
  subprocess code = pre ++ ProcError err :: rest →
  (∀ ev, ev ∈ pre → settles ev = false ∧ ∀ e, ev ≠ ProcError e) →
  cs_promise (compileToBytecode code) = Rejected err.
Proof.
  intros Hevs Hpre. unfold compileToBytecode.
  rewrite Hevs, run_events_app.
  apply (run_events_pending_iff pre compile_init eq_refl) in Hpre.
  change (run_events ?st (ProcError err :: rest))
    with (run_events (on_event st (ProcError err)) rest).
  rewrite run_events_settled; simpl; by rewrite Hpre.
Qed.

Lemma compile_rejects_first_error_witness :
  cs_promise (@compileToBytecode failing_host (lit "void 0;")) = Rejected (SpawnError 2).
Proof.
  apply (@compile_rejects_first_error failing_host (lit "void 0;")
           [StderrData [x21]] (SpawnError 2) [ProcExit 1]).
  - reflexivity.
  - intros ev ->%list_elem_of_singleton. by split.
Defined.

(** ** writeBundle: the files it touches *)

(** The ways in which the work on one entry of the bundle ends with
    files written. *)
Lemma processChunk_Done `{Host} (p : Plugin) graph outDir bytecodeRE fuel
    (name : jsstring) (item : OutputItem) ops files :
  processChunk p graph outDir bytecodeRE fuel name item = Some (Done ops files) →
  (item = ItemAsset ∧ ops = [] ∧ files = [])
  ∨ (∃ chunk bytecodeBuffer,
       item = ItemChunk chunk ∧ name ∈ bytecodeChunks p
       ∧ files = [(name ++ lit "c", length bytecodeBuffer)]
       ∧ ops = WriteBuffer (path_resolve outDir (name ++ lit "c")) bytecodeBuffer
               :: (if oc_isEntry chunk then
                     (if removeBundleJS p then []
                      else [keepBundle (path_resolve outDir name)])
                     ++ [WriteFile (path_resolve outDir name) (entry_stub name)]
                   else if removeBundleJS p then [UnlinkFile (path_resolve outDir name)]
                   else [keepBundle (path_resolve outDir name)]))
  ∨ (∃ chunk _code,
       item = ItemChunk chunk ∧ (name ∉ bytecodeChunks p) ∧ files = []
       ∧ ops = [WriteFile (path_resolve outDir name) _code]).
Proof.
  unfold processChunk. destruct item as [chunk|]; [|intros [= <- <-]; by left].
  destruct (rewriteReferences bytecodeRE (oc_code chunk)) as [[_code|e]|]; try done.
  unfold includes. case_bool_decide as Hin.
  - destruct (cs_promise (compileToBytecode _code)) as [|bytecodeBuffer|e]; try done.
    intros [= <- <-]. right. left. by exists chunk, bytecodeBuffer.
  - destruct (oc_isEntry chunk).
    + destruct (propagate p graph fuel chunk _code) as [_code'|]; [|done].
      intros [= <- <-]. right. right. by exists chunk, _code'.
    + intros [= <- <-]. right. right. by exists chunk, _code.
Qed.

(** A run of [writeBundle] that does not return at once works on every
    entry of the bundle. *)
Lemma writeBundle_outcomes `{Host} (p : Plugin) graph outDir output fuel p' outcomes :
  writeBundle p graph outDir output fuel = Some (p', Ok outcomes) →
  (outcomes = [] ∧ p' = p ∧ (useInRenderer p = true ∨ bytecodeChunks p = []))
  ∨ (∃ bytecodeRE,
       RegExp_new (bytecodeRE_source (bytecodeChunks p)) = Some bytecodeRE
       ∧ Forall2 (λ (kv : jsstring * OutputItem) (no : jsstring * chunk_outcome),
                    no.1 = kv.1
                    ∧ processChunk p graph outDir bytecodeRE fuel kv.1 kv.2 = Some no.2)
           output outcomes
       ∧ p' = with_files p (concat ((λ no, outcome_files no.2) <$> outcomes))).
Proof.
  unfold writeBundle.
  destruct (useInRenderer p) eqn:Huse; simpl.
  { intros [= <- <-]. left. auto. }
  destruct (Nat.eqb_spec (length (bytecodeChunks p)) 0) as [Hlen|Hlen].
  { intros [= <- <-]. left. apply length_zero_iff_nil in Hlen. auto. }
  destruct (RegExp_new (bytecodeRE_source (bytecodeChunks p))) as [bytecodeRE|]; [|done].
  destruct (mapM _ output) as [outcomes'|] eqn:Hmap; [|done].
  simpl. intros [= <- <-]. right. exists bytecodeRE. split; [done|]. split; [|done].
  apply mapM_Some in Hmap. eapply Forall2_impl; [exact Hmap|].
  intros kv no Hno. simpl in Hno.
  destruct (processChunk p graph outDir bytecodeRE fuel kv.1 kv.2); [|done].
  injection Hno as <-. done.
Qed.

Lemma fs_ops_elem `{Host} (p : Plugin) graph outDir bytecodeRE fuel output outcomes op :
  Forall2 (λ (kv : jsstring * OutputItem) (no : jsstring * chunk_outcome),
             no.1 = kv.1
             ∧ processChunk p graph outDir bytecodeRE fuel kv.1 kv.2 = Some no.2)
    output outcomes →
  op ∈ fs_ops (Ok outcomes) →
  ∃ name item ops files,
    (name, item) ∈ output
    ∧ processChunk p graph outDir bytecodeRE fuel name item = Some (Done ops files)
    ∧ op ∈ ops.
Proof.
  intros Hall. simpl. induction Hall as [|[name item] [name' o] output outcomes [_ Ho] _ IH].
  - by intros ?%elem_of_nil.
  - simpl in *. rewrite elem_of_app. intros [Hop|Hop].
    + destruct o as [ops files| |]; simpl in Hop; try by apply elem_of_nil in Hop.
      exists name, item, ops, files. split; [apply list_elem_of_here|done].
    + destruct (IH Hop) as (n & i & ops & files & ? & ? & ?).
      exists n, i, ops, files. split; [by apply list_elem_of_further|done].
Qed.

(** X4.  Every file operation of [writeBundle] is on a chunk of the
    bundle: a deletion only with [removeBundleJS], of the file of a
    compiled chunk that is no entry; a renaming only without it, of the
    file of a compiled chunk, to the same name with [_] before it; a
    bytecode file only for a compiled chunk, under its name plus [c]; a
    text file only under the name of a chunk.  Assets are never
    touched. *)
Theorem writeBundle_touches_chunks_only `{Host} (p : Plugin) graph outDir output fuel
    p' outcomes op :
  writeBundle p graph outDir output fuel = Some (p', Ok outcomes) →
  op ∈ fs_ops (Ok outcomes) →
  ∃ name chunk,
    (name, ItemChunk chunk) ∈ output
    ∧ match op with
      | UnlinkFile file =>
          removeBundleJS p = true ∧ name ∈ bytecodeChunks p
          ∧ oc_isEntry chunk = false ∧ file = path_resolve outDir name
      | RenameFile oldPath newPath =>
          removeBundleJS p = false ∧ name ∈ bytecodeChunks p
          ∧ oldPath = path_resolve outDir name
          ∧ newPath = path_resolve (path_dirname oldPath) (lit "_" ++ path_basename oldPath)
      | WriteBuffer file _ =>
          name ∈ bytecodeChunks p ∧ file = path_resolve outDir (name ++ lit "c")
      | WriteFile file _ => file = path_resolve outDir name
      end.
Proof.
  intros Hrun Hop.
  apply writeBundle_outcomes in Hrun as [(-> & _)|(bytecodeRE & _ & Hall & _)].
  { by apply elem_of_nil in Hop. }
  destruct (fs_ops_elem _ _ _ _ _ _ _ _ Hall Hop) as (name & item & ops & files & Hin & Hdone & Hops).
  apply processChunk_Done in Hdone
    as [(_ & -> & _)|[(chunk & buf & -> & Hc & _ & ->)|(chunk & _code & -> & _ & _ & ->)]].
  - by apply elem_of_nil in Hops.
  - exists name, chunk. split; [done|].
    apply elem_of_cons in Hops as [->|Hops]; [done|].
    destruct (oc_isEntry chunk) eqn:Hentry, (removeBundleJS p) eqn:Hrm; simpl in Hops;
      repeat (apply elem_of_cons in Hops as [->|Hops]; [done|]);
      by apply elem_of_nil in Hops.
  - exists name, chunk. split; [done|].
    apply list_elem_of_singleton in Hops as ->. done.
Qed.

(** X5.  After a run of [writeBundle] that does not return at once,
    every file in the report list was written in this run: its name is
    the name of a compiled chunk plus [c], and its size is the length of
    the buffer written under that name. *)
Theorem writeBundle_reports_written `{Host} (p : Plugin) graph outDir output fuel
    p' outcomes (name : jsstring) (size : nat) :
  writeBundle p graph outDir output fuel = Some (p', Ok outcomes) →
  useInRenderer p = false →
  bytecodeChunks p ≠ [] →
  (name, size) ∈ bytecodeFiles p' →
  ∃ chunkName bytecodeBuffer,
    name = chunkName ++ lit "c" ∧ chunkName ∈ bytecodeChunks p
    ∧ size = length bytecodeBuffer
    ∧ WriteBuffer (path_resolve outDir name) bytecodeBuffer ∈ fs_ops (Ok outcomes).
Proof.
  intros Hrun Huse Hne Hfile.
  apply writeBundle_outcomes in Hrun as [(_ & _ & [?|?])|(bytecodeRE & _ & Hall & ->)];
    [congruence..|].
  simpl in *. clear Huse Hne.
  induction Hall as [|[n item] [n' o] output outcomes [_ Ho] _ IH].
  - by apply elem_of_nil in Hfile.
  - simpl in *. rewrite elem_of_app in Hfile. destruct Hfile as [Hfile|Hfile].
    + destruct o as [ops files| |]; simpl in Hfile; try by apply elem_of_nil in Hfile.
      apply processChunk_Done in Ho
        as [(_ & _ & ->)|[(chunk & buf & _ & Hc & -> & ->)|(chunk & _code & _ & _ & -> & _)]];
        try by apply elem_of_nil in Hfile.
      apply list_elem_of_singleton in Hfile as [= -> ->].
      exists n, buf. repeat split; try done.
      apply elem_of_app. left. apply list_elem_of_here.
    + destruct (IH Hfile) as (c & buf & ? & ? & ? & ?).
      exists c, buf. repeat split; try done. apply elem_of_app. by right.
Qed.

Lemma writeBundle_touches_chunks_only_witness :
  ∃ name chunk,
    (name, ItemChunk chunk) ∈ index_output
    ∧ name ∈ bytecodeChunks index_rendered_plugin
    ∧ lit "/app/out/main/index.jsc" = Demo.resolve_path (lit "out/main") (name ++ lit "c").
Proof.
  apply (@writeBundle_touches_chunks_only Demo.host index_rendered_plugin ∅
           (lit "out/main") index_output 1
           (with_files index_rendered_plugin [(lit "index.jsc", 46)]) index_outcomes
           (WriteBuffer (lit "/app/out/main/index.jsc")
              (default x00 ∘ Byte.of_N <$> index_code))).
  - vm_compute. reflexivity.
  - vm_compute. apply list_elem_of_here.
Defined.

Lemma writeBundle_reports_written_witness :
  ∃ chunkName bytecodeBuffer,
    lit "index.jsc" = chunkName ++ lit "c"
    ∧ chunkName ∈ bytecodeChunks index_rendered_plugin
    ∧ 46 = length bytecodeBuffer
    ∧ WriteBuffer (Demo.resolve_path (lit "out/main") (lit "index.jsc")) bytecodeBuffer
      ∈ fs_ops (Ok index_outcomes).
Proof.
  apply (@writeBundle_reports_written Demo.host index_rendered_plugin ∅
           (lit "out/main") index_output 1
           (with_files index_rendered_plugin [(lit "index.jsc", 46)]) index_outcomes
           (lit "index.jsc") 46).
  - vm_compute. reflexivity.
  - reflexivity.
  - discriminate.
  - vm_compute. apply list_elem_of_here.
Defined.

(** ** The selection phase *)

Lemma selected_with_chunks (p : Plugin) l chunk :
  selected (with_chunks p l) chunk = selected p chunk.
Proof. done. Qed.

Lemma renderChunk_plugin `{Host} (p : Plugin) code chunk :
  useInRenderer p = false →
  (renderChunk p code chunk).1
  = if selected p chunk then with_chunks p (bytecodeChunks p ++ [rc_fileName chunk]) else p.
Proof.
  intros Huse. unfold renderChunk, selected. rewrite Huse.
  destruct (rc_type chunk); [|done].
  destruct (isBytecodeChunk p (rc_name chunk)); [|done].
  by destruct (transformArrowFunctions p).
Qed.

Lemma render_all_chunks `{Host} chunks : ∀ p,
  useInRenderer p = false →
  render_all p chunks
  = with_chunks p (bytecodeChunks p
                   ++ (rc_fileName <$> List.filter (selected p) (snd <$> chunks))).
Proof.
  induction chunks as [|[code chunk] chunks IH]; intros p Huse.
  - simpl. rewrite app_nil_r. by destruct p.
  - unfold render_all in *. simpl. rewrite renderChunk_plugin by done.
    destruct (selected p chunk) eqn:Hsel.
    + rewrite IH by done. simpl. by rewrite <- app_assoc.
    + by rewrite IH.
Qed.

(** X6.  Outside a renderer build, passing the chunks of a build through
    [renderChunk] appends to the list of compiled chunks the file names
    of exactly the chunks that are selected, in their order, and changes
    nothing else of the plugin; [generateBundle] then emits the loader
    unless that list is empty. *)
Theorem render_all_selects `{Host} (p : Plugin) (chunks : list (jsstring * RenderedChunk)) :
  useInRenderer p = false →
  render_all p chunks
  = with_chunks p (bytecodeChunks p
                   ++ (rc_fileName <$> List.filter (selected p) (snd <$> chunks)))
  ∧ (generateBundle (render_all p chunks) = [] ↔
     bytecodeChunks p = [] ∧ ∀ cc, cc ∈ chunks → selected p cc.2 = false).
Proof.
  intros Huse. split; [by apply render_all_chunks|].
  rewrite render_all_chunks by done. unfold generateBundle. simpl. rewrite Huse. simpl.
  set (l := bytecodeChunks p ++ _).
  assert (l = [] ↔ bytecodeChunks p = [] ∧ ∀ cc, cc ∈ chunks → selected p cc.2 = false)
    as <-.
  { unfold l. split.
    - intros [-> Hf]%app_eq_nil. split; [done|].
      apply fmap_nil_inv in Hf. intros cc Hcc.
      destruct (selected p cc.2) eqn:Hsel; [|done].
      assert (In cc.2 (List.filter (selected p) (snd <$> chunks))) as Hin.
      { apply filter_In. split; [|done].
        apply list_elem_of_In, list_elem_of_fmap. by exists cc. }
      rewrite Hf in Hin. done.
    - intros [-> Hall]. simpl.
      induction chunks as [|cc chunks IH]; [done|]. simpl.
      rewrite (Hall cc) by apply list_elem_of_here.
      apply IH. intros cc' ?. by apply Hall, list_elem_of_further. }
  destruct l; simpl; split; done.
Qed.

Lemma render_all_selects_witness :
  @render_all Demo.host (configResolved index_plugin main_config).1
    [(index_code, index_rendered); (utils_code, utils_rendered)]
  = with_chunks (configResolved index_plugin main_config).1
      (bytecodeChunks (configResolved index_plugin main_config).1
       ++ (rc_fileName <$> List.filter (selected (configResolved index_plugin main_config).1)
                             (snd <$> [(index_code, index_rendered);
                                       (utils_code, utils_rendered)])))
  ∧ (generateBundle (@render_all Demo.host (configResolved index_plugin main_config).1
                       [(index_code, index_rendered); (utils_code, utils_rendered)]) = [] ↔
     bytecodeChunks (configResolved index_plugin main_config).1 = []
     ∧ ∀ cc, cc ∈ [(index_code, index_rendered); (utils_code, utils_rendered)] →
             selected (configResolved index_plugin main_config).1 cc.2 = false).
Proof.
  apply (@render_all_selects Demo.host). reflexivity.
Defined.

(** ** The report *)

(** X7.  Outside a renderer build and with the configuration resolved,
    [closeBundle] logs a summary and one line for each file of the report
    list, and empties the list: a second [closeBundle] reports no
    file. *)
Theorem closeBundle_reports_once `{Host} (p : Plugin) (cfg : ResolvedConfig) :
  useInRenderer p = false →
  config p = Some cfg →
  ∃ logs,
    closeBundle p = Ok (with_files p [], LogSummary (length (bytecodeFiles p)) :: logs)
    ∧ length logs = length (bytecodeFiles p)
    ∧ closeBundle (with_files p []) = Ok (with_files p [], [LogSummary 0]).
Proof.
  intros Huse Hcfg. unfold closeBundle. simpl. rewrite Huse, Hcfg.
  eexists. split; [done|]. split; [by rewrite length_fmap|done].
Qed.

Lemma closeBundle_reports_once_witness :
  ∃ logs,
    @closeBundle Demo.host (with_files index_rendered_plugin [(lit "index.jsc", 46)])
    = Ok (with_files (with_files index_rendered_plugin [(lit "index.jsc", 46)]) [],
          LogSummary (length (bytecodeFiles
                        (with_files index_rendered_plugin [(lit "index.jsc", 46)]))) :: logs)
    ∧ length logs
      = length (bytecodeFiles (with_files index_rendered_plugin [(lit "index.jsc", 46)]))
    ∧ @closeBundle Demo.host
        (with_files (with_files index_rendered_plugin [(lit "index.jsc", 46)]) [])
      = Ok (with_files (with_files index_rendered_plugin [(lit "index.jsc", 46)]) [],
            [LogSummary 0]).
Proof.
  apply (@closeBundle_reports_once Demo.host _ main_config); reflexivity.
Defined.

(** ** Propagation: what it misses *)

Lemma startsWith_Some (s p : jsstring) :
  startsWith s p = true → s = p ++ drop (length p) s.
Proof.
  revert s. induction p as [|c p IH]; intros s; [done|].
  destruct s as [|d s]; [done|]. simpl.
  intros [->%bool_decide_eq_true Hs]%andb_true_iff. f_equal. by apply IH.
Qed.

Lemma indexOf_Some (s p : jsstring) : ∀ i,
  indexOf s p = Some i → s = take i s ++ p ++ drop (i + length p) s.
Proof.
  induction s as [|c s IH]; intros i.
  - unfold indexOf. destruct (startsWith [] p) eqn:Hs; [|discriminate].
    intros [= <-]. by apply startsWith_Some in Hs.
  - change (indexOf (c :: s) p)
      with (if startsWith (c :: s) p then Some 0 else S <$> indexOf s p).
    destruct (startsWith (c :: s) p) eqn:Hs.
    + intros [= <-]. by apply startsWith_Some in Hs.
    + destruct (indexOf s p) as [j|] eqn:Hj; [|discriminate]. intros [= <-].
      change (c :: s = c :: (take j s ++ p ++ drop (j + length p) s)).
      f_equal. by apply IH.
Qed.

(** X8.  An entry chunk whose code does not hold the text
    ["use strict";] is written as it is, whether or not it needs the
    loader: the replacement has nothing to replace. *)
Theorem propagate_without_prologue (p : Plugin) (graph : gmap (list N) ModuleInfo)
    (fuel : nat) (chunk : OutputChunk) (_code : jsstring) :
  length ((oc_imports chunk ++ oc_dynamicImports chunk) ++ graph_ids graph) < fuel →
  (∀ pre post, _code ≠ pre ++ litq "`use strict`;" ++ post) →
  propagate p graph fuel chunk _code = Some _code.
Proof.
  intros Hfuel Hnone.
  set (seeds := oc_imports chunk ++ oc_dynamicImports chunk) in *.
  destruct (propagate_loop_ends graph (bytecodeChunks p) (seeds ++ graph_ids graph)
              fuel (Set_new seeds) 0)
    as (found & ids & Hrun & _).
  { apply Set_new_NoDup. }
  { intros id Hid. apply (proj1 (Set_new_elem seeds id)) in Hid. apply elem_of_app. by left. }
  { intros id ?. apply elem_of_app. by right. }
  { lia. }
  { lia. }
  unfold propagate. fold seeds. rewrite Hrun. destruct found; [|done].
  unfold replace. destruct (indexOf _code (litq "`use strict`;")) as [i|] eqn:Hi; [|done].
  apply indexOf_Some in Hi. by destruct (Hnone _ _ Hi).
Qed.

Lemma propagate_without_prologue_witness :
  propagate c_plugin cyclic_graph 10 esm_entry (oc_code esm_entry)
  = Some (oc_code esm_entry).
Proof.
  apply (propagate_without_prologue c_plugin cyclic_graph 10 esm_entry).
  - vm_compute. lia.
  - intros pre post Heq.
    assert (34%N ∈ oc_code esm_entry) as Hin.
    { rewrite Heq. apply elem_of_app. right. apply list_elem_of_here. }
    vm_compute in Hin.
    repeat (apply elem_of_cons in Hin as [Hin|Hin]; [discriminate|]).
    by apply elem_of_nil in Hin.
Defined.

Lemma frontier_of_leaves (graph : gmap (list N) ModuleInfo) (seeds : list jsstring) :
  (∀ id info, id ∈ seeds → graph !! id = Some info → isExternal info = true) →
  ∀ id, frontier graph seeds id → id ∈ seeds.
Proof.
  intros Hleaves id Hid.
  induction Hid as [id Hid|id info importerId _ IHid Hinfo Hext _]; [done|].
  rewrite (Hleaves id info IHid Hinfo) in Hext. done.
Qed.

(** X9.  When none of an entry's imports is the id of a module of the
    graph that is not external (chunk file names, as a rule, are no
    module ids), the entry is marked exactly when one of its direct
    static or dynamic imports is a compiled chunk: compiled chunks
    further down are not seen. *)
Theorem propagate_direct_imports (graph : gmap (list N) ModuleInfo)
    (compiled : list jsstring) (fuel : nat) (chunk : OutputChunk) :
  let seeds := oc_imports chunk ++ oc_dynamicImports chunk in
  length (seeds ++ graph_ids graph) < fuel →
  (∀ id info, id ∈ seeds → graph !! id = Some info → isExternal info = true) →
  ∃ found ids,
    propagate_loop graph compiled fuel (Set_new seeds) 0 = Some (found, ids)
    ∧ (found = true ↔ ∃ id, id ∈ seeds ∧ id ∈ compiled).
Proof.
  intros seeds Hfuel Hleaves.
  destruct (propagate_loop_ends graph compiled (seeds ++ graph_ids graph)
              fuel (Set_new seeds) 0)
    as (found & ids & Hrun & _).
  { apply Set_new_NoDup. }
  { intros id Hid. apply (proj1 (Set_new_elem seeds id)) in Hid. apply elem_of_app. by left. }
  { intros id ?. apply elem_of_app. by right. }
  { lia. }
  { lia. }
  exists found, ids. split; [done|].
  destruct (propagate_loop_decides graph compiled seeds fuel
              (Set_new seeds) 0 found ids Hrun) as [Hsound Hdec].
  { intros id Hid. apply (proj1 (Set_new_elem seeds id)) in Hid. by apply frontier_seed. }
  { intros id ?. by apply Set_new_elem. }
  { intros j m Hj. lia. }
  destruct found.
  - split; [intros _|done]. destruct Hdec as (id & Hid & Hc).
    exists id. split; [|done]. by apply (frontier_of_leaves graph seeds Hleaves), Hsound.
  - split; [done|]. intros (id & Hid & Hc).
    by destruct (Hdec id (frontier_seed graph seeds id Hid)).
Qed.

Lemma propagate_direct_imports_witness :
  ∃ found ids,
    propagate_loop cyclic_graph (bytecodeChunks c_plugin) 10
      (Set_new (oc_imports esm_entry ++ oc_dynamicImports esm_entry)) 0
    = Some (found, ids)
    ∧ (found = true ↔
       ∃ id, id ∈ oc_imports esm_entry ++ oc_dynamicImports esm_entry
             ∧ id ∈ bytecodeChunks c_plugin).
Proof.
  apply (propagate_direct_imports cyclic_graph (bytecodeChunks c_plugin) 10 esm_entry).
  - vm_compute. lia.
  - intros id info Hid Hinfo. apply list_elem_of_singleton in Hid. subst id.
    vm_compute in Hinfo. by injection Hinfo as <-.
Defined.

(** ** The loader: patching twice, and negative lengths *)

Lemma copy_idempotent (source target : buffer) targetStart :
  Loader.copy source (Loader.copy source target targetStart) targetStart
  = Loader.copy source target targetStart.
Proof.
  apply list_eq. intros i.
  destruct (decide (i < targetStart)) as [Hlt|Hge].
  { by rewrite !copy_lookup_before. }
  destruct (decide (targetStart + length source ≤ i)) as [Hafter|Hin].
  { by rewrite !copy_lookup_after. }
  destruct (decide (i < length target)) as [Hlen|Hlen].
  - rewrite !copy_lookup_inside; [done|lia..|lia|]; rewrite ?copy_length; lia.
  - rewrite !(proj2 (lookup_ge_None _ _)); [done|rewrite ?copy_length; lia..].
Qed.

(** X10.  Once [setFlagHashHeader] has run, running it again on the
    buffer it left changes neither the buffer nor the variable
    [dummyBytecode], whatever compiling the empty script would now
    yield: the reference compilation is made once. *)
Theorem setFlagHashHeader_idempotent (reference reference' : buffer)
    (dummyBytecode : option buffer) (bytecodeBuffer : buffer) :
  Loader.setFlagHashHeader reference'
    (Loader.setFlagHashHeader reference dummyBytecode bytecodeBuffer).1
    (Loader.setFlagHashHeader reference dummyBytecode bytecodeBuffer).2
  = Loader.setFlagHashHeader reference dummyBytecode bytecodeBuffer.
Proof.
  unfold Loader.setFlagHashHeader. simpl. f_equal. apply copy_idempotent.
Qed.

(** X11.  The length that the loader reads from the source-hash field is
    a 32-bit signed integer; it is negative exactly when byte 11 of the
    file is 128 or more, and then the placeholder source is the empty
    string. *)
Theorem source_length_sign (reference : buffer) (dummyBytecode : option buffer)
    (bytecodeBuffer : buffer) :
  let L := Loader.buffer2Number
             (Loader.getSourceHashHeader
                (Loader.setFlagHashHeader reference dummyBytecode bytecodeBuffer).2) in
  (-2147483648 ≤ L < 2147483648)%Z
  ∧ ((L < 0)%Z ↔ (128 ≤ byte_value bytecodeBuffer 11)%Z)
  ∧ ((L < 0)%Z → (Loader.load reference dummyBytecode bytecodeBuffer).2 = []).
Proof.
  intros L.
  assert (L = signed32 (uint32_le bytecodeBuffer 8)) as HL.
  { unfold L. rewrite buffer2Number_le, !source_hash_at by lia. done. }
  pose proof (at_range (Loader.getSourceHashHeader
    (Loader.setFlagHashHeader reference dummyBytecode bytecodeBuffer).2) 0) as H0.
  pose proof (at_range (Loader.getSourceHashHeader
    (Loader.setFlagHashHeader reference dummyBytecode bytecodeBuffer).2) 1) as H1.
  pose proof (at_range (Loader.getSourceHashHeader
    (Loader.setFlagHashHeader reference dummyBytecode bytecodeBuffer).2) 2) as H2.
  pose proof (at_range (Loader.getSourceHashHeader
    (Loader.setFlagHashHeader reference dummyBytecode bytecodeBuffer).2) 3) as H3.
  rewrite source_hash_at in H0, H1, H2, H3 by lia. simpl in H0, H1, H2, H3.
  unfold uint32_le in HL. simpl in HL.
  split; [|split].
  - rewrite HL. unfold signed32. case_match; lia.
  - rewrite HL. unfold signed32. case_match eqn:Hcmp.
    + apply Z.ltb_lt in Hcmp. lia.
    + apply Z.ltb_ge in Hcmp. lia.
  - intros Hneg.
    change ((Loader.load reference dummyBytecode bytecodeBuffer).2)
      with (Loader.dummyCode L).
    unfold Loader.dummyCode. destruct (Z.ltb_spec 1 L); [lia|done].
Qed.

Lemma source_length_sign_witness :
  let L := Loader.buffer2Number
             (Loader.getSourceHashHeader
                (Loader.setFlagHashHeader reference_data None module_artifact).2) in
  (-2147483648 ≤ L < 2147483648)%Z
  ∧ ((L < 0)%Z ↔ (128 ≤ byte_value module_artifact 11)%Z)
  ∧ ((L < 0)%Z → (Loader.load reference_data None module_artifact).2 = []).
Proof.
  apply (source_length_sign reference_data None module_artifact).
Defined.

(** * The preset plugins *)

Section PresetProperties.
Context `{Electron}.

Lemma flat_map_elem {A B} (f : A → list B) (l : list A) (y : B) :
  y ∈ flat_map f l ↔ ∃ x, x ∈ l ∧ y ∈ f x.
Proof.
  rewrite list_elem_of_In, in_flat_map. split.
  - intros (x & Hx & Hy). exists x. by rewrite !list_elem_of_In.
  - intros (x & Hx & Hy). exists x. by rewrite <- !list_elem_of_In.
Qed.

Lemma electron_externals_elem (m : jsstring) :
  m ∈ electron_externals ↔
  m = lit "electron" ∨ ∃ b, b ∈ builtinModules ∧ (m = b ∨ m = lit "node:" ++ b).
Proof.
  unfold electron_externals. rewrite elem_of_cons, flat_map_elem.
  split; (intros [?|(b & Hb & Hm)]; [by left|right; exists b; split; [done|]]).
  - apply elem_of_cons in Hm as [?|Hm]; [by left|].
    apply list_elem_of_singleton in Hm. by right.
  - destruct Hm as [->| ->]; [apply list_elem_of_here|].
    apply list_elem_of_further, list_elem_of_here.
Qed.

(** X12.  The main and the preload preset leave the same list of
    external modules: the user's, in their order, then [electron] and
    every builtin module of Node under its name and under [node:] plus
    its name.  Nothing the user listed is dropped, and nothing else is
    added. *)
Theorem preset_externals (_options : option ElectronPluginOptions)
    (options : EsbuildOptions) :
  eo_external (preload_esbuildOptions _options options)
  = eo_external (main_esbuildOptions _options options)
  ∧ ∃ external,
      eo_external (main_esbuildOptions _options options) = Some external
      ∧ default [] (eo_external options) `prefix_of` external
      ∧ ∀ m, m ∈ external ↔
             m ∈ default [] (eo_external options)
             ∨ m = lit "electron"
             ∨ ∃ b, b ∈ builtinModules ∧ (m = b ∨ m = lit "node:" ++ b).
Proof.
  split; [done|]. eexists. split; [done|]. split; [by eexists|].
  intros m. by rewrite elem_of_app, electron_externals_elem.
Qed.

(** X13.  The format the main and the preload preset leave is the
    user's when there is one; otherwise it is [esm] exactly when the
    package file exists, has the type [module] and Electron supports ES
    modules, and [cjs] in every other case. *)
Theorem preset_format (_options : option ElectronPluginOptions)
    (options : EsbuildOptions) :
  eo_format (preload_esbuildOptions _options options)
  = eo_format (main_esbuildOptions _options options)
  ∧ (∀ f, eo_format options = Some f →
          eo_format (main_esbuildOptions _options options) = Some f)
  ∧ (eo_format options = None →
     eo_format (main_esbuildOptions _options options)
     = Some (if bool_decide (loadPackageData ≫= pkg_type = Some (lit "module"))
                && supportESM
             then Esm else Cjs)).
Proof.
  split; [done|]. split.
  - intros f Hf. simpl. by rewrite Hf.
  - intros Hf. simpl. rewrite Hf. unfold package_format.
    by destruct loadPackageData as [[?]|].
Qed.

(** X14.  The preload preset differs from the main preset in the
    injected files only: when the format it leaves is [esm] the two
    agree on every option; otherwise the preload preset leaves the
    user's [inject] as it is, where the main preset still appends the
    shim. *)
Theorem preload_inject (_options : option ElectronPluginOptions)
    (options : EsbuildOptions) :
  (eo_format (preload_esbuildOptions _options options) = Some Esm →
   preload_esbuildOptions _options options = main_esbuildOptions _options options)
  ∧ (eo_format (preload_esbuildOptions _options options) ≠ Some Esm →
     eo_inject (preload_esbuildOptions _options options) = eo_inject options
     ∧ eo_inject (main_esbuildOptions _options options)
       = Some (default [] (eo_inject options) ++ [electron_shim])).
Proof.
  unfold preload_esbuildOptions, main_esbuildOptions. simpl. split.
  - intros Hf. by rewrite Hf.
  - intros Hf. split; [|done].
    destruct (eo_format options) as [[]|]; [done..| |]; [done|].
    by destruct package_format.
Qed.

End PresetProperties.

Lemma preset_format_witness :
  @eo_format (@preload_esbuildOptions demo_electron None empty_esbuild)
  = @eo_format (@main_esbuildOptions demo_electron None empty_esbuild)
  ∧ (∀ f, eo_format empty_esbuild = Some f →
          eo_format (@main_esbuildOptions demo_electron None empty_esbuild) = Some f)
  ∧ (eo_format empty_esbuild = None →
     eo_format (@main_esbuildOptions demo_electron None empty_esbuild)
     = Some (if bool_decide (@loadPackageData demo_electron ≫= pkg_type
                             = Some (lit "module"))
                && @supportESM demo_electron
             then Esm else Cjs)).
Proof.
  apply (@preset_format demo_electron None empty_esbuild).
Defined.

Lemma preload_inject_witness :
  (eo_format (@preload_esbuildOptions demo_electron None empty_esbuild) = Some Esm →
   @preload_esbuildOptions demo_electron None empty_esbuild
   = @main_esbuildOptions demo_electron None empty_esbuild)
  ∧ (eo_format (@preload_esbuildOptions demo_electron None empty_esbuild) ≠ Some Esm →
     eo_inject (@preload_esbuildOptions demo_electron None empty_esbuild)
     = eo_inject empty_esbuild
     ∧ eo_inject (@main_esbuildOptions demo_electron None empty_esbuild)
       = Some (default [] (eo_inject empty_esbuild) ++ [@electron_shim demo_electron])).
Proof.
  apply (@preload_inject demo_electron None empty_esbuild).
Defined.

(** * The check of the resolved renderer configuration *)

Lemma es_target_spec (t : jsstring) :
  es_target t = true ↔
  t = lit "esnext" ∨ ∃ d, is_digit d = true ∧ t = lit "es202" ++ [d].
Proof.
  split.
  - intros Ht. unfold es_target in Ht.
    destruct t as [|c0 [|c1 rest]]; [by repeat case_match..|].
    destruct (decide (c0 = 101%N)) as [->|]; [|by repeat case_match].
    destruct (decide (c1 = 115%N)) as [->|]; [|by repeat case_match].
    apply orb_true_iff in Ht as [Hn|Hd].
    + apply bool_decide_eq_true in Hn as ->. by left.
    + right. destruct rest as [|r0 [|r1 [|r2 [|r3 [|r4 rest]]]]];
        try (by repeat case_match).
      exists r3. repeat (case_match; try done).
  - intros [->|(d & Hd & ->)]; [done|].
    change (lit "es202" ++ [d]) with [101%N; 115%N; 50%N; 48%N; 50%N; d].
    unfold es_target. rewrite Hd. apply orb_true_r.
Qed.

Lemma bad_target_spec (t : jsstring) : bad_target t = false ↔ supported_target t.
Proof.
  unfold bad_target, supported_target. rewrite <- es_target_spec.
  destruct (startsWith t (lit "chrome")), (es_target t); simpl; intuition congruence.
Qed.

(** X15.  The check of the resolved renderer configuration passes
    exactly when [build.target] is set, every target starts with
    [chrome] or is [esnext] or one of [es2020] to [es2029], and
    [rollupOptions.input] is set.  The warning about [base] is logged
    whenever the base is neither [./] nor [/], also when the check then
    throws; the warning about the missing index.html is logged exactly
    when the error thrown is the one about the input. *)
Theorem renderer_check_outcome (config : RendererResolved) :
  ((renderer_configResolved config).2 = None ↔
   target_truthy (rr_target config) = true
   ∧ (∀ t, t ∈ targets_of (rr_target config) → supported_target t)
   ∧ input_truthy (rr_input config) = true)
  ∧ (WarnBase ∈ (renderer_configResolved config).1 ↔
     rr_base config ≠ lit "./" ∧ rr_base config ≠ lit "/")
  ∧ (WarnNoIndexHtml ∈ (renderer_configResolved config).1 ↔
     (renderer_configResolved config).2 = Some InputRequired).
Proof.
  unfold renderer_configResolved. fold (targets_of (rr_target config)).
  set (warnings := if _ && _ then [WarnBase] else []).
  assert (WarnBase ∈ warnings ↔ rr_base config ≠ lit "./" ∧ rr_base config ≠ lit "/")
    as Hbase.
  { unfold warnings. repeat case_bool_decide; simpl;
      rewrite ?list_elem_of_singleton, ?elem_of_nil; intuition congruence. }
  assert (WarnNoIndexHtml ∉ warnings) as Hno.
  { unfold warnings. case_match; [|apply not_elem_of_nil].
    by intros ?%list_elem_of_singleton. }
  assert (existsb bad_target (targets_of (rr_target config)) = false ↔
          ∀ t, t ∈ targets_of (rr_target config) → supported_target t) as Hts.
  { induction (targets_of (rr_target config)) as [|t ts IH]; simpl.
    - split; [|done]. by intros _ t ?%elem_of_nil.
    - rewrite orb_false_iff, IH, bad_target_spec. split.
      + intros [Ht Hall] t' [->|?]%elem_of_cons; auto.
      + intros Hall. split; [apply Hall, list_elem_of_here|].
        intros t' ?. by apply Hall, list_elem_of_further. }
  destruct (target_truthy (rr_target config)); simpl.
  2: { split; [|split; [done|]]; [intuition congruence|]. split; [done|discriminate]. }
  destruct (existsb bad_target (targets_of (rr_target config))) eqn:Hbad; simpl.
  { split; [|split; [done|]].
    - split; [done|]. intros (_ & Hall & _). apply Hts in Hall. congruence.
    - split; [done|discriminate]. }
  destruct (input_truthy (rr_input config)); simpl.
  - split; [|split; [done|]].
    + split; [|done]. intros _. split; [done|]. split; [|done]. by apply Hts.
    + split; [done|discriminate].
  - split; [|split].
    + split; [done|]. intros (_ & _ & ?). done.
    + rewrite elem_of_app, list_elem_of_singleton. rewrite Hbase. intuition congruence.
    + split; [done|]. intros _. apply elem_of_app. right. apply list_elem_of_here.
Qed.

Section PresetCheck.
Context `{Electron}.

(** X16.  When the resolved configuration keeps the target and the
    input that the renderer preset set, and Electron's Chrome target
    starts with [chrome], the check passes exactly when the file
    [src/renderer/index.html] exists under the root; otherwise it throws
    the error about the input, never one about the target. *)
Theorem preset_passes_check (options : option ElectronPluginOptions)
    (env : gmap (list N) (list N)) (config : UserConfig) (resolved : RendererResolved) :
  let preset := renderer_config_hook options env config in
  let index_html := path_resolve_all [preset_root options; lit "src"; lit "renderer";
                                      lit "index.html"] in
  rr_target resolved = Some (TargetString (bc_target (pc_build preset))) →
  rr_input resolved = Some (InputString (bc_input (pc_build preset))) →
  startsWith getElectronChromeTarget (lit "chrome") = true →
  (renderer_configResolved resolved).2
  = if fs_existsSync index_html && truthy index_html then None else Some InputRequired.
Proof.
  intros preset index_html Htarget Hinput Hchrome.
  change (bc_target (pc_build preset)) with getElectronChromeTarget in Htarget.
  change (bc_input (pc_build preset))
    with (if fs_existsSync index_html then index_html else []) in Hinput.
  assert (truthy getElectronChromeTarget = true) as Htruthy.
  { destruct getElectronChromeTarget; [done|]. unfold truthy.
    by rewrite bool_decide_eq_false_2. }
  unfold renderer_configResolved. rewrite Htarget, Hinput.
  unfold target_truthy, input_truthy. rewrite Htruthy. simpl.
  unfold bad_target. rewrite Hchrome. simpl.
  destruct (fs_existsSync index_html); simpl; [by destruct (truthy index_html)|done].
Qed.

End PresetCheck.

Lemma renderer_check_outcome_witness :
  ((renderer_configResolved resolved_demo).2 = None ↔
   target_truthy (rr_target resolved_demo) = true
   ∧ (∀ t, t ∈ targets_of (rr_target resolved_demo) → supported_target t)
   ∧ input_truthy (rr_input resolved_demo) = true)
  ∧ (WarnBase ∈ (renderer_configResolved resolved_demo).1 ↔
     rr_base resolved_demo ≠ lit "./" ∧ rr_base resolved_demo ≠ lit "/")
  ∧ (WarnNoIndexHtml ∈ (renderer_configResolved resolved_demo).1 ↔
     (renderer_configResolved resolved_demo).2 = Some InputRequired).
Proof.
  apply (renderer_check_outcome resolved_demo).
Defined.

Lemma preset_passes_check_witness :
  (renderer_configResolved resolved_demo).2
  = if @fs_existsSync demo_electron
         (@path_resolve_all demo_electron
            [@preset_root demo_electron None; lit "src"; lit "renderer"; lit "index.html"])
       && truthy (@path_resolve_all demo_electron
            [@preset_root demo_electron None; lit "src"; lit "renderer"; lit "index.html"])
    then None else Some InputRequired.
Proof.
  apply (@preset_passes_check demo_electron None ∅ empty_user_config resolved_demo);
    reflexivity.
Defined.

(** * The commands *)

Lemma doBuild_watch_after (st : doBuild_state) (evs : list tsup_event) :
  firstBundle st = false →
  foldl (doBuild_event true) st evs
  = {| firstBundle := false; db_promise := db_promise st;
       db_watchHook := db_watchHook st + length (List.filter is_success evs);
       db_errorHook := db_errorHook st ++ rejections evs |}.
Proof.
  revert st. induction evs as [|ev evs IH]; intros st Hst.
  - simpl. rewrite Nat.add_0_r, app_nil_r. by destruct st; simplify_eq/=.
  - simpl. destruct ev; simpl; rewrite ?Hst.
    + rewrite IH by done. simpl. f_equal. lia.
    + by rewrite IH.
    + rewrite IH by done. simpl. unfold rejections. simpl. by rewrite <- app_assoc.
Qed.

Lemma doBuild_watch_before (st : doBuild_state) (evs : list tsup_event) :
  firstBundle st = true → db_promise st = Pending →
  foldl (doBuild_event true) st evs
  = {| firstBundle := negb (existsb is_success evs);
       db_promise := if existsb is_success evs then Resolved () else Pending;
       db_watchHook := db_watchHook st + pred (length (List.filter is_success evs));
       db_errorHook := db_errorHook st ++ rejections evs |}.
Proof.
  revert st. induction evs as [|ev evs IH]; intros st Hst Hp.
  - simpl. rewrite Nat.add_0_r, app_nil_r. by destruct st; simplify_eq/=.
  - simpl. destruct ev; simpl; rewrite ?Hst.
    + rewrite doBuild_watch_after by done. simpl. by rewrite Hp.
    + by rewrite IH.
    + rewrite IH by done. simpl. unfold rejections. simpl. by rewrite <- app_assoc.
Qed.

(** X17.  In watch mode the promise of [doBuild] is resolved exactly
    when tsup has reported a successful bundle; every later success
    calls [watchHook] once and the first one never does; every rejection
    of tsup's promise goes to [errorHook], and tsup's promise being
    fulfilled does nothing. *)
Theorem doBuild_watch (evs : list tsup_event) :
  db_promise (doBuild true evs)
  = (if existsb is_success evs then Resolved () else Pending)
  ∧ db_watchHook (doBuild true evs) = pred (length (List.filter is_success evs))
  ∧ db_errorHook (doBuild true evs) = rejections evs.
Proof.
  unfold doBuild. by rewrite doBuild_watch_before.
Qed.

Lemma doBuild_once_from (st : doBuild_state) (evs : list tsup_event) :
  foldl (doBuild_event false) st evs
  = {| firstBundle := firstBundle st;
       db_promise := if existsb is_fulfilled evs then resolve (db_promise st) ()
                     else db_promise st;
       db_watchHook := db_watchHook st;
       db_errorHook := db_errorHook st ++ rejections evs |}.
Proof.
  revert st. induction evs as [|ev evs IH]; intros st.
  - simpl. rewrite app_nil_r. by destruct st.
  - simpl. destruct ev; simpl; rewrite IH; simpl; [done| |].
    + f_equal. destruct (db_promise st) as [|[]|]; simpl; by case_match.
    + unfold rejections. simpl. by rewrite <- app_assoc.
Qed.

(** X18.  Without watch mode [doBuild] never calls [watchHook]; its
    promise is resolved exactly when tsup's promise has been fulfilled.
    When tsup's promise is rejected the error goes to [errorHook] and
    the promise of [doBuild] stays pending: it is never rejected. *)
Theorem doBuild_once (evs : list tsup_event) :
  db_promise (doBuild false evs)
  = (if existsb is_fulfilled evs then Resolved () else Pending)
  ∧ db_watchHook (doBuild false evs) = 0
  ∧ db_errorHook (doBuild false evs) = rejections evs
  ∧ ∀ watch e, db_promise (doBuild watch evs) ≠ Rejected e.
Proof.
  unfold doBuild. rewrite doBuild_once_from. simpl. repeat split.
  intros [] e.
  - rewrite doBuild_watch_before by done. simpl. by case_match.
  - rewrite doBuild_once_from. simpl. by case_match.
Qed.

Section BuildProperties.
Context {Other : Type}.

Lemma clear_watch_falsy (c : TsupOptions Other) :
  watch_truthy (to_watch (clear_watch c)) = false.
Proof.
  unfold clear_watch. by destruct (watch_truthy (to_watch c)) eqn:Hw.
Qed.

Lemma build_plan_falsy (config : option (ElectronViteConfig Other)) (c : TsupOptions Other) :
  c ∈ build_plan config → watch_truthy (to_watch c) = false.
Proof.
  destruct config as [[m p r]|]; simpl; [|by intros ?%elem_of_nil].
  rewrite !elem_of_app. intros [Hc|[Hc|Hc]].
  - destruct m; [|by apply elem_of_nil in Hc].
    apply list_elem_of_singleton in Hc as ->. apply clear_watch_falsy.
  - destruct p; [|by apply elem_of_nil in Hc].
    apply list_elem_of_singleton in Hc as ->. apply clear_watch_falsy.
  - destruct r as [[r|]|]; [|by apply elem_of_nil in Hc..].
    apply list_elem_of_singleton in Hc as ->. apply clear_watch_falsy.
Qed.

Lemma run_builds_spec (tsupBuild : TsupOptions Other → option error)
    (plan : list (TsupOptions Other)) :
  (run_builds tsupBuild plan).1 `prefix_of` plan
  ∧ ((run_builds tsupBuild plan).2 = None →
     (run_builds tsupBuild plan).1 = plan ∧ ∀ c, c ∈ plan → tsupBuild c = None)
  ∧ (∀ e, (run_builds tsupBuild plan).2 = Some e →
          ∃ c, last (run_builds tsupBuild plan).1 = Some c ∧ tsupBuild c = Some e).
Proof.
  induction plan as [|c plan (IHp & IHn & IHe)]; simpl.
  { split; [done|]. split; [|done]. split; [done|]. by intros c ?%elem_of_nil. }
  destruct (tsupBuild c) as [e|] eqn:Hc; simpl.
  - split; [by exists plan|]. split; [done|]. intros e' [= <-]. by exists c.
  - destruct (run_builds tsupBuild plan) as [built r] eqn:Hrun. simpl in *.
    split; [by apply prefix_cons|]. split.
    + intros Hr. destruct (IHn Hr) as [-> Hall]. split; [done|].
      intros c' [->|?]%elem_of_cons; auto.
    + intros e Hr. destruct (IHe e Hr) as (c' & Hlast & Hc').
      exists c'. split; [|done]. destruct built; [done|]. done.
Qed.

(** X19.  [build] hands tsup the main, preload and renderer parts that
    are configured, in this order and one after the other, stopping at
    the first that fails; every configuration it hands over has a watch
    option that counts as false; its promise is fulfilled only when
    every part was built, and rejected with the error of the call made
    last. *)
Theorem build_calls (env : gmap (list N) (list N))
    (resolveConfig : gmap (list N) (list N) → option (ElectronViteConfig Other))
    (tsupBuild : TsupOptions Other → option error) :
  let run := build env resolveConfig tsupBuild in
  let plan := build_plan (resolveConfig run.1) in
  run.2.1 `prefix_of` plan
  ∧ (∀ c, c ∈ run.2.1 → watch_truthy (to_watch c) = false)
  ∧ (run.2.2 = None → run.2.1 = plan ∧ ∀ c, c ∈ plan → tsupBuild c = None)
  ∧ (∀ e, run.2.2 = Some e → ∃ c, last run.2.1 = Some c ∧ tsupBuild c = Some e).
Proof.
  intros run plan. unfold run, build. simpl. fold plan.
  destruct (run_builds_spec tsupBuild plan) as (Hp & Hn & He).
  split; [done|]. split; [|done].
  intros c Hc. apply (build_plan_falsy (resolveConfig run.1)).
  destruct Hp as [rest Hp]. fold plan. rewrite Hp. apply elem_of_app. by left.
Qed.

(** X20.  [build] leaves the environment in which [bytecodePlugin]
    yields a plugin and the renderer preset sets the base to [./],
    whatever the environment was before; after the first statement of
    [createServer], also when it follows a build in the same process,
    [bytecodePlugin] yields null. *)
Theorem build_enables_bytecode `{Electron} (env : gmap (list N) (list N))
    (resolveConfig : gmap (list N) (list N) → option (ElectronViteConfig Other))
    (tsupBuild : TsupOptions Other → option error)
    (options : BytecodeOptions) (preset : option ElectronPluginOptions)
    (config : UserConfig) :
  let env' := (build env resolveConfig tsupBuild).1 in
  is_Some (bytecodePlugin env' options)
  ∧ pc_base (renderer_config_hook preset env' config) = Some (lit "./")
  ∧ bytecodePlugin (createServer_env env') options = None
  ∧ bytecodePlugin (createServer_env env) options = None.
Proof.
  intros env'.
  assert (env' !! NODE_ENV_ELECTRON_VITE = Some (lit "production")) as Henv.
  { unfold env', build. simpl. apply lookup_insert_eq. }
  split; [by apply bytecodePlugin_production|]. split.
  { simpl. rewrite Henv. rewrite (bool_decide_eq_true_2 _ eq_refl).
    by rewrite orb_true_r. }
  split; unfold bytecodePlugin, createServer_env;
    rewrite lookup_insert_eq; by rewrite bool_decide_eq_false_2.
Qed.

End BuildProperties.

Lemma build_calls_witness :
  let run := build ∅ (λ _, Some watching_config) renderer_fails in
  let plan := build_plan (Some watching_config) in
  run.2.1 `prefix_of` plan
  ∧ (∀ c, c ∈ run.2.1 → watch_truthy (to_watch c) = false)
  ∧ (run.2.2 = None → run.2.1 = plan ∧ ∀ c, c ∈ plan → renderer_fails c = None)
  ∧ (∀ e, run.2.2 = Some e → ∃ c, last run.2.1 = Some c ∧ renderer_fails c = Some e).
Proof.
  apply (build_calls ∅ (λ _, Some watching_config) renderer_fails).
Defined.

(** * The write phase as a whole *)

Lemma processChunk_ends `{Host} (p : Plugin) graph outDir bytecodeRE fuel
    (name : jsstring) (item : OutputItem) :
  (∀ chunk, item = ItemChunk chunk →
     length ((oc_imports chunk ++ oc_dynamicImports chunk) ++ graph_ids graph) < fuel) →
  is_Some (processChunk p graph outDir bytecodeRE fuel name item).
Proof.
  intros Hfuel. unfold processChunk. destruct item as [chunk|]; [|by eexists].
  pose proof (rewriteReferences_ends bytecodeRE (oc_code chunk)) as Hends.
  destruct (rewriteReferences bytecodeRE (oc_code chunk)) as [[_code|e]|];
    [|by eexists|done].
  destruct (includes (bytecodeChunks p) name).
  { by destruct (cs_promise (compileToBytecode _code)); eexists. }
  destruct (oc_isEntry chunk); [|by eexists].
  set (seeds := oc_imports chunk ++ oc_dynamicImports chunk).
  destruct (propagate_loop_ends graph (bytecodeChunks p) (seeds ++ graph_ids graph)
              fuel (Set_new seeds) 0)
    as (found & ids & Hrun & _).
  { apply Set_new_NoDup. }
  { intros id Hid. apply (proj1 (Set_new_elem seeds id)) in Hid. apply elem_of_app. by left. }
  { intros id ?. apply elem_of_app. by right. }
  { lia. }
  { specialize (Hfuel chunk eq_refl). fold seeds in Hfuel. lia. }
  unfold propagate. fold seeds. rewrite Hrun. by eexists.
Qed.

(** X21.  [writeBundle] comes to an end on every bundle: neither the
    rewriting loop nor the walk over the importers runs forever.  In the
    model that is: with more fuel than an entry has imports plus the
    graph has ids, the hook returns. *)
Theorem writeBundle_ends `{Host} (p : Plugin) (graph : gmap (list N) ModuleInfo)
    (outDir : jsstring) (output : list (jsstring * OutputItem)) (fuel : nat) :
  (∀ name chunk, (name, ItemChunk chunk) ∈ output →
     length ((oc_imports chunk ++ oc_dynamicImports chunk) ++ graph_ids graph) < fuel) →
  is_Some (writeBundle p graph outDir output fuel).
Proof.
  intros Hfuel. unfold writeBundle.
  destruct (useInRenderer p || (length (bytecodeChunks p) =? 0)); [by eexists|].
  destruct (RegExp_new (bytecodeRE_source (bytecodeChunks p))) as [bytecodeRE|];
    [|by eexists].
  assert (is_Some (mapM (λ kv : jsstring * OutputItem,
                           o ← processChunk p graph outDir bytecodeRE fuel kv.1 kv.2;
                           Some (kv.1, o)) output)) as [outcomes ->].
  { apply mapM_is_Some, Forall_forall. intros [name item] Hin. simpl.
    destruct (processChunk_ends p graph outDir bytecodeRE fuel name item) as [o ->].
    - intros chunk ->. by apply (Hfuel name).
    - by eexists. }
  by eexists.
Qed.

Lemma writeBundle_ends_witness :
  is_Some (@writeBundle Demo.host index_rendered_plugin ∅ (lit "out/main") index_output 5).
Proof.
  apply (@writeBundle_ends Demo.host).
  intros name chunk Hin. unfold index_output in Hin.
  apply elem_of_cons in Hin as [Hin|Hin]; [injection Hin as _ ->; vm_compute; lia|].
  apply elem_of_cons in Hin as [Hin|Hin]; [injection Hin as _ ->; vm_compute; lia|].
  apply elem_of_cons in Hin as [Hin|Hin]; [discriminate|].
  by apply elem_of_nil in Hin.
Defined.
